(** * The 3-coloring circular buffer (1B-3coloring-filipppp)

    A shallow embedding of [shm.c], [circular_buffer.c] and the main loop of
    [supervisor.c].  The C functions become functions of a small monad over a
    [world]: the named kernel objects (the shared memory region and the three
    semaphores), the handles of the calling process, the environment (which
    library calls fail, which waits are interrupted, when the supervisor
    raises [halt]) and what the run lets one observe (the calls made, the
    words stored and loaded, the text printed). *)

From Stdlib Require Import ZArith Lia.
From stdpp Require Import base decidable option list numbers.

Local Open Scope Z_scope.

(** ** Data model *)

(** [shm.h]: [#define MAX_DATA (400)] *)
Definition MAX_DATA : Z := 400.

(** The largest [int] of the target (LP64). *)
Definition INT_MAX : Z := 2147483647.

(** Conversion of a [size_t] (or any wider value) to [long]. *)
Definition to_long (z : Z) : Z :=
  (z + 2 ^ 63) mod 2 ^ 64 - 2 ^ 63.

(** Conversion of a [long] to [size_t]. *)
Definition to_size_t (z : Z) : Z := z mod 2 ^ 64.

(** [shm.h]: the struct shared between the processes. *)
Record shared_memory_t := Shared {
  halt : bool;
  data : list Z;
  write_idx : Z;
  read_idx : Z
}.

(** The content of a freshly created and truncated object: all zero. *)
Definition zero_region : shared_memory_t :=
  {| halt := false; data := replicate (Z.to_nat MAX_DATA) 0;
     write_idx := 0; read_idx := 0 |}.

(** [circular_buffer.c]: the three named semaphores
    ("12023141_free", "12023141_used", "12023141_mutex"). *)
Inductive sem_name := SEM_FREE | SEM_USED | SEM_MUTEX.

Global Instance sem_name_eq_dec : EqDecision sem_name.
Proof. solve_decision. Defined.

(** A named semaphore: whether its name is in the system name space, its
    count, and whether the calling process holds an open handle on it. *)
Record semaphore := Semaphore {
  linked : bool;
  value : Z;
  opened : bool
}.

(** [circular_buffer.h]: the handle of a process on the buffer.  The region
    and the semaphores have fixed names, so the pointers of the C struct
    carry no information here; the file descriptor does. *)
Record circular_buffer_t := CBuff { fd : Z }.

(** The library calls the code makes. *)
Inductive syscall :=
| SHM_OPEN (creat : bool)
| FTRUNCATE
| MMAP
| MUNMAP
| CLOSE
| SHM_UNLINK
| SEM_OPEN (s : sem_name) (creat_excl : bool)
| SEM_CLOSE (s : sem_name)
| SEM_UNLINK (s : sem_name)
| SEM_WAIT (s : sem_name)
| SEM_POST (s : sem_name).

Global Instance syscall_eq_dec : EqDecision syscall.
Proof. solve_decision. Defined.

Inductive errno_t := E0 | EINTR | EINVAL | EEXIST | ENOENT | EBADF | EFAULT.

Global Instance errno_eq_dec : EqDecision errno_t.
Proof. solve_decision. Defined.

(** What the environment does to one [sem_wait]: the wait goes through, or
    it returns -1 with the given [errno]. *)
Inductive wait_outcome := Acquire | Fail (e : errno_t).

(** What a run lets one observe. *)
Inductive event :=
| Call (c : syscall) (ok : bool)
| Store (idx v : Z)
| Load (idx v : Z)
| ReadHalt (b : bool).

(** The [printf] and [fprintf] calls of the supervisor, one constructor per
    format string. *)
Inductive output :=
| OutColorable            (* "[./supervisor] The graph is 3-colorable!\n" *)
| OutSolution (n : Z)     (* "[./supervisor] Solution with %ld edges:" *)
| OutFst (v : Z)          (* " %ld" *)
| OutSnd (v : Z)          (* "-%ld" *)
| OutNewline              (* "\n" *)
| ErrUsage                (* stderr: program takes no arguments *)
| ErrOpen                 (* stderr: error opening circular buffer *)
| ErrClose                (* stderr: could not close circular buffer *)
| ErrInterrupt.           (* stderr: interrupt error *)

Record world := World {
  (* kernel objects *)
  shm_linked : bool;          (* "/12023141_shm" is in the name space *)
  shm : shared_memory_t;      (* content of the region *)
  sem_free : semaphore;
  sem_used : semaphore;
  sem_mutex : semaphore;
  (* calling process *)
  fd_open : option Z;         (* descriptor of the region, when open *)
  mapped : bool;              (* the region is mapped *)
  errno : errno_t;
  quit : bool;                (* supervisor.c: volatile sig_atomic_t quit *)
  (* environment *)
  faults : list syscall;      (* calls that fail for outside reasons *)
  waits : list wait_outcome;  (* one entry per sem_wait; none left: Acquire *)
  raised : list bool;         (* one entry per read of halt: true when the
                                 supervisor has set the flag in between *)
  (* observations *)
  trace : list event;
  out : list output
}.

(** ** The monad of the embedding *)

Inductive outcome (A : Type) :=
| Returns (a : A) (w : world)
| Blocked (w : world)       (* sem_wait on a zero count: nobody else runs *)
| Undefined                 (* undefined behaviour of C *)
| OutOfFuel.                (* a loop bounded by fuel ran out of it *)
Arguments Returns {A} a w.
Arguments Blocked {A} w.
Arguments Undefined {A}.
Arguments OutOfFuel {A}.

Definition M (A : Type) : Type := world → outcome A.

Global Instance M_ret : MRet M := λ A a w, Returns a w.
Global Instance M_bind : MBind M := λ A B f m w,
  match m w with
  | Returns a w' => f a w'
  | Blocked w' => Blocked w'
  | Undefined => Undefined
  | OutOfFuel => OutOfFuel
  end.

Definition undefined {A} : M A := λ _, Undefined.
Definition get {A} (f : world → A) : M A := λ w, Returns (f w) w.
Definition modify (f : world → world) : M unit := λ w, Returns tt (f w).

(** ** Field updates *)

Definition set_shm (f : shared_memory_t → shared_memory_t) (w : world) : world :=
  World (shm_linked w) (f (shm w)) (sem_free w) (sem_used w) (sem_mutex w)
        (fd_open w) (mapped w) (errno w) (quit w)
        (faults w) (waits w) (raised w) (trace w) (out w).

Definition set_shm_linked (b : bool) (w : world) : world :=
  World b (shm w) (sem_free w) (sem_used w) (sem_mutex w)
        (fd_open w) (mapped w) (errno w) (quit w)
        (faults w) (waits w) (raised w) (trace w) (out w).

Definition sem (s : sem_name) (w : world) : semaphore :=
  match s with
  | SEM_FREE => sem_free w
  | SEM_USED => sem_used w
  | SEM_MUTEX => sem_mutex w
  end.

Definition set_sem (s : sem_name) (f : semaphore → semaphore) (w : world) : world :=
  match s with
  | SEM_FREE =>
      World (shm_linked w) (shm w) (f (sem_free w)) (sem_used w) (sem_mutex w)
            (fd_open w) (mapped w) (errno w) (quit w)
            (faults w) (waits w) (raised w) (trace w) (out w)
  | SEM_USED =>
      World (shm_linked w) (shm w) (sem_free w) (f (sem_used w)) (sem_mutex w)
            (fd_open w) (mapped w) (errno w) (quit w)
            (faults w) (waits w) (raised w) (trace w) (out w)
  | SEM_MUTEX =>
      World (shm_linked w) (shm w) (sem_free w) (sem_used w) (f (sem_mutex w))
            (fd_open w) (mapped w) (errno w) (quit w)
            (faults w) (waits w) (raised w) (trace w) (out w)
  end.

Definition set_fd_open (o : option Z) (w : world) : world :=
  World (shm_linked w) (shm w) (sem_free w) (sem_used w) (sem_mutex w)
        o (mapped w) (errno w) (quit w)
        (faults w) (waits w) (raised w) (trace w) (out w).

Definition set_mapped (b : bool) (w : world) : world :=
  World (shm_linked w) (shm w) (sem_free w) (sem_used w) (sem_mutex w)
        (fd_open w) b (errno w) (quit w)
        (faults w) (waits w) (raised w) (trace w) (out w).

Definition set_errno (e : errno_t) (w : world) : world :=
  World (shm_linked w) (shm w) (sem_free w) (sem_used w) (sem_mutex w)
        (fd_open w) (mapped w) e (quit w)
        (faults w) (waits w) (raised w) (trace w) (out w).

Definition set_quit (b : bool) (w : world) : world :=
  World (shm_linked w) (shm w) (sem_free w) (sem_used w) (sem_mutex w)
        (fd_open w) (mapped w) (errno w) b
        (faults w) (waits w) (raised w) (trace w) (out w).

Definition set_waits (l : list wait_outcome) (w : world) : world :=
  World (shm_linked w) (shm w) (sem_free w) (sem_used w) (sem_mutex w)
        (fd_open w) (mapped w) (errno w) (quit w)
        (faults w) l (raised w) (trace w) (out w).

Definition set_raised (l : list bool) (w : world) : world :=
  World (shm_linked w) (shm w) (sem_free w) (sem_used w) (sem_mutex w)
        (fd_open w) (mapped w) (errno w) (quit w)
        (faults w) (waits w) l (trace w) (out w).

Definition log (e : event) (w : world) : world :=
  World (shm_linked w) (shm w) (sem_free w) (sem_used w) (sem_mutex w)
        (fd_open w) (mapped w) (errno w) (quit w)
        (faults w) (waits w) (raised w) (trace w ++ [e]) (out w).

Definition print (o : output) (w : world) : world :=
  World (shm_linked w) (shm w) (sem_free w) (sem_used w) (sem_mutex w)
        (fd_open w) (mapped w) (errno w) (quit w)
        (faults w) (waits w) (raised w) (trace w) (out w ++ [o]).

Definition set_linked (b : bool) (s : semaphore) : semaphore :=
  Semaphore b (value s) (opened s).
Definition set_value (v : Z) (s : semaphore) : semaphore :=
  Semaphore (linked s) v (opened s).
Definition set_opened (b : bool) (s : semaphore) : semaphore :=
  Semaphore (linked s) (value s) b.

Definition set_halt (b : bool) (m : shared_memory_t) : shared_memory_t :=
  Shared b (data m) (write_idx m) (read_idx m).
Definition set_data (d : list Z) (m : shared_memory_t) : shared_memory_t :=
  Shared (halt m) d (write_idx m) (read_idx m).
Definition set_write_idx (i : Z) (m : shared_memory_t) : shared_memory_t :=
  Shared (halt m) (data m) i (read_idx m).
Definition set_read_idx (i : Z) (m : shared_memory_t) : shared_memory_t :=
  Shared (halt m) (data m) (write_idx m) i.

(** ** The library calls

    POSIX, as far as the code depends on it.  A call fails when the
    environment says so ([faults]) or when the state of the kernel objects
    makes it fail (a name that exists under [O_CREAT | O_EXCL], a name that
    does not exist, a descriptor or handle that is not open). *)

Definition faulty (c : syscall) (w : world) : bool :=
  bool_decide (c ∈ faults w).

Definition failed {A} (c : syscall) (e : errno_t) (r : A) : M A :=
  λ w, Returns r (log (Call c false) (set_errno e w)).

Definition succeeded {A} (c : syscall) (r : A) (f : world → world) : M A :=
  λ w, Returns r (log (Call c true) (f w)).

(** The descriptor [shm_open] hands out: the lowest one after stdin, stdout
    and stderr. *)
Definition SHM_FD : Z := 3.

(** [shm_open(SHM_NAME, O_RDWR [| O_CREAT], 0600)].  With [O_CREAT] and no
    [O_EXCL] an existing object is opened as it is; a new one is empty. *)
Definition shm_open (creat : bool) : M Z := λ w,
  if faulty (SHM_OPEN creat) w then failed (SHM_OPEN creat) EFAULT (-1) w
  else if shm_linked w then
    succeeded (SHM_OPEN creat) SHM_FD (set_fd_open (Some SHM_FD)) w
  else if creat then
    succeeded (SHM_OPEN creat) SHM_FD
      (λ w, set_fd_open (Some SHM_FD)
              (set_shm_linked true (set_shm (λ _, zero_region) w))) w
  else failed (SHM_OPEN creat) ENOENT (-1) w.

Definition ftruncate (fd : Z) : M Z := λ w,
  if faulty FTRUNCATE w then failed FTRUNCATE EFAULT (-1) w
  else if decide (fd_open w = Some fd) then succeeded FTRUNCATE 0 id w
  else failed FTRUNCATE EBADF (-1) w.

(** [mmap]: [false] stands for [MAP_FAILED]. *)
Definition mmap (fd : Z) : M bool := λ w,
  if faulty MMAP w then failed MMAP EFAULT false w
  else if decide (fd_open w = Some fd) then succeeded MMAP true (set_mapped true) w
  else failed MMAP EBADF false w.

Definition munmap : M Z := λ w,
  if faulty MUNMAP w then failed MUNMAP EINVAL (-1) w
  else succeeded MUNMAP 0 (set_mapped false) w.

Definition close (fd : Z) : M Z := λ w,
  if faulty CLOSE w then failed CLOSE EFAULT (-1) w
  else if decide (fd_open w = Some fd) then succeeded CLOSE 0 (set_fd_open None) w
  else failed CLOSE EBADF (-1) w.

Definition shm_unlink : M Z := λ w,
  if faulty SHM_UNLINK w then failed SHM_UNLINK EFAULT (-1) w
  else if shm_linked w then succeeded SHM_UNLINK 0 (set_shm_linked false) w
  else failed SHM_UNLINK ENOENT (-1) w.

(** [sem_open(name, O_CREAT | O_EXCL, 0600, init)] when [creat_excl], and
    [sem_open(name, 0)] otherwise; [false] stands for [SEM_FAILED]. *)
Definition sem_open (s : sem_name) (creat_excl : bool) (init : Z) : M bool := λ w,
  let c := SEM_OPEN s creat_excl in
  if faulty c w then failed c EFAULT false w
  else if creat_excl then
    if linked (sem s w) then failed c EEXIST false w
    else succeeded c true (set_sem s (λ _, Semaphore true init true)) w
  else
    if linked (sem s w) then succeeded c true (set_sem s (set_opened true)) w
    else failed c ENOENT false w.

(** [sem_close]: on a handle that is not open (closed before), glibc finds no
    mapping and returns -1 with [EINVAL]. *)
Definition sem_close (s : sem_name) : M Z := λ w,
  if faulty (SEM_CLOSE s) w then failed (SEM_CLOSE s) EFAULT (-1) w
  else if opened (sem s w) then
    succeeded (SEM_CLOSE s) 0 (set_sem s (set_opened false)) w
  else failed (SEM_CLOSE s) EINVAL (-1) w.

Definition sem_unlink (s : sem_name) : M Z := λ w,
  if faulty (SEM_UNLINK s) w then failed (SEM_UNLINK s) EFAULT (-1) w
  else if linked (sem s w) then
    succeeded (SEM_UNLINK s) 0 (set_sem s (set_linked false)) w
  else failed (SEM_UNLINK s) ENOENT (-1) w.

(** [sem_post] on a semaphore of an open buffer. *)
Definition sem_post (s : sem_name) : M Z :=
  succeeded (SEM_POST s) 0 (set_sem s (λ x, set_value (value x + 1) x)).

(** supervisor.c: [void handle_signal(int signal) { quit = 1; }] *)
Definition handle_signal (w : world) : world := set_quit true w.

(** [sem_wait].  A failed wait leaves the count as it is.  [EINTR] is what
    the call reports after a signal handler has run; the only handler of the
    code base is the supervisor's [handle_signal].  A wait that is not made
    to fail takes the semaphore when its count is positive; when it is not,
    the process stays blocked, for no other process runs in between. *)
Definition sem_wait (s : sem_name) : M Z := λ w,
  match waits w with
  | Fail e :: rest =>
      let w := set_waits rest w in
      let w := if decide (e = EINTR) then handle_signal w else w in
      failed (SEM_WAIT s) e (-1) w
  | _ =>
      let w := set_waits (tail (waits w)) w in
      if decide (0 < value (sem s w)) then
        succeeded (SEM_WAIT s) 0 (set_sem s (λ x, set_value (value x - 1) x)) w
      else Blocked w
  end.

(** Reading [cbuff->shm->halt]: the supervisor may have set the flag since
    the last look. *)
Definition interfere (w : world) : world :=
  match raised w with
  | [] => w
  | b :: rest =>
      set_raised rest (if b then set_shm (set_halt true) w else w)
  end.

Definition read_halt : M bool := λ w,
  let w := interfere w in
  Returns (halt (shm w)) (log (ReadHalt (halt (shm w))) w).

(** [cbuff->shm->data[cbuff->shm->write_idx] = v]; an index outside the array
    is undefined behaviour. *)
Definition store_data (v : Z) : M unit := λ w,
  let i := write_idx (shm w) in
  if decide (0 ≤ i < MAX_DATA) then
    Returns tt (log (Store i v)
                  (set_shm (λ m, set_data (<[Z.to_nat i := v]> (data m)) m) w))
  else Undefined.

(** [cbuff->shm->data[cbuff->shm->read_idx++]] *)
Definition load_data : M Z := λ w,
  let i := read_idx (shm w) in
  if decide (0 ≤ i < MAX_DATA) then
    let v := default 0 (data (shm w) !! Z.to_nat i) in
    Returns v (log (Load i v) (set_shm (set_read_idx (i + 1)) w))
  else Undefined.

Definition printf (o : output) : M unit := modify (print o).

(** ** shm.c *)

(** [open_shm(int *fd, bool server)]: the value stored through [fd] and
    whether the pointer returned is not [NULL]. *)
Definition open_shm (server : bool) : M (Z * bool) :=
  let creat := server in
  fd ← shm_open creat;
  if decide (fd = -1) then mret (fd, false)
  else
    r ← (if server then ftruncate fd else mret 0);
    if decide (r < 0) then
      shm_unlink;; close fd;; mret (fd, false)
    else
      p ← mmap fd;
      if negb p then
        shm_unlink;; close fd;; mret (fd, false)
      else
        (if server then
           modify (set_shm (set_read_idx 0));;
           modify (set_shm (set_write_idx 0));;
           modify (set_shm (set_halt false))
         else mret tt);;
        mret (fd, true).

(** [close_shm(shm, fd, server)] *)
Definition close_shm (fd : Z) (server : bool) : M bool :=
  let status := true in
  r ← munmap;
  let status := if decide (r = -1) then false else status in
  r ← close fd;
  let status := if decide (r = -1) then false else status in
  if server then
    r ← shm_unlink;
    let status := if decide (r = -1) then false else status in
    mret status
  else mret status.

(** ** circular_buffer.c *)

(** [open_cbuff(bool server)].  The handle is the value returned; [malloc]
    and [free] of the struct are left out. *)
Definition open_cbuff (server : bool) : M (option circular_buffer_t) :=
  '(fd, shm_ok) ← open_shm server;
  if negb shm_ok then mret None
  else
    let cbuff := CBuff fd in
    if server then
      f ← sem_open SEM_FREE true MAX_DATA;
      if negb f then
        close_shm fd server;; mret None
      else
        u ← sem_open SEM_USED true 0;
        if negb u then
          sem_close SEM_FREE;; sem_unlink SEM_FREE;;
          close_shm fd server;; mret None
        else
          m ← sem_open SEM_MUTEX true 1;
          if negb m then
            sem_close SEM_FREE;; sem_unlink SEM_FREE;;
            sem_close SEM_FREE;; sem_unlink SEM_FREE;;
            close_shm fd server;; mret None
          else mret (Some cbuff)
    else
      f ← sem_open SEM_FREE false 0;
      if negb f then mret None
      else
        u ← sem_open SEM_USED false 0;
        if negb u then
          sem_close SEM_FREE;; mret None
        else
          m ← sem_open SEM_MUTEX false 0;
          if negb m then
            sem_close SEM_FREE;; sem_close SEM_USED;; mret None
          else mret (Some cbuff).

(** [close_cbuff(cbuff, server)] *)
Definition close_cbuff (cbuff : circular_buffer_t) (server : bool) : M bool :=
  (if server then
     sem_post SEM_FREE;; sem_post SEM_USED;;
     modify (set_shm (set_halt true))
   else mret tt);;
  sem_close SEM_FREE;; sem_close SEM_USED;; sem_close SEM_MUTEX;;
  (if server then
     sem_unlink SEM_FREE;; sem_unlink SEM_USED;; sem_unlink SEM_MUTEX;; mret tt
   else mret tt);;
  ok ← close_shm (fd cbuff) server;
  if negb ok then mret false else mret true.

(** [++i] on an [int]: overflow is undefined behaviour. *)
Definition incr_int (i : Z) : M Z :=
  if decide (i = INT_MAX) then undefined else mret (i + 1).

(** The body of [for (int i = 0; i <= size; ++i)] in [add_solution], run
    [todo] more times from counter [i]; after the loop the mutex is released
    and [true] returned. *)
Fixpoint add_solution_loop (edges : list Z) (size : nat) (todo : nat) (i : Z)
  : M bool :=
  match todo with
  | O => sem_post SEM_MUTEX;; mret true
  | S todo' =>
      h ← read_halt;
      if (h : bool) then sem_post SEM_MUTEX;; mret false
      else
        r ← sem_wait SEM_FREE;
        if decide (r = -1) then sem_post SEM_MUTEX;; mret false
        else
          (if decide (i = 0) then store_data (to_long (Z.of_nat size))
           else match edges !! Z.to_nat (i - 1) with
                | Some e => store_data e
                | None => undefined
                end);;
          modify (set_shm (λ m, set_write_idx (write_idx m + 1) m));;
          modify (set_shm (λ m, set_write_idx (Z.rem (write_idx m) MAX_DATA) m));;
          sem_post SEM_USED;;
          i' ← incr_int i;
          add_solution_loop edges size todo' i'
  end.

(** [add_solution(cbuff, edges, size)]; [edges] is the array the pointer
    refers to, read beyond its end is undefined behaviour. *)
Definition add_solution (cbuff : circular_buffer_t) (edges : list Z) (size : nat)
  : M bool :=
  r ← sem_wait SEM_MUTEX;
  if decide (r = -1) then sem_post SEM_MUTEX;; mret false
  else add_solution_loop edges size (S size) 0.

(** [read_buffer(cbuff)] *)
Definition read_buffer (cbuff : circular_buffer_t) : M Z :=
  r ← sem_wait SEM_USED;
  if decide (r = -1) then sem_post SEM_USED;; mret (-1)
  else
    d ← load_data;
    modify (set_shm (λ m, set_read_idx (Z.rem (read_idx m) MAX_DATA) m));;
    sem_post SEM_FREE;;
    mret d.

(** The body of [for (int i = 0; i < size; ++i)] in [print_solution_string]. *)
Fixpoint print_solution_loop (cbuff : circular_buffer_t) (todo : nat) (i : Z)
  : M unit :=
  match todo with
  | O => mret tt
  | S todo' =>
      temp ← read_buffer cbuff;
      if decide (temp = -1) then mret tt
      else
        (if decide (Z.rem i 2 = 0) then printf (OutFst temp)
         else printf (OutSnd temp));;
        i' ← incr_int i;
        print_solution_loop cbuff todo' i'
  end.

(** [print_solution_string(cbuff, size)], [size] a [size_t]. *)
Definition print_solution_string (cbuff : circular_buffer_t) (size : Z) : M unit :=
  print_solution_loop cbuff (Z.to_nat size) 0.

(** The body of [for (int i = 0; i < size; ++i)] in [skip_solution]. *)
Fixpoint skip_solution_loop (cbuff : circular_buffer_t) (todo : nat) (i : Z)
  : M unit :=
  match todo with
  | O => mret tt
  | S todo' =>
      temp ← read_buffer cbuff;
      if decide (temp = -1) then mret tt
      else
        i' ← incr_int i;
        skip_solution_loop cbuff todo' i'
  end.

(** [skip_solution(cbuff, size)], [size] a [size_t]. *)
Definition skip_solution (cbuff : circular_buffer_t) (size : Z) : M unit :=
  skip_solution_loop cbuff (Z.to_nat size) 0.

(** ** supervisor.c *)

Definition EXIT_SUCCESS : Z := 0.
Definition EXIT_FAILURE : Z := 1.

(** What one turn of [while (!quit)] leaves: the loop goes on with the new
    [min_deletions], or the process leaves through [exit]. *)
Inductive turn :=
| Continue (min_deletions : Z)
| Exit (code : Z).

(** The body of [while (!quit)] in [main]. *)
Definition supervisor_turn (cbuff : circular_buffer_t) (min_deletions : Z)
  : M turn :=
  size ← read_buffer cbuff;
  if decide (size = -1) then
    e ← get errno;
    if decide (e = EINTR) then mret (Continue min_deletions)
    else
      ok ← close_cbuff cbuff false;
      if negb ok then
        printf ErrClose;; mret (Exit EXIT_FAILURE)
      else
        printf ErrInterrupt;; mret (Exit EXIT_FAILURE)
  else
    let deletions := Z.quot size 2 in
    if decide (min_deletions = -1 ∨ deletions < min_deletions) then
      let min_deletions := deletions in
      if decide (min_deletions = 0) then
        printf OutColorable;;
        modify (set_quit true);;
        mret (Continue min_deletions)
      else
        printf (OutSolution min_deletions);;
        print_solution_string cbuff (to_size_t size);;
        printf OutNewline;;
        mret (Continue min_deletions)
    else
      skip_solution cbuff (to_size_t size);;
      mret (Continue min_deletions).

(** [while (!quit) { ... }], at most [fuel] turns of it. *)
Fixpoint supervisor_loop (fuel : nat) (cbuff : circular_buffer_t)
    (min_deletions : Z) : M turn :=
  match fuel with
  | O => λ _, OutOfFuel
  | S fuel' =>
      q ← get quit;
      if (q : bool) then mret (Continue min_deletions)
      else
        t ← supervisor_turn cbuff min_deletions;
        match t with
        | Continue m => supervisor_loop fuel' cbuff m
        | Exit code => mret (Exit code)
        end
  end.

(** What follows the loop in [main]: "Stop generator processes and close
    buffer". *)
Definition supervisor_shutdown (cbuff : circular_buffer_t) : M Z :=
  modify (set_shm (set_halt true));;
  ok ← close_cbuff cbuff true;
  if negb ok then
    printf ErrClose;; mret EXIT_FAILURE
  else mret EXIT_SUCCESS.

(** [main] from the loop on, with [min_deletions] as it stands. *)
Definition supervisor_run (fuel : nat) (cbuff : circular_buffer_t)
    (min_deletions : Z) : M Z :=
  t ← supervisor_loop fuel cbuff min_deletions;
  match t with
  | Exit code => mret code
  | Continue _ => supervisor_shutdown cbuff
  end.

(** [main] of the supervisor; [sigaction] installs [handle_signal], whose
    effect is part of [sem_wait]. *)
Definition main (fuel : nat) (argc : Z) : M Z :=
  (if decide (argc > 1) then printf ErrUsage else mret tt);;
  o ← open_cbuff true;
  match o with
  | None => printf ErrOpen;; mret EXIT_FAILURE
  | Some cbuff => supervisor_run fuel cbuff (-1)
  end.

(** ** Worlds to run the code on *)

Definition no_semaphore : semaphore := Semaphore false 0 false.

(** A system on which none of the names exists, seen from a process that has
    just started; the environment lets every call through. *)
Definition boot : world :=
  {| shm_linked := false; shm := zero_region;
     sem_free := no_semaphore; sem_used := no_semaphore;
     sem_mutex := no_semaphore;
     fd_open := None; mapped := false; errno := E0; quit := false;
     faults := []; waits := []; raised := [];
     trace := []; out := [] |}.

(** The result and the final world of a run. *)
Definition result {A} (o : outcome A) : option A :=
  match o with Returns a _ => Some a | _ => None end.

Definition final {A} (o : outcome A) : option world :=
  match o with Returns _ w | Blocked w => Some w | _ => None end.

(** ** The ring as a queue

    The words a reader has still to get: the [used] slots from [read_idx]
    on, around the end of the array. *)

Definition slot (d : list Z) (i : Z) : Z := default 0 (d !! Z.to_nat i).

Definition window (d : list Z) (start : Z) (n : nat) : list Z :=
  map (λ k, slot d ((start + Z.of_nat k) mod MAX_DATA)) (seq 0 n).

Definition pending (w : world) : list Z :=
  window (data (shm w)) (read_idx (shm w)) (Z.to_nat (value (sem_used w))).

(** The invariant of section 3 of the specification. *)
Record ring_ok (w : world) : Prop := RingOk {
  ring_length : length (data (shm w)) = Z.to_nat MAX_DATA;
  ring_read : 0 ≤ read_idx (shm w) < MAX_DATA;
  ring_used : 0 ≤ value (sem_used w);
  ring_free : 0 ≤ value (sem_free w);
  ring_sum : value (sem_used w) + value (sem_free w) = MAX_DATA;
  ring_write :
    write_idx (shm w) = (read_idx (shm w) + value (sem_used w)) mod MAX_DATA
}.

(** The environment lets every wait through. *)
Definition calm (w : world) : Prop := Forall (eq Acquire) (waits w).

(** Nobody has asked the producers to stop, and nobody will. *)
Definition unhalted (w : world) : Prop :=
  halt (shm w) = false ∧ Forall (eq false) (raised w).

(** The check of [halt] (counted from 0) that is the first to find the flag
    set, given the flag and what the supervisor does between the checks. *)
Fixpoint first_halt (h : bool) (r : list bool) : option nat :=
  if h then Some O
  else match r with
       | [] => None
       | b :: r' => if b then Some O else S <$> first_halt false r'
       end.

(** The events of writing the words [ws] from slot [idx] on: per word the
    look at [halt], the wait on [free], the store and the post of [used]. *)
Fixpoint frame_events (idx : Z) (ws : list Z) : list event :=
  match ws with
  | [] => []
  | v :: ws' =>
      [ReadHalt false; Call (SEM_WAIT SEM_FREE) true; Store idx v;
       Call (SEM_POST SEM_USED) true]
      ++ frame_events ((idx + 1) mod MAX_DATA) ws'
  end.

(** The events of reading the words [ws] from slot [idx] on. *)
Fixpoint read_events (idx : Z) (ws : list Z) : list event :=
  match ws with
  | [] => []
  | v :: ws' =>
      [Call (SEM_WAIT SEM_USED) true; Load idx v; Call (SEM_POST SEM_FREE) true]
      ++ read_events ((idx + 1) mod MAX_DATA) ws'
  end.

Global Instance event_eq_dec : EqDecision event.
Proof. solve_decision. Defined.

(** How often a call went through in a trace. *)
Definition count_ok (c : syscall) (tr : list event) : nat :=
  length (filter (λ e, e = Call c true) tr).

(** The words a trace stores and loads, and the calls in it that failed. *)
Definition stored (tr : list event) : list Z :=
  omap (λ e, match e with Store _ v => Some v | _ => None end) tr.

Definition loaded (tr : list event) : list Z :=
  omap (λ e, match e with Load _ v => Some v | _ => None end) tr.

Definition failures (tr : list event) : list syscall :=
  omap (λ e, match e with Call c false => Some c | _ => None end) tr.

Definition calls (tr : list event) : list syscall :=
  omap (λ e, match e with Call c _ => Some c | _ => None end) tr.

(** A consumer that calls [read_buffer] [n] times in a row. *)
Fixpoint read_words (cbuff : circular_buffer_t) (n : nat) : M (list Z) :=
  match n with
  | O => mret []
  | S n' =>
      v ← read_buffer cbuff;
      vs ← read_words cbuff n';
      mret (v :: vs)
  end.

(** ** Worlds along a run *)

(** The world after a [sem_wait] that took the semaphore, and after a
    [sem_post]. *)
Definition took (s : sem_name) (w : world) : world :=
  log (Call (SEM_WAIT s) true)
      (set_sem s (λ x, set_value (value x - 1) x)
               (set_waits (tail (waits w)) w)).

Definition posted (s : sem_name) (w : world) : world :=
  log (Call (SEM_POST s) true) (set_sem s (λ x, set_value (value x + 1) x) w).

(** The world after a [sem_wait] that failed with [e]. *)
Definition refused (s : sem_name) (e : errno_t) (w : world) : world :=
  let w := set_waits (tail (waits w)) w in
  let w := if decide (e = EINTR) then handle_signal w else w in
  log (Call (SEM_WAIT s) false) (set_errno e w).

(** The word that turn [i] of the loop of [add_solution] writes. *)
Definition frame_word (edges : list Z) (size : nat) (i : Z) : option Z :=
  if decide (i = 0) then Some (to_long (Z.of_nat size))
  else edges !! Z.to_nat (i - 1).

(** The world after one full turn of the loop of [add_solution] that wrote
    the word [v]. *)
Definition put (v : Z) (w0 : world) : world :=
  let w := took SEM_FREE (log (ReadHalt false) (interfere w0)) in
  let w := log (Store (write_idx (shm w0)) v)
             (set_shm (λ m, set_data (<[Z.to_nat (write_idx (shm w0)) := v]> (data m)) m) w) in
  let w := set_shm (λ m, set_write_idx (write_idx m + 1) m) w in
  let w := set_shm (λ m, set_write_idx (Z.rem (write_idx m) MAX_DATA) m) w in
  posted SEM_USED w.

(** The world after a [read_buffer] that took a word. *)
Definition got (w : world) : world :=
  let w := took SEM_USED w in
  let w := log (Load (read_idx (shm w)) (slot (data (shm w)) (read_idx (shm w))))
             (set_shm (set_read_idx (read_idx (shm w) + 1)) w) in
  let w := set_shm (λ m, set_read_idx (Z.rem (read_idx m) MAX_DATA) m) w in
  posted SEM_FREE w.

(** What reading and writing words leaves as it was. *)
Definition untouched (w w' : world) : Prop :=
  halt (shm w') = halt (shm w)
  ∧ raised w' = raised w
  ∧ sem_mutex w' = sem_mutex w
  ∧ errno w' = errno w
  ∧ quit w' = quit w
  ∧ faults w' = faults w
  ∧ fd_open w' = fd_open w
  ∧ mapped w' = mapped w
  ∧ shm_linked w' = shm_linked w
  ∧ (∀ s, linked (sem s w') = linked (sem s w))
  ∧ (∀ s, opened (sem s w') = opened (sem s w)).

(** A producer that submits the frames one after the other, as the loop of
    the generator does with the solutions it finds. *)
Fixpoint submit_frames (cbuff : circular_buffer_t) (frames : list (list Z))
  : M bool :=
  match frames with
  | [] => mret true
  | f :: fs =>
      ok ← add_solution cbuff f (length f);
      if (ok : bool) then submit_frames cbuff fs else mret false
  end.

(** The words of the frames as they go through the buffer: per frame the
    header, then the payload. *)
Definition wire (frames : list (list Z)) : list Z :=
  concat (map (λ f, Z.of_nat (length f) :: f) frames).

(** The buffer as [open_cbuff(true)] leaves it on a fresh system. *)
Definition ready : world :=
  match open_cbuff true boot with
  | Returns _ w => w
  | _ => boot
  end.

(** The frame of the scenario of the specification, and two environments
    for it: one in which the supervisor raises [halt] after two words, one
    in which the wait for the third slot is interrupted. *)
Definition scenario : list Z := [10; 20; 30; 5].

Definition ready_halting : world := set_raised [false; false; true] ready.

Definition ready_interrupted : world :=
  set_waits [Acquire; Acquire; Acquire; Fail EINTR] ready.

(** The supervisor waiting for a word on the empty buffer when SIGINT comes
    in, and a producer whose wait for the mutex is interrupted. *)
Definition ready_sigint : world := set_waits [Fail EINTR] ready.

(** A system on which an earlier run has left the name of the mutex
    semaphore behind, and one on which it has left that of [used]. *)
Definition stale_mutex : world :=
  set_sem SEM_MUTEX (λ _, Semaphore true 1 false) boot.

Definition stale_used : world :=
  set_sem SEM_USED (λ _, Semaphore true 0 false) boot.

(** A system on which the region exists already, with words in it, indexes
    that have moved and [halt] set; the semaphores do not exist. *)
Definition stale_region : world :=
  set_shm_linked true
    (set_shm (λ _, Shared true (<[0%nat := 7]> (data zero_region)) 5 2) boot).

(** A second supervisor starting while a first one runs: the system is as the
    first has set it up and a producer has filled it with one frame; the new
    process holds no handle yet. *)
Definition second_start : world :=
  match add_solution (CBuff SHM_FD) scenario 4 ready with
  | Returns _ w =>
      {| shm_linked := shm_linked w; shm := shm w;
         sem_free := set_opened false (sem_free w);
         sem_used := set_opened false (sem_used w);
         sem_mutex := set_opened false (sem_mutex w);
         fd_open := None; mapped := false; errno := E0; quit := false;
         faults := []; waits := []; raised := [];
         trace := []; out := [] |}
  | _ => boot
  end.

(** What a process still holds, and what the name space still contains. *)
Definition held (w : world) : list sem_name :=
  filter (λ s, opened (sem s w) = true) [SEM_FREE; SEM_USED; SEM_MUTEX].

Definition names (w : world) : list sem_name :=
  filter (λ s, linked (sem s w) = true) [SEM_FREE; SEM_USED; SEM_MUTEX].

(** A library call that always returns, with 0 or -1, leaves one event that
    tells which, and touches neither the region nor the output. *)
Definition attempts (c : syscall) (m : M Z) : Prop :=
  ∀ w, ∃ (ok : bool) (w' : world),
    m w = Returns (if ok then 0 else -1) w'
    ∧ trace w' = trace w ++ [Call c ok]
    ∧ shm w' = shm w
    ∧ out w' = out w.

(** The steps of [close_cbuff] on the semaphores and those of [close_shm]. *)
Definition semaphore_steps (server : bool) : list syscall :=
  (if server then [SEM_POST SEM_FREE; SEM_POST SEM_USED] else [])
  ++ [SEM_CLOSE SEM_FREE; SEM_CLOSE SEM_USED; SEM_CLOSE SEM_MUTEX]
  ++ (if server
      then [SEM_UNLINK SEM_FREE; SEM_UNLINK SEM_USED; SEM_UNLINK SEM_MUTEX]
      else []).

Definition region_steps (server : bool) : list syscall :=
  [MUNMAP; CLOSE] ++ (if server then [SHM_UNLINK] else []).

(** The buffer of a supervisor after somebody else has removed the name of
    the [free] semaphore. *)
Definition ready_unlinked : world := set_sem SEM_FREE (set_linked false) ready.

(** What [print_solution_string] prints for the words [vs], the first of
    them read in turn [i] of its loop. *)
Fixpoint edge_text (i : Z) (vs : list Z) : list output :=
  match vs with
  | [] => []
  | v :: vs' =>
      (if decide (Z.rem i 2 = 0) then OutFst v else OutSnd v)
      :: edge_text (i + 1) vs'
  end.

(** The buffer after a producer has put the frame of the scenario in. *)
Definition filled : world :=
  match add_solution (CBuff SHM_FD) scenario 4 ready with
  | Returns _ w => w
  | _ => boot
  end.

(** The buffer after a producer has submitted a frame without payload
    (header 0) and then the frame of the scenario. *)
Definition perfect : world :=
  match add_solution (CBuff SHM_FD) [] 0 ready with
  | Returns _ w =>
      match add_solution (CBuff SHM_FD) scenario 4 w with
      | Returns _ w' => w'
      | _ => boot
      end
  | _ => boot
  end.

(** A frame with the word -1 in its payload: the buffer after the frame has
    been put in, after the supervisor has read its header, and after
    [skip_solution] has been told to drop its four payload words. *)
Definition tainted : world :=
  match add_solution (CBuff SHM_FD) [7; -1; -1; 5] 4 ready with
  | Returns _ w => w
  | _ => boot
  end.

Definition tainted_payload : world :=
  match read_buffer (CBuff SHM_FD) tainted with
  | Returns _ w => w
  | _ => boot
  end.

Definition tainted_header : world :=
  match skip_solution (CBuff SHM_FD) 4 tainted_payload with
  | Returns _ w => w
  | _ => boot
  end.

(** ** What the processes share *)

(** What all processes see alike: the region and its name, and the names
    and counts of the semaphores. *)
Definition shared_same (w w' : world) : Prop :=
  shm w' = shm w
  ∧ shm_linked w' = shm_linked w
  ∧ ∀ s, linked (sem s w') = linked (sem s w)
         ∧ value (sem s w') = value (sem s w).

(** A process that has nothing open yet. *)
Definition holds_nothing (w : world) : Prop :=
  fd_open w = None ∧ mapped w = false ∧ ∀ s, opened (sem s w) = false.

(** A library call that always returns and leaves what is shared as it
    is. *)
Definition keeps_shared {A} (m : M A) : Prop :=
  ∀ w, ∃ (r : A) (w' : world), m w = Returns r w' ∧ shared_same w w'.

(** A library call that always returns and leaves the region and the counts
    of the semaphores as they are. *)
Definition keeps_counts {A} (m : M A) : Prop :=
  ∀ w, ∃ (r : A) (w' : world),
    m w = Returns r w'
    ∧ shm w' = shm w
    ∧ ∀ s, value (sem s w') = value (sem s w).

(** The buffer with 398 words unread and two slots free, the last two of the
    array. *)
Definition nearly_full : world :=
  set_sem SEM_FREE (set_value 2)
    (set_sem SEM_USED (set_value 398) (set_shm (set_write_idx 398) ready)).

(** ** A run of the supervisor: what it reports *)

(** What the loop of the supervisor prints for the frames it reads, with [m]
    the best so far (-1 before the first frame): a frame is printed when it
    deletes fewer edges than every frame before it. *)
Fixpoint report (m : Z) (frames : list (list Z)) : list output :=
  match frames with
  | [] => []
  | f :: fs =>
      let d := Z.quot (Z.of_nat (length f)) 2 in
      if decide (m = -1 ∨ d < m)
      then [OutSolution d] ++ edge_text 0 f ++ [OutNewline] ++ report d fs
      else report m fs
  end.

(** The best the loop is left with after these frames. *)
Fixpoint best (m : Z) (frames : list (list Z)) : Z :=
  match frames with
  | [] => m
  | f :: fs =>
      let d := Z.quot (Z.of_nat (length f)) 2 in
      best (if decide (m = -1 ∨ d < m) then d else m) fs
  end.

(** The numbers of deleted edges announced in what was printed. *)
Definition announced (o : list output) : list Z :=
  omap (λ x, match x with OutSolution n => Some n | _ => None end) o.

(** Each number is less than the one before it. *)
Fixpoint falling (l : list Z) : Prop :=
  match l with
  | a :: (b :: _) as t => b < a ∧ falling t
  | _ => True
  end.

(** A frame that deletes at least one edge and holds no word -1. *)
Definition proper_frame (f : list Z) : Prop :=
  (2 ≤ length f)%nat ∧ Forall (λ v, v ≠ -1) f.

(** The buffer after a producer has submitted three frames that delete two
    edges, two edges and one edge, and then a frame that deletes none. *)
Definition three_frames : list (list Z) := [[1; 2; 2; 3]; [3; 4; 4; 5]; [1; 5]].

Definition busy : world :=
  match submit_frames (CBuff SHM_FD) (three_frames ++ [[]]) ready with
  | Returns _ w => w
  | _ => boot
  end.

(** What neither writing to the queue nor reading from it changes: the
    output, [quit], the calls that will fail, the handles of the process and
    the names in the system. *)
Definition offstage (w w' : world) : Prop :=
  out w' = out w ∧ quit w' = quit w ∧ faults w' = faults w
  ∧ fd_open w' = fd_open w ∧ mapped w' = mapped w
  ∧ shm_linked w' = shm_linked w
  ∧ ∀ s, linked (sem s w') = linked (sem s w)
         ∧ opened (sem s w') = opened (sem s w).

(** The process that created the buffer and still has it open, on a system
    that lets every call through. *)
Definition owner (cbuff : circular_buffer_t) (w : world) : Prop :=
  faults w = [] ∧ fd_open w = Some (fd cbuff) ∧ shm_linked w = true.

(** ** graph.h, graph.c *)

Module Graph.

(** [node_t]; [color] is the [int] behind [color_e] ([red = 0], [green = 1],
    [blue = 2]). *)
Record node_t := Node { color : Z; id : Z }.

(** [edge_t]: [node1] and [node2] point into the array [nodes] of the graph;
    a pointer is the index of the node it refers to. *)
Record edge_t := Edge { node1 : nat; node2 : nat }.

(** [graph_t]: the two arrays; [node_count] and [edge_count] are their
    lengths. *)
Record graph_t := Graph { nodes : list node_t; edges : list edge_t }.

Definition node_count (graph : graph_t) : Z := Z.of_nat (length (nodes graph)).
Definition edge_count (graph : graph_t) : Z := Z.of_nat (length (edges graph)).

(** [++i] and [pos++] on an [int]: [None] is the undefined behaviour of an
    overflow. *)
Definition incr (i : Z) : option Z :=
  if decide (i = INT_MAX) then None else Some (i + 1).

(** The loop of [find_node_by_id] from counter [i] on, with [ns] the nodes
    from [nodes[i]] on.  [Some None] is [NULL]. *)
Fixpoint find_node_loop (ns : list node_t) (i : Z) (x : Z)
  : option (option nat) :=
  match ns with
  | [] => Some None
  | n :: ns' =>
      if decide (id n = x) then Some (Some (Z.to_nat i))
      else i' ← incr i; find_node_loop ns' i' x
  end.

(** [find_node_by_id(graph, id)] *)
Definition find_node_by_id (graph : graph_t) (x : Z) : option (option nat) :=
  find_node_loop (nodes graph) 0 x.

(** The loop of [color_randomly]; [rand k] is what the [k]-th call of
    [rand()] returns after the [srand] of [main], and the number of calls made
    so far is passed along. *)
Fixpoint color_loop (rand : nat → Z) (k : nat) (ns : list node_t) (i : Z)
  : option (list node_t * nat) :=
  match ns with
  | [] => Some ([], k)
  | n :: ns' =>
      let n' := Node (Z.rem (rand k) 3) (id n) in
      i' ← incr i;
      '(ns'', k') ← color_loop rand (S k) ns' i';
      Some (n' :: ns'', k')
  end.

(** [color_randomly(graph)] *)
Definition color_randomly (rand : nat → Z) (k : nat) (graph : graph_t)
  : option (graph_t * nat) :=
  '(ns, k') ← color_loop rand k (nodes graph) 0;
  Some (Graph ns (edges graph), k').

(** [buffer[pos] = v]: a write outside the array is undefined behaviour. *)
Definition store (buffer : list Z) (pos : Z) (v : Z) : option (list Z) :=
  if decide (0 ≤ pos < Z.of_nat (length buffer))
  then Some (<[Z.to_nat pos := v]> buffer) else None.

(** The loop of [get_deletion_edges] from counter [i] on, with [es] the edges
    from [edges[i]] on; following a pointer that is not into [nodes] is
    undefined behaviour.  [size] counts edges, of which there are at most as
    many as turns of the loop, so that the [long] does not overflow. *)
Fixpoint deletion_loop (ns : list node_t) (es : list edge_t) (i pos size : Z)
    (buffer : list Z) : option (Z * list Z) :=
  match es with
  | [] => Some (size, buffer)
  | e :: es' =>
      n1 ← ns !! node1 e;
      n2 ← ns !! node2 e;
      '(pos', size', buffer') ←
        (if decide (color n1 = color n2) then
           b1 ← store buffer pos (id n1);
           p1 ← incr pos;
           b2 ← store b1 p1 (id n2);
           p2 ← incr p1;
           Some (p2, size + 1, b2)
         else Some (pos, size, buffer));
      i' ← incr i;
      deletion_loop ns es' i' pos' size' buffer'
  end.

(** [get_deletion_edges(graph, buffer)]: the value returned and the array
    [buffer] as the call leaves it. *)
Definition get_deletion_edges (graph : graph_t) (buffer : list Z)
  : option (Z * list Z) :=
  deletion_loop (nodes graph) (edges graph) 0 0 0 buffer.

(** The loop of [copy] over the edges: the endpoints are looked up by their
    identifiers among the copied nodes.  [Some None] is the
    [exit(EXIT_FAILURE)] after "COPY ERROR". *)
Fixpoint copy_loop (old new : list node_t) (es : list edge_t) (i : Z)
  : option (option (list edge_t)) :=
  match es with
  | [] => Some (Some [])
  | e :: es' =>
      n1 ← old !! node1 e;
      p1 ← find_node_loop new 0 (id n1);
      n2 ← old !! node2 e;
      p2 ← find_node_loop new 0 (id n2);
      match p1, p2 with
      | Some q1, Some q2 =>
          i' ← incr i;
          r ← copy_loop old new es' i';
          Some (es'' ← r; Some (Edge q1 q2 :: es''))
      | _, _ => Some None
      end
  end.

(** [copy(graph)]; [memcpy] copies the nodes as they are. *)
Definition copy (graph : graph_t) : option (option graph_t) :=
  let new := nodes graph in
  r ← copy_loop (nodes graph) new (edges graph) 0;
  Some (es ← r; Some (Graph new es)).

(** *** What the functions are about *)

(** Every pointer of every edge is into the array of nodes. *)
Definition wired (graph : graph_t) : Prop :=
  Forall (λ e, (node1 e < length (nodes graph))%nat
               ∧ (node2 e < length (nodes graph))%nat) (edges graph).

(** No two nodes have the same identifier. *)
Definition distinct (graph : graph_t) : Prop := NoDup (map id (nodes graph)).

(** The colour of the node a pointer refers to. *)
Definition color_at (ns : list node_t) (p : nat) : option Z :=
  color <$> ns !! p.
Definition id_at (ns : list node_t) (p : nat) : option Z :=
  id <$> ns !! p.

(** The edges whose endpoints have the same colour. *)
Definition conflicts (ns : list node_t) (es : list edge_t) : list edge_t :=
  filter (λ e, color_at ns (node1 e) = color_at ns (node2 e)) es.

(** The identifiers of the endpoints of the edges, two per edge. *)
Definition flatten (ns : list node_t) (es : list edge_t) : list Z :=
  flat_map (λ e, [default 0 (id_at ns (node1 e)); default 0 (id_at ns (node2 e))])
           es.

(** The graph with the colours that [color_randomly] gives it when [k]
    numbers have been drawn before, and the frame a generator makes of it:
    the identifiers of the endpoints of the edges that have to go. *)
Definition painted (rand : nat → Z) (k : nat) (graph : graph_t) : graph_t :=
  Graph (imap (λ j n, Node (Z.rem (rand (k + j)%nat) 3) (id n)) (nodes graph))
        (edges graph).

Definition solution (graph : graph_t) : list Z :=
  flatten (nodes graph) (conflicts (nodes graph) (edges graph)).

(** A triangle with a fourth node hanging on it:
    0 - 1, 1 - 2, 2 - 0, 2 - 3. *)
Definition kite : graph_t :=
  Graph [Node 0 0; Node 0 1; Node 0 2; Node 0 3]
        [Edge 0 1; Edge 1 2; Edge 2 0; Edge 2 3].

End Graph.

(** ** generator.c *)

From Stdlib Require Ascii.

Module Generator.
Import Ascii.
Import Graph.

Definition MIN_BOUNDARY : Z := 8.
Definition LONG_MAX : Z := 2 ^ 63 - 1.
Definition LONG_MIN : Z := - 2 ^ 63.

(** The [fprintf(stderr, ...)] calls of the generator, one constructor per
    format string. *)
Inductive message :=
| Malformed       (* Error: Malformed string arguments. *)
| NotInteger      (* Error: NODE_ID was not an integer. *)
| NoEdge          (* Generator needs at least one edge. *)
| BadArguments    (* Error while parsing arguments. *)
| NoBuffer        (* Error opening Circular Buffer. *)
| NotClosed.      (* ERROR: Couldnt close circular buffer. *)

(** A C string without its terminating NUL; a pointer into it is an
    offset. *)
Definition cstring : Type := list ascii.

Definition code (c : ascii) : Z := Z.of_N (N_of_ascii c).

(** The delimiter ["-"] of the calls of [strtok]. *)
Definition is_delim (c : ascii) : bool := bool_decide (code c = 45).
(** [isspace] and [isdigit] of the C locale. *)
Definition isspace (c : ascii) : bool :=
  bool_decide (code c = 32 ∨ 9 ≤ code c ≤ 13).
Definition isdigit (c : ascii) : bool := bool_decide (48 ≤ code c ≤ 57).

(** The number of characters at the beginning of [s] that satisfy [f]. *)
Fixpoint span (f : ascii → bool) (s : cstring) : nat :=
  match s with
  | c :: s' => if f c then S (span f s') else O
  | [] => O
  end.

(** [strtok(_, "-")] on the string [s], from the offset [from]: 0 for a call
    with the string itself, the saved pointer for a call with [NULL].  The
    token is returned as its offset and its characters (a NUL is written
    over the delimiter that ends it), with the pointer saved for the next
    call; no token is [NULL]. *)
Definition strtok (s : cstring) (from : nat) : option (nat * cstring) * nat :=
  let start := (from + span is_delim (drop from s))%nat in
  let len := span (λ c, negb (is_delim c)) (drop start s) in
  if decide (len = O) then (None, start)
  else (Some (start, take len (drop start s)),
        if decide (start + len < length s)%nat then S (start + len)
        else (start + len)%nat).

(** The value of the decimal digits at the beginning of [s], after [acc]. *)
Fixpoint digits (acc : Z) (s : cstring) : Z :=
  match s with
  | c :: s' => if isdigit c then digits (acc * 10 + (code c - 48)) s' else acc
  | [] => acc
  end.

(** [strtol(t, &end, 10)]: the value and [end - t].  White space is skipped,
    a sign is taken, then the digits; without a digit nothing is converted
    and [end] is [t]; a value out of range is replaced by [LONG_MAX] or
    [LONG_MIN]. *)
Definition strtol (t : cstring) : Z * nat :=
  let ws := span isspace t in
  let t1 := drop ws t in
  let '(neg, sign) :=
    match t1 with
    | c :: _ =>
        if bool_decide (code c = 45) then (true, 1%nat)
        else if bool_decide (code c = 43) then (false, 1%nat)
        else (false, O)
    | [] => (false, O)
    end in
  let n := span isdigit (drop sign t1) in
  if decide (n = O) then (0, O)
  else
    let v := digits 0 (drop sign t1) in
    let v := if (neg : bool) then - v else v in
    (Z.max LONG_MIN (Z.min LONG_MAX v), (ws + sign + n)%nat).

(** [split_str(str)], with what it prints. *)
Definition split_str (s : cstring) (from : nat)
  : option (nat * cstring) * nat * list message :=
  match strtok s from with
  | (None, save) => (None, save, [Malformed])
  | (Some node, save) => (Some node, save, [])
  end.

(** [parse_numbers(str, arr)]: [Some (Some (a, b), _)] is [true] with
    [arr[0] = a] and [arr[1] = b], [Some (None, said)] is [false] after the
    messages [said], and [None] is the undefined behaviour of
    [strtol(NULL, ...)].  [str == buffer] compares the beginning of the
    argument with the place where the conversion stopped. *)
Definition parse_numbers (str : cstring)
  : option (option (Z * Z) * list message) :=
  let '(node, save, said) := split_str str 0 in
  match node with
  | None => Some (None, said)
  | Some (at1, token1) =>
      let '(val1, end1) := strtol token1 in
      if decide (at1 + end1 = 0)%nat then Some (None, [NotInteger])
      else
        let '(node, _, said) := split_str str save in
        match node with
        | None => None
        | Some (at2, token2) =>
            let '(val2, end2) := strtol token2 in
            if decide (at2 + end2 = 0)%nat then Some (None, [NotInteger])
            else Some (Some (val1, val2), [])
        end
  end.

(** The loop of [is_present] from counter [i] on, with [array] the elements
    from [array[i]] on. *)
Fixpoint is_present_loop (array : list Z) (i : Z) (search_for : Z)
  : option bool :=
  match array with
  | [] => Some false
  | v :: array' =>
      if decide (v = search_for) then Some true
      else i' ← incr i; is_present_loop array' i' search_for
  end.

(** [is_present(array, array_size, search_for)], [array_size] being the
    length of [array]. *)
Definition is_present (array : list Z) (search_for : Z) : option bool :=
  is_present_loop array 0 search_for.

(** How a function that may end the process comes out. *)
Inductive ending (A : Type) :=
| Goes (a : A)                             (* it returns *)
| Exits (status : Z) (said : list message) (* exit(status) *)
| Aborts                                   (* an assertion failed *)
| Crashes.                                 (* undefined behaviour *)
Arguments Goes {A} a.
Arguments Exits {A} status said.
Arguments Aborts {A}.
Arguments Crashes {A}.

(** [array[i] = v] on a local array. *)
Definition poke (array : list Z) (i : nat) (v : Z) : option (list Z) :=
  if decide (i < length array)%nat then Some (<[i := v]> array) else None.

(** [if (!is_present(node_ids_distinct, min_nodes, x))
       node_ids_distinct[distinct_idx++] = x;] *)
Definition note (node_ids_distinct : list Z) (distinct_idx : nat) (x : Z)
  : option (list Z * nat) :=
  p ← is_present node_ids_distinct x;
  if (p : bool) then Some (node_ids_distinct, distinct_idx)
  else d ← poke node_ids_distinct distinct_idx x; Some (d, S distinct_idx).

(** The first loop of [create_graph_from_args], over [argv[i]] and what
    follows it.  Its counter stays below [argc]. *)
Fixpoint parse_loop (argv : list cstring) (pos : nat)
    (node_ids node_ids_distinct : list Z) (distinct_idx : nat)
  : ending (list Z * list Z * nat) :=
  match argv with
  | [] => Goes (node_ids, node_ids_distinct, distinct_idx)
  | arg :: argv' =>
      match parse_numbers arg with
      | None => Crashes
      | Some (None, said) => Exits EXIT_FAILURE (said ++ [BadArguments])
      | Some (Some (node_id_1, node_id_2), _) =>
          match
            n1 ← poke node_ids pos node_id_1;
            n2 ← poke n1 (S pos) node_id_2;
            '(d1, k1) ← note node_ids_distinct distinct_idx node_id_1;
            '(d2, k2) ← note d1 k1 node_id_2;
            Some (n2, d2, k2)
          with
          | None => Crashes
          | Some (n2, d2, k2) => parse_loop argv' (pos + 2) n2 d2 k2
          end
      end
  end.

(** The last loop of [create_graph_from_args], over the pairs of [node_ids]
    from [node_ids[pos]] on.  Its counter stays below [argc]. *)
Fixpoint edge_loop (graph : graph_t) (node_ids : list Z)
  : ending (list edge_t) :=
  match node_ids with
  | x :: y :: node_ids' =>
      match find_node_by_id graph x, find_node_by_id graph y with
      | Some (Some node1), Some (Some node2) =>
          match edge_loop graph node_ids' with
          | Goes es => Goes (Edge node1 node2 :: es)
          | Exits status said => Exits status said
          | Aborts => Aborts
          | Crashes => Crashes
          end
      | Some _, Some _ => Aborts
      | _, _ => Crashes
      end
  | _ => Goes []
  end.

(** [create_graph_from_args(argc, argv)], with [argv] the arguments after
    the name of the program and [argc] one more than their number.
    [(argc - 1) * 2] is computed in [int].  The arrays [node_ids] and
    [node_ids_distinct] have [min_nodes] elements; those of [node_ids] are
    written before they are read, and [memset] makes those of
    [node_ids_distinct] -1.  [malloc] is taken to succeed. *)
Definition create_graph_from_args (argv : list cstring) : ending graph_t :=
  let argc := 1 + Z.of_nat (length argv) in
  if decide (argc ≤ 1) then Exits EXIT_FAILURE [NoEdge]
  else if decide (INT_MAX < (argc - 1) * 2) then Crashes
  else
    let min_nodes := Z.to_nat ((argc - 1) * 2) in
    let node_ids := replicate min_nodes 0 in
    let node_ids_distinct := replicate min_nodes (-1) in
    match parse_loop argv 0 node_ids node_ids_distinct 0 with
    | Goes (node_ids, node_ids_distinct, distinct_idx) =>
        let nodes := map (Node 0) (take distinct_idx node_ids_distinct) in
        match edge_loop (Graph nodes []) node_ids with
        | Goes es => Goes (Graph nodes es)
        | Exits status said => Exits status said
        | Aborts => Aborts
        | Crashes => Crashes
        end
    | Exits status said => Exits status said
    | Aborts => Aborts
    | Crashes => Crashes
    end.

(** How the generator ends: the exit status with what was written to
    stderr, or the abort of a failed assertion. *)
Inductive status := Exited (code : Z) (said : list message) | Aborted.

(** One turn of [while (!cbuff->shm->halt)] after the test: [false] is the
    [break].  The graph, the number of calls of [rand] and the array
    [buffer] are passed along. *)
Definition generator_turn (rand : nat → Z) (k : nat)
    (cbuff : circular_buffer_t) (graph : graph_t) (buffer : list Z)
  : M (bool * (graph_t * nat * list Z)) :=
  match color_randomly rand k graph with
  | None => undefined
  | Some (graph, k) =>
      match get_deletion_edges graph buffer with
      | None => undefined
      | Some (size, buffer) =>
          let edge_count := to_size_t size in
          if decide (edge_count > MIN_BOUNDARY) then
            mret (true, (graph, k, buffer))
          else
            ok ← add_solution cbuff buffer (Z.to_nat (to_size_t (edge_count * 2)));
            if negb ok then mret (false, (graph, k, buffer))
            else mret (true, (graph, k, buffer))
      end
  end.

(** [while (!cbuff->shm->halt) { ... }], at most [fuel] turns of it. *)
Fixpoint generator_loop (fuel : nat) (rand : nat → Z) (k : nat)
    (cbuff : circular_buffer_t) (graph : graph_t) (buffer : list Z) : M unit :=
  match fuel with
  | O => λ _, OutOfFuel
  | S fuel' =>
      h ← read_halt;
      if (h : bool) then mret tt
      else
        '(go_on, (graph, k, buffer)) ← generator_turn rand k cbuff graph buffer;
        if (go_on : bool) then generator_loop fuel' rand k cbuff graph buffer
        else mret tt
  end.

(** [main] of the generator.  [rand] stands for the sequence of numbers that
    follows the [srand] of the first lines; the elements of [buffer] are
    written before they are read. *)
Definition main (fuel : nat) (rand : nat → Z) (argv : list cstring) : M status :=
  match create_graph_from_args argv with
  | Crashes => undefined
  | Aborts => mret Aborted
  | Exits code said => mret (Exited code said)
  | Goes graph =>
      o ← open_cbuff false;
      match o with
      | None => mret (Exited EXIT_FAILURE [NoBuffer])
      | Some cbuff =>
          let buffer := replicate (Z.to_nat (to_size_t (edge_count graph * 2))) 0 in
          generator_loop fuel rand 0 cbuff graph buffer;;
          ok ← close_cbuff cbuff false;
          if negb ok then mret (Exited EXIT_FAILURE [NotClosed])
          else mret (Exited EXIT_SUCCESS [])
      end
  end.

(** *** Arguments to run the code on *)

Local Open Scope char_scope.

(** "0-1", "1-2", "2-0", "2-3": the kite. *)
Definition kite_args : list cstring :=
  [["0"; "-"; "1"]; ["1"; "-"; "2"]; ["2"; "-"; "0"]; ["2"; "-"; "3"]].

(** "12-7" *)
Definition arg_12_7 : cstring := ["1"; "2"; "-"; "7"].

(** The characters of a sequence of decimal digits. *)
Definition numeral (ds : list Z) : cstring :=
  map (λ d, ascii_of_N (Z.to_N (48 + d))) ds.

(** The number a sequence of decimal digits stands for. *)
Definition number (ds : list Z) : Z := fold_left (λ acc d, acc * 10 + d) ds 0.

(** The identifiers the arguments mention, each once, in the order in
    which they are first mentioned. *)
Definition seen (ids : list Z) (x : Z) : list Z :=
  if decide (x ∈ ids) then ids else ids ++ [x].

Definition first_seen (ids : list Z) (pairs : list (Z * Z)) : list Z :=
  fold_left (λ ids p, seen (seen ids p.1) p.2) pairs ids.

(** The pairs as they lie in [node_ids]. *)
Definition flat (pairs : list (Z * Z)) : list Z :=
  flat_map (λ p, [p.1; p.2]) pairs.

(** [parse_numbers] accepts the argument and reads the pair from it. *)
Definition reads (arg : cstring) (p : Z * Z) : Prop :=
  ∃ said, parse_numbers arg = Some (Some p, said).

End Generator.

(** * Properties *)

(** ** Arithmetic of the ring *)

Lemma rem_MAX_DATA (z : Z) : 0 ≤ z → Z.rem z MAX_DATA = z mod MAX_DATA.
Proof. intros Hz. apply Z.rem_mod_nonneg; unfold MAX_DATA; lia. Qed.

Lemma to_long_small (z : Z) : 0 ≤ z ≤ INT_MAX → to_long z = z.
Proof.
  unfold to_long, INT_MAX. intros Hz.
  rewrite Z.mod_small; lia.
Qed.

Lemma to_size_t_small (z : Z) : 0 ≤ z ≤ INT_MAX → to_size_t z = z.
Proof.
  unfold to_size_t, INT_MAX. intros Hz.
  rewrite Z.mod_small; lia.
Qed.

Lemma slot_insert (d : list Z) (j v : Z) :
  (Z.to_nat j < length d)%nat → slot (<[Z.to_nat j := v]> d) j = v.
Proof.
  intros Hj. unfold slot. by rewrite list_lookup_insert_eq.
Qed.

Lemma slot_insert_ne (d : list Z) (i j v : Z) :
  0 ≤ i → 0 ≤ j → i ≠ j → slot (<[Z.to_nat j := v]> d) i = slot d i.
Proof.
  intros Hi Hj Hne. unfold slot.
  rewrite list_lookup_insert_ne; [done | lia].
Qed.

Lemma window_length (d : list Z) (r : Z) (n : nat) : length (window d r n) = n.
Proof. unfold window. by rewrite length_map, length_seq. Qed.

Lemma window_snoc (d : list Z) (r : Z) (n : nat) :
  window d r (S n) = window d r n ++ [slot d ((r + Z.of_nat n) mod MAX_DATA)].
Proof.
  unfold window. rewrite seq_S, map_app. reflexivity.
Qed.

Lemma window_cons (d : list Z) (r : Z) (n : nat) :
  window d r (S n) = slot d (r mod MAX_DATA) :: window d ((r + 1) mod MAX_DATA) n.
Proof.
  unfold window. cbn [seq map]. f_equal.
  - by rewrite Z.add_0_r.
  - rewrite <- seq_shift, map_map. apply map_ext. intros k.
    f_equal. rewrite Zplus_mod_idemp_l. f_equal. lia.
Qed.

Lemma window_insert_outside (d : list Z) (r j v : Z) (n : nat) :
  0 ≤ j →
  (∀ k, (k < n)%nat → (r + Z.of_nat k) mod MAX_DATA ≠ j) →
  window (<[Z.to_nat j := v]> d) r n = window d r n.
Proof.
  intros Hj Hout. unfold window. apply map_ext_in. intros k Hk.
  apply in_seq in Hk. apply slot_insert_ne; [| done | apply Hout; lia].
  apply Z.mod_pos_bound. unfold MAX_DATA. lia.
Qed.

Lemma ring_slots_apart (r : Z) (k n : nat) :
  (k < n)%nat → Z.of_nat n < MAX_DATA →
  (r + Z.of_nat k) mod MAX_DATA ≠ (r + Z.of_nat n) mod MAX_DATA.
Proof.
  unfold MAX_DATA. intros Hk Hn Heq.
  pose proof (Z.div_mod (r + Z.of_nat k) 400 ltac:(lia)) as Ek.
  pose proof (Z.div_mod (r + Z.of_nat n) 400 ltac:(lia)) as En.
  rewrite Heq in Ek.
  assert (400 * ((r + Z.of_nat n) `div` 400 - (r + Z.of_nat k) `div` 400)
          = Z.of_nat n - Z.of_nat k) by lia.
  assert (0 < (r + Z.of_nat n) `div` 400 - (r + Z.of_nat k) `div` 400) by lia.
  lia.
Qed.

(** ** The library calls, step by step *)

Lemma sem_wait_acquire (s : sem_name) (w : world) :
  calm w → 0 < value (sem s w) → sem_wait s w = Returns 0 (took s w).
Proof.
  unfold calm, sem_wait, took. intros Hc Hv.
  destruct (waits w) as [|[|e] rest] eqn:Ew; cbn.
  - destruct s; cbn in *; case_decide; (done || lia).
  - destruct s; cbn in *; case_decide; (done || lia).
  - inversion Hc; discriminate.
Qed.

Lemma sem_wait_fail (s : sem_name) (e : errno_t) (rest : list wait_outcome) (w : world) :
  waits w = Fail e :: rest → sem_wait s w = Returns (-1) (refused s e w).
Proof.
  unfold sem_wait, refused. intros ->. reflexivity.
Qed.

Lemma sem_wait_inv (s : sem_name) (w w' : world) (r : Z) :
  sem_wait s w = Returns r w' →
  (r = 0 ∧ w' = took s w ∧ 0 < value (sem s w)) ∨
  (r = -1 ∧ ∃ e rest, waits w = Fail e :: rest ∧ w' = refused s e w).
Proof.
  unfold sem_wait, took, refused. intros H.
  destruct (waits w) as [|[|e] rest] eqn:Ew; cbn in H.
  - left. destruct s; cbn in *; case_decide; (done || by inversion H).
  - left. destruct s; cbn in *; case_decide; (done || by inversion H).
  - right. inversion H; subst. split; [done|]. by exists e, rest.
Qed.

Lemma store_data_inv (v : Z) (w : world) :
  store_data v w =
  if decide (0 ≤ write_idx (shm w) < MAX_DATA) then
    Returns tt (log (Store (write_idx (shm w)) v)
      (set_shm (λ m, set_data (<[Z.to_nat (write_idx (shm w)) := v]> (data m)) m) w))
  else Undefined.
Proof. reflexivity. Qed.

Lemma add_solution_loop_turn (edges : list Z) (size todo : nat) (i : Z) (w w' : world) :
  add_solution_loop edges size (S todo) i w = Returns true w' →
  ∃ v, frame_word edges size i = Some v
       ∧ halt (shm (interfere w)) = false
       ∧ 0 < value (sem_free w)
       ∧ 0 ≤ write_idx (shm w) < MAX_DATA
       ∧ i ≠ INT_MAX
       ∧ add_solution_loop edges size todo (i + 1) (put v w) = Returns true w'.
Proof.
  cbn [add_solution_loop]. unfold mbind, M_bind at 1. unfold read_halt.
  destruct (halt (shm (interfere w))) eqn:Eh.
  { cbn. discriminate. }
  unfold mbind, M_bind at 1.
  destruct (sem_wait SEM_FREE _) as [r w1| | |] eqn:Ew; try discriminate.
  apply sem_wait_inv in Ew as [(-> & -> & Hfree)|(-> & e & rest & _ & ->)].
  2: { cbn. discriminate. }
  case_decide; [done|].
  unfold mbind, M_bind at 1.
  assert (Hfw : ∀ o : outcome unit,
    (if decide (i = 0) then store_data (to_long (Z.of_nat size))
     else match edges !! Z.to_nat (i - 1) with
          | Some e => store_data e
          | None => undefined
          end) (took SEM_FREE (log (ReadHalt false) (interfere w))) = o →
    match o with
    | Returns _ w2 => ∃ v, frame_word edges size i = Some v
        ∧ 0 ≤ write_idx (shm w) < MAX_DATA
        ∧ w2 = log (Store (write_idx (shm w)) v)
             (set_shm (λ m, set_data (<[Z.to_nat (write_idx (shm w)) := v]> (data m)) m)
                (took SEM_FREE (log (ReadHalt false) (interfere w))))
    | Blocked _ | OutOfFuel => False
    | Undefined => True
    end).
  { intros o <-. unfold frame_word.
    assert (Hidx : write_idx (shm (took SEM_FREE (log (ReadHalt false) (interfere w))))
                   = write_idx (shm w)).
    { unfold interfere. destruct (raised w) as [|[] ?]; reflexivity. }
    destruct (decide (i = 0)).
    - rewrite store_data_inv, Hidx. case_decide; [|done].
      eexists; split; [done|]. split; [done|]. reflexivity.
    - destruct (edges !! Z.to_nat (i - 1)) as [e|]; [|done].
      rewrite store_data_inv, Hidx. case_decide; [|done].
      eexists; split; [done|]. split; [done|]. reflexivity. }
  specialize (Hfw _ eq_refl).
  match type of Hfw with
  | match ?o with _ => _ end => destruct o as [[] w2| | |]; try done
  end.
  destruct Hfw as (v & Hv & Hidx & ->).
  unfold mbind, M_bind at 1. unfold modify at 1.
  unfold mbind, M_bind at 1. unfold modify at 1.
  unfold mbind, M_bind at 1. unfold sem_post at 1, succeeded at 1.
  unfold mbind, M_bind at 1. unfold incr_int.
  case_decide; [done|].
  intros Hloop. exists v. repeat split; try done.
  - revert Hfree. unfold interfere. by destruct (raised w) as [|[] ?].
  - lia.
  - lia.
Qed.

(** What [interfere] leaves alone. *)
Lemma interfere_same (w : world) :
  shm_linked (interfere w) = shm_linked w
  ∧ data (shm (interfere w)) = data (shm w)
  ∧ write_idx (shm (interfere w)) = write_idx (shm w)
  ∧ read_idx (shm (interfere w)) = read_idx (shm w)
  ∧ (∀ s, sem s (interfere w) = sem s w)
  ∧ waits (interfere w) = waits w
  ∧ trace (interfere w) = trace w
  ∧ out (interfere w) = out w
  ∧ errno (interfere w) = errno w
  ∧ quit (interfere w) = quit w.
Proof.
  unfold interfere. destruct (raised w) as [|[] ?]; repeat split; by intros [].
Qed.

Lemma put_trace (v : Z) (w : world) :
  trace (put v w) =
  trace w ++ frame_events (write_idx (shm w)) [v].
Proof.
  destruct (interfere_same w) as (_ & _ & _ & _ & _ & _ & Ht & _).
  cbn. rewrite Ht, <- !app_assoc. reflexivity.
Qed.

Lemma put_write_idx (v : Z) (w : world) :
  0 ≤ write_idx (shm w) →
  write_idx (shm (put v w)) = (write_idx (shm w) + 1) mod MAX_DATA.
Proof.
  intros Hw. destruct (interfere_same w) as (_ & _ & Hi & _).
  cbn. rewrite Hi. apply rem_MAX_DATA. lia.
Qed.

(** A run of the loop of [add_solution] that returns [true]: the words
    written and the calls made. *)
Lemma add_solution_loop_true (edges : list Z) (size : nat) :
  ∀ (todo : nat) (i : Z) (w w' : world),
    add_solution_loop edges size todo i w = Returns true w' →
    ∃ ws : list Z,
      length ws = todo
      ∧ (∀ k, (k < todo)%nat → frame_word edges size (i + Z.of_nat k) = ws !! k)
      ∧ trace w' = trace w ++ frame_events (write_idx (shm w)) ws
                     ++ [Call (SEM_POST SEM_MUTEX) true]
      ∧ (0 ≤ write_idx (shm w) < MAX_DATA →
         write_idx (shm w') = (write_idx (shm w) + Z.of_nat todo) mod MAX_DATA)
      ∧ (0 ≤ i ≤ INT_MAX → i + Z.of_nat todo ≤ INT_MAX + 1).
Proof.
  induction todo as [|todo IH]; intros i w w' Hrun.
  - cbn in Hrun. inversion Hrun; subst; clear Hrun.
    exists []. cbn. repeat split; try lia.
    intros Hw. rewrite Z.add_0_r, Z.mod_small; done.
  - apply add_solution_loop_turn in Hrun
      as (v & Hv & _ & _ & Hidx & Hi & Hrun).
    apply IH in Hrun as (ws & Hlen & Hws & Htr & Hwr & Hmax).
    exists (v :: ws). split; [cbn; by rewrite Hlen|].
    split; [|split; [|split]].
    + intros [|k] Hk; cbn.
      * by rewrite Z.add_0_r.
      * rewrite <- Hws by lia. f_equal. lia.
    + rewrite Htr, put_trace, put_write_idx by lia.
      cbn. rewrite <- !app_assoc. reflexivity.
    + intros _. rewrite Hwr.
      * rewrite put_write_idx by lia. rewrite Zplus_mod_idemp_l. f_equal. lia.
      * rewrite put_write_idx by lia. apply Z.mod_pos_bound. unfold MAX_DATA; lia.
    + intros Hr. specialize (Hmax ltac:(lia)). lia.
Qed.

Lemma stored_app (t1 t2 : list event) : stored (t1 ++ t2) = stored t1 ++ stored t2.
Proof. apply omap_app. Qed.

Lemma loaded_app (t1 t2 : list event) : loaded (t1 ++ t2) = loaded t1 ++ loaded t2.
Proof. apply omap_app. Qed.

Lemma failures_app (t1 t2 : list event) :
  failures (t1 ++ t2) = failures t1 ++ failures t2.
Proof. apply omap_app. Qed.

Lemma count_ok_app (c : syscall) (t1 t2 : list event) :
  count_ok c (t1 ++ t2) = (count_ok c t1 + count_ok c t2)%nat.
Proof. unfold count_ok. by rewrite list.filter_app, length_app. Qed.

Lemma count_ok_other (c c' : syscall) (b : bool) :
  c ≠ c' → count_ok c [Call c' b] = O.
Proof.
  intros Hne. unfold count_ok.
  rewrite list.filter_cons_False; [done | congruence].
Qed.

Lemma stored_frame_events (ws : list Z) :
  ∀ idx, stored (frame_events idx ws) = ws.
Proof.
  induction ws as [|v ws IH]; intros idx; [done|].
  cbn [frame_events]. rewrite stored_app, IH. reflexivity.
Qed.

Lemma count_frame_events (ws : list Z) :
  ∀ idx,
    count_ok (SEM_WAIT SEM_FREE) (frame_events idx ws) = length ws
    ∧ count_ok (SEM_POST SEM_USED) (frame_events idx ws) = length ws
    ∧ failures (frame_events idx ws) = [].
Proof.
  induction ws as [|v ws IH]; intros idx; [done|].
  destruct (IH ((idx + 1) mod MAX_DATA)) as (IH1 & IH2 & IH3).
  cbn [frame_events]. rewrite !count_ok_app, failures_app, IH1, IH2, IH3.
  done.
Qed.

(** C2: a call of [add_solution] that returns [true] has made, between taking
    and releasing the mutex, exactly one wait on [free], one store and one
    post of [used] per word, for the header (the value of [size]) first and
    then each of the [size] payload words once and in order; [write_idx] has
    moved on by [1 + size] slots modulo 400. *)
Theorem add_solution_transacts (cbuff : circular_buffer_t) (edges : list Z)
    (size : nat) (w w' : world) :
  add_solution cbuff edges size w = Returns true w' →
  ∃ (payload : list Z) (evs : list event),
    payload = take size edges
    ∧ length payload = size
    ∧ trace w' = trace w ++ evs
    ∧ evs = [Call (SEM_WAIT SEM_MUTEX) true]
            ++ frame_events (write_idx (shm w)) (Z.of_nat size :: payload)
            ++ [Call (SEM_POST SEM_MUTEX) true]
    ∧ stored evs = Z.of_nat size :: payload
    ∧ count_ok (SEM_WAIT SEM_FREE) evs = S size
    ∧ count_ok (SEM_POST SEM_USED) evs = S size
    ∧ write_idx (shm w') = (write_idx (shm w) + (1 + Z.of_nat size)) mod MAX_DATA.
Proof.
  unfold add_solution. unfold mbind, M_bind at 1.
  destruct (sem_wait SEM_MUTEX w) as [r w1| | |] eqn:Ew; try discriminate.
  apply sem_wait_inv in Ew as [(-> & -> & Hmutex)|(-> & e & rest & _ & ->)].
  2: { cbn. discriminate. }
  case_decide; [done|]. intros Hrun.
  pose proof Hrun as Hturn.
  apply add_solution_loop_turn in Hturn as (_ & _ & _ & _ & Hidx & _).
  apply add_solution_loop_true in Hrun as (ws & Hlen & Hws & Htr & Hwr & Hmax).
  specialize (Hmax ltac:(unfold INT_MAX; lia)).
  destruct ws as [|v ws]; [done|].
  assert (v = Z.of_nat size) as ->.
  { specialize (Hws O ltac:(lia)). cbn in Hws. inversion Hws.
    apply to_long_small. lia. }
  assert (Hpay : ws = take size edges).
  { apply list_eq. intros j. destruct (decide (j < size)%nat) as [Hj|Hj].
    - rewrite lookup_take_lt by done.
      specialize (Hws (S j) ltac:(lia)).
      change ((Z.of_nat size :: ws) !! S j) with (ws !! j) in Hws.
      rewrite <- Hws. unfold frame_word. rewrite decide_False by lia.
      f_equal. lia.
    - rewrite lookup_take_ge by lia. apply lookup_ge_None_2.
      cbn in Hlen. lia. }
  cbn in Hlen.
  exists ws, ([Call (SEM_WAIT SEM_MUTEX) true]
              ++ frame_events (write_idx (shm w)) (Z.of_nat size :: ws)
              ++ [Call (SEM_POST SEM_MUTEX) true]).
  destruct (count_frame_events (Z.of_nat size :: ws) (write_idx (shm w)))
    as (Hc1 & Hc2 & _).
  split; [done|]. split; [lia|]. split.
  { rewrite Htr. cbn. rewrite <- !app_assoc. reflexivity. }
  split; [done|]. split.
  { rewrite !stored_app, stored_frame_events. cbn. by rewrite app_nil_r. }
  split.
  { rewrite !count_ok_app, Hc1, !count_ok_other by done. cbn. lia. }
  split.
  { rewrite !count_ok_app, Hc2, !count_ok_other by done. cbn. lia. }
  rewrite Hwr by exact Hidx. cbn. f_equal. lia.
Qed.

(** The scenario of the specification on the buffer as the supervisor has
    created it: six events for the mutex and the header, four per payload
    word; [write_idx] ends at 5. *)
Lemma add_solution_transacts_witness :
  ∃ (payload : list Z) (evs : list event),
    payload = take 4 scenario
    ∧ length payload = 4%nat
    ∧ trace filled = trace ready ++ evs
    ∧ evs = [Call (SEM_WAIT SEM_MUTEX) true]
            ++ frame_events (write_idx (shm ready)) (Z.of_nat 4 :: payload)
            ++ [Call (SEM_POST SEM_MUTEX) true]
    ∧ stored evs = Z.of_nat 4 :: payload
    ∧ count_ok (SEM_WAIT SEM_FREE) evs = 5%nat
    ∧ count_ok (SEM_POST SEM_USED) evs = 5%nat
    ∧ write_idx (shm filled) = (write_idx (shm ready) + (1 + Z.of_nat 4)) mod MAX_DATA.
Proof.
  apply (add_solution_transacts (CBuff SHM_FD) scenario 4 ready filled).
  vm_compute. reflexivity.
Defined.

(** ** Runs that nothing disturbs *)

Lemma interfere_unhalted (w : world) :
  unhalted w → halt (shm (interfere w)) = false ∧ unhalted (interfere w).
Proof.
  unfold unhalted, interfere. intros [Hh Hr].
  destruct (raised w) as [|b rest] eqn:Er.
  - rewrite Er. done.
  - inversion Hr as [|? ? Hb Hrest]; subst. done.
Qed.

Lemma add_solution_loop_go (edges : list Z) (size todo : nat) (i v : Z) (w : world) :
  calm w →
  halt (shm (interfere w)) = false →
  0 < value (sem_free w) →
  0 ≤ write_idx (shm w) < MAX_DATA →
  frame_word edges size i = Some v →
  i ≠ INT_MAX →
  add_solution_loop edges size (S todo) i w
  = add_solution_loop edges size todo (i + 1) (put v w).
Proof.
  intros Hcalm Hh Hfree Hidx Hv Hi.
  destruct (interfere_same w) as (_ & _ & Hwi & _ & Hsem & Hwaits & _).
  cbn [add_solution_loop]. unfold mbind, M_bind at 1. unfold read_halt.
  rewrite Hh.
  unfold mbind, M_bind at 1.
  rewrite sem_wait_acquire.
  2: { unfold calm. cbn. by rewrite Hwaits. }
  2: { pose proof (Hsem SEM_FREE) as Hsf. cbn in Hsf. cbn. by rewrite Hsf. }
  rewrite decide_False by done.
  unfold mbind, M_bind at 1.
  replace (if decide (i = 0) then store_data (to_long (Z.of_nat size))
           else match edges !! Z.to_nat (i - 1) with
                | Some e => store_data e
                | None => undefined
                end) with (store_data v).
  2: { unfold frame_word in Hv. case_decide; [by inversion Hv|by rewrite Hv]. }
  rewrite store_data_inv.
  replace (write_idx (shm (took SEM_FREE (log (ReadHalt false) (interfere w)))))
    with (write_idx (shm w)) by (cbn; by rewrite Hwi).
  rewrite decide_True by done.
  unfold mbind, M_bind at 1. unfold modify at 1.
  unfold mbind, M_bind at 1. unfold modify at 1.
  unfold mbind, M_bind at 1. unfold sem_post at 1, succeeded at 1.
  unfold mbind, M_bind at 1. unfold incr_int.
  rewrite decide_False by done.
  reflexivity.
Qed.

Lemma put_ring_ok (v : Z) (w : world) :
  ring_ok w → 0 < value (sem_free w) → ring_ok (put v w).
Proof.
  intros [Hlen Hrd Hu Hf Hsum Hwr] Hfree.
  destruct (interfere_same w) as (_ & Hd & Hwi & Hri & Hsem & _).
  pose proof (Hsem SEM_FREE) as Hsf. pose proof (Hsem SEM_USED) as Hsu.
  cbn in Hsf, Hsu.
  assert (Hrange : 0 ≤ write_idx (shm w) < MAX_DATA).
  { rewrite Hwr. apply Z.mod_pos_bound. unfold MAX_DATA. lia. }
  split; cbn; rewrite ?Hd, ?Hwi, ?Hri, ?Hsf, ?Hsu; try done; try lia.
  - by rewrite length_insert.
  - rewrite rem_MAX_DATA by lia. rewrite Hwr, Zplus_mod_idemp_l.
    f_equal. lia.
Qed.

Lemma put_pending (v : Z) (w : world) :
  ring_ok w → 0 < value (sem_free w) → pending (put v w) = pending w ++ [v].
Proof.
  intros [Hlen Hrd Hu Hf Hsum Hwr] Hfree.
  destruct (interfere_same w) as (_ & Hd & Hwi & Hri & Hsem & _).
  pose proof (Hsem SEM_USED) as Hsu. cbn in Hsu.
  assert (Hrange : 0 ≤ write_idx (shm w) < MAX_DATA).
  { rewrite Hwr. apply Z.mod_pos_bound. unfold MAX_DATA. lia. }
  unfold pending. cbn. rewrite Hd, Hri, Hsu.
  replace (Z.to_nat (value (sem_used w) + 1))
    with (S (Z.to_nat (value (sem_used w)))) by lia.
  rewrite window_snoc. f_equal.
  - apply window_insert_outside; [lia|].
    intros k Hk. rewrite Hwr.
    rewrite <- (Z2Nat.id (value (sem_used w))) by lia.
    apply ring_slots_apart; [lia|]. lia.
  - rewrite Z2Nat.id by lia. rewrite <- Hwr. f_equal.
    apply slot_insert. rewrite Hlen. unfold MAX_DATA in *. lia.
Qed.

Lemma put_sems (v : Z) (w : world) :
  calm w →
  calm (put v w)
  ∧ value (sem_free (put v w)) = value (sem_free w) - 1
  ∧ sem_mutex (put v w) = sem_mutex w.
Proof.
  intros Hcalm.
  destruct (interfere_same w) as (_ & _ & _ & _ & Hsem & Hwaits & _).
  pose proof (Hsem SEM_FREE) as Hsf. pose proof (Hsem SEM_MUTEX) as Hsm.
  cbn in Hsf, Hsm.
  unfold calm. cbn. rewrite Hwaits, Hsf, Hsm.
  split_and!; try done.
  unfold calm in Hcalm. destruct (waits w); [done|]. by inversion Hcalm.
Qed.

Lemma put_halt (v : Z) (w : world) :
  halt (shm (put v w)) = halt (shm (interfere w))
  ∧ raised (put v w) = raised (interfere w).
Proof. done. Qed.

Lemma put_unhalted (v : Z) (w : world) : unhalted w → unhalted (put v w).
Proof.
  intros Hun. destruct (interfere_unhalted w Hun) as [Hh [_ Hr]].
  unfold unhalted. destruct (put_halt v w) as [-> ->]. done.
Qed.

Lemma calm_tail (w : world) : calm w → Forall (eq Acquire) (tail (waits w)).
Proof.
  unfold calm. intros Hc. destruct (waits w); [done|]. by inversion Hc.
Qed.

Lemma add_solution_loop_calm (edges : list Z) (size : nat) :
  ∀ (todo : nat) (ws : list Z) (i : Z) (w : world),
    ring_ok w → calm w → unhalted w →
    Z.of_nat todo ≤ value (sem_free w) →
    length ws = todo →
    (∀ k, (k < todo)%nat → frame_word edges size (i + Z.of_nat k) = ws !! k) →
    0 ≤ i → i + Z.of_nat todo ≤ INT_MAX →
    ∃ w', add_solution_loop edges size todo i w = Returns true w'
          ∧ ring_ok w' ∧ calm w' ∧ unhalted w'
          ∧ pending w' = pending w ++ ws
          ∧ value (sem_mutex w') = value (sem_mutex w) + 1.
Proof.
  induction todo as [|todo IH]; intros ws i w Hok Hcalm Hun Hfree Hlen Hws Hi Hmax.
  - destruct ws; [|done]. exists (posted SEM_MUTEX w).
    split; [reflexivity|]. destruct Hok.
    split; [by split|]. rewrite app_nil_r. done.
  - destruct ws as [|v ws]; [done|].
    assert (Hfw : frame_word edges size i = Some v).
    { specialize (Hws O ltac:(lia)). by rewrite Z.add_0_r in Hws. }
    assert (Hidx : 0 ≤ write_idx (shm w) < MAX_DATA).
    { rewrite (ring_write _ Hok). apply Z.mod_pos_bound. unfold MAX_DATA. lia. }
    rewrite (add_solution_loop_go _ _ _ _ v)
      by (done || lia || apply (interfere_unhalted w Hun)).
    destruct (put_sems v w Hcalm) as (Hcalm' & Hfree' & Hmutex').
    pose proof (put_unhalted v w Hun) as Hun'.
    destruct (IH ws (i + 1) (put v w)) as (w' & Hrun & Hok' & Hc' & Hu' & Hp' & Hm').
    + apply put_ring_ok; [done | lia].
    + done.
    + done.
    + lia.
    + by inversion Hlen.
    + intros k Hk. specialize (Hws (S k) ltac:(lia)).
      change ((v :: ws) !! S k) with (ws !! k) in Hws. rewrite <- Hws.
      f_equal. lia.
    + lia.
    + lia.
    + exists w'. split_and!; try done.
      * rewrite Hp', put_pending by (done || lia). by rewrite <- app_assoc.
      * by rewrite Hm', Hmutex'.
Qed.

Lemma took_ring_ok (w : world) : ring_ok w → ring_ok (took SEM_MUTEX w).
Proof. intros []. by split. Qed.

(** An undisturbed [add_solution] with room for the whole frame appends the
    header and the payload to the queue. *)
Lemma add_solution_ok (cbuff : circular_buffer_t) (edges : list Z) (size : nat)
    (w : world) :
  ring_ok w → calm w → unhalted w →
  0 < value (sem_mutex w) →
  (size ≤ length edges)%nat →
  1 + Z.of_nat size ≤ value (sem_free w) →
  ∃ w', add_solution cbuff edges size w = Returns true w'
        ∧ ring_ok w' ∧ calm w' ∧ unhalted w'
        ∧ pending w' = pending w ++ Z.of_nat size :: take size edges
        ∧ value (sem_mutex w') = value (sem_mutex w).
Proof.
  intros Hok Hcalm Hun Hmutex Hsize Hfree.
  assert (Hbound : Z.of_nat size < MAX_DATA).
  { pose proof (ring_sum _ Hok). pose proof (ring_used _ Hok). lia. }
  unfold add_solution. unfold mbind, M_bind at 1.
  rewrite sem_wait_acquire by done.
  rewrite decide_False by done.
  destruct (add_solution_loop_calm edges size (S size)
              (Z.of_nat size :: take size edges) 0 (took SEM_MUTEX w))
    as (w' & Hrun & Hok' & Hc' & Hu' & Hp' & Hm').
  - by apply took_ring_ok.
  - apply calm_tail in Hcalm. exact Hcalm.
  - exact Hun.
  - cbn. lia.
  - cbn. rewrite length_take. lia.
  - intros [|k] Hk.
    + cbn. unfold frame_word. rewrite decide_True by done. f_equal.
      apply to_long_small. unfold MAX_DATA, INT_MAX in *. lia.
    + change ((Z.of_nat size :: take size edges) !! S k) with (take size edges !! k).
      rewrite lookup_take_lt by lia.
      unfold frame_word. rewrite decide_False by lia. f_equal. lia.
  - lia.
  - unfold MAX_DATA, INT_MAX in *. lia.
  - exists w'. split_and!; try done.
    rewrite Hm'. cbn. lia.
Qed.

(** ** Reading *)

Lemma load_data_inv (w : world) :
  load_data w =
  if decide (0 ≤ read_idx (shm w) < MAX_DATA) then
    Returns (slot (data (shm w)) (read_idx (shm w)))
      (log (Load (read_idx (shm w)) (slot (data (shm w)) (read_idx (shm w))))
           (set_shm (set_read_idx (read_idx (shm w) + 1)) w))
  else Undefined.
Proof. reflexivity. Qed.

Lemma read_buffer_go (cbuff : circular_buffer_t) (w : world) :
  calm w → 0 < value (sem_used w) → 0 ≤ read_idx (shm w) < MAX_DATA →
  read_buffer cbuff w = Returns (slot (data (shm w)) (read_idx (shm w))) (got w).
Proof.
  intros Hcalm Hused Hidx.
  unfold read_buffer. unfold mbind, M_bind at 1.
  rewrite sem_wait_acquire by done.
  rewrite decide_False by done.
  unfold mbind, M_bind at 1.
  rewrite load_data_inv.
  rewrite decide_True by done.
  reflexivity.
Qed.

Lemma read_buffer_refused (cbuff : circular_buffer_t) (e : errno_t)
    (rest : list wait_outcome) (w : world) :
  waits w = Fail e :: rest →
  read_buffer cbuff w = Returns (-1) (posted SEM_USED (refused SEM_USED e w)).
Proof.
  intros Hw. unfold read_buffer. unfold mbind, M_bind at 1.
  rewrite (sem_wait_fail _ e rest) by done.
  reflexivity.
Qed.

Lemma got_ring_ok (w : world) :
  ring_ok w → 0 < value (sem_used w) → ring_ok (got w).
Proof.
  intros [Hlen Hrd Hu Hf Hsum Hwr] Hused.
  split; cbn; try done; try lia.
  - rewrite rem_MAX_DATA by lia. apply Z.mod_pos_bound. unfold MAX_DATA. lia.
  - rewrite rem_MAX_DATA by lia. rewrite Hwr, Zplus_mod_idemp_l. f_equal. lia.
Qed.

Lemma got_pending (w : world) :
  ring_ok w → 0 < value (sem_used w) →
  pending w = slot (data (shm w)) (read_idx (shm w)) :: pending (got w).
Proof.
  intros [Hlen Hrd Hu Hf Hsum Hwr] Hused.
  unfold pending. cbn.
  replace (Z.to_nat (value (sem_used w)))
    with (S (Z.to_nat (value (sem_used w) - 1))) by lia.
  rewrite window_cons, rem_MAX_DATA by lia.
  rewrite (Z.mod_small (read_idx (shm w))) by done.
  reflexivity.
Qed.

Lemma got_same (w : world) :
  calm w →
  calm (got w)
  ∧ halt (shm (got w)) = halt (shm w)
  ∧ raised (got w) = raised w
  ∧ sem_mutex (got w) = sem_mutex w
  ∧ out (got w) = out w
  ∧ errno (got w) = errno w
  ∧ quit (got w) = quit w
  ∧ faults (got w) = faults w
  ∧ fd_open (got w) = fd_open w
  ∧ mapped (got w) = mapped w
  ∧ shm_linked (got w) = shm_linked w
  ∧ trace (got w)
    = trace w ++ read_events (read_idx (shm w))
                   [slot (data (shm w)) (read_idx (shm w))].
Proof.
  intros Hcalm. split_and!; try done.
  - by apply calm_tail.
  - cbn. by rewrite <- !app_assoc.
Qed.

(** Reading one word off a queue that is not empty. *)
Lemma read_buffer_ok (cbuff : circular_buffer_t) (v : Z) (q : list Z) (w : world) :
  ring_ok w → calm w → pending w = v :: q →
  read_buffer cbuff w = Returns v (got w)
  ∧ ring_ok (got w) ∧ pending (got w) = q.
Proof.
  intros Hok Hcalm Hp.
  assert (Hused : 0 < value (sem_used w)).
  { unfold pending in Hp. apply (f_equal length) in Hp.
    rewrite window_length in Hp. cbn in Hp. lia. }
  rewrite (got_pending w Hok Hused) in Hp. inversion Hp as [[Hv Hq]].
  rewrite read_buffer_go by (done || apply Hok).
  rewrite Hv, Hq. split_and!; try done. by apply got_ring_ok.
Qed.


Lemma untouched_refl (w : world) : untouched w w.
Proof. by unfold untouched. Qed.

Lemma untouched_trans (w1 w2 w3 : world) :
  untouched w1 w2 → untouched w2 w3 → untouched w1 w3.
Proof.
  unfold untouched.
  intros (H1 & H2 & H3 & H4 & H5 & H6 & H7 & H8 & H9 & H10 & H11)
         (G1 & G2 & G3 & G4 & G5 & G6 & G7 & G8 & G9 & G10 & G11).
  split_and!; congruence.
Qed.

Lemma got_untouched (w : world) : untouched w (got w).
Proof. unfold untouched. split_and!; try done; by intros []. Qed.

Lemma got_read_idx (w : world) :
  0 ≤ read_idx (shm w) →
  read_idx (shm (got w)) = (read_idx (shm w) + 1) mod MAX_DATA.
Proof. intros Hr. cbn. apply rem_MAX_DATA. lia. Qed.

(** [n] reads in a row take the first [n] words of the queue. *)
Lemma read_words_ok (cbuff : circular_buffer_t) (vs : list Z) :
  ∀ (q : list Z) (w : world),
    ring_ok w → calm w → pending w = vs ++ q →
    ∃ w', read_words cbuff (length vs) w = Returns vs w'
          ∧ ring_ok w' ∧ calm w' ∧ pending w' = q
          ∧ untouched w w' ∧ out w' = out w
          ∧ trace w' = trace w ++ read_events (read_idx (shm w)) vs.
Proof.
  induction vs as [|v vs IH]; intros q w Hok Hcalm Hp.
  - exists w. cbn. rewrite app_nil_r. split_and!; try done; apply untouched_refl.
  - destruct (read_buffer_ok cbuff v (vs ++ q) w Hok Hcalm Hp) as (Hrd & Hok' & Hp').
    destruct (got_same w Hcalm) as (Hc' & _ & _ & _ & Ho & _ & _ & _ & _ & _ & _ & Ht).
    destruct (IH q (got w) Hok' Hc' Hp') as (w' & Hrun & Hok2 & Hc2 & Hp2 & Hun & Hout & Htr).
    exists w'. cbn [read_words length]. unfold mbind, M_bind at 1. rewrite Hrd.
    unfold mbind, M_bind at 1. rewrite Hrun.
    split_and!; try done.
    + eapply untouched_trans; [apply got_untouched | done].
    + rewrite Htr, Ht, got_read_idx by apply Hok.
      assert (Hv : slot (data (shm w)) (read_idx (shm w)) = v).
      { pose proof (read_buffer_go cbuff w Hcalm) as Hgo.
        assert (Hused : 0 < value (sem_used w)).
        { unfold pending in Hp. apply (f_equal length) in Hp.
          rewrite window_length in Hp. cbn in Hp. lia. }
        rewrite Hgo in Hrd by (done || apply Hok). by inversion Hrd. }
      rewrite Hv. cbn. by rewrite <- !app_assoc.
Qed.

Lemma pending_length (w : world) :
  ring_ok w → Z.of_nat (length (pending w)) = value (sem_used w).
Proof.
  intros Hok. unfold pending. rewrite window_length.
  pose proof (ring_used _ Hok). lia.
Qed.

Lemma wire_cons (f : list Z) (fs : list (list Z)) :
  wire (f :: fs) = Z.of_nat (length f) :: f ++ wire fs.
Proof. reflexivity. Qed.

(** Frames submitted in a row are appended to the queue in order. *)
Lemma submit_frames_ok (cbuff : circular_buffer_t) (frames : list (list Z)) :
  ∀ w : world,
    ring_ok w → calm w → unhalted w →
    0 < value (sem_mutex w) →
    Z.of_nat (length (pending w) + length (wire frames)) ≤ MAX_DATA →
    ∃ w', submit_frames cbuff frames w = Returns true w'
          ∧ ring_ok w' ∧ calm w' ∧ unhalted w'
          ∧ pending w' = pending w ++ wire frames
          ∧ value (sem_mutex w') = value (sem_mutex w).
Proof.
  induction frames as [|f fs IH]; intros w Hok Hcalm Hun Hmutex Hroom.
  - exists w. cbn. rewrite app_nil_r. done.
  - rewrite wire_cons in Hroom. cbn [length] in Hroom. rewrite length_app in Hroom.
    pose proof (pending_length w Hok) as Hlen.
    pose proof (ring_sum _ Hok) as Hsum.
    destruct (add_solution_ok cbuff f (length f) w)
      as (w1 & Hrun & Hok1 & Hc1 & Hu1 & Hp1 & Hm1); try done; try lia.
    rewrite firstn_all in Hp1.
    destruct (IH w1) as (w' & Hrun' & Hok' & Hc' & Hu' & Hp' & Hm'); try done.
    + lia.
    + rewrite Hp1, length_app. cbn [length]. lia.
    + exists w'. cbn [submit_frames]. unfold mbind, M_bind at 1. rewrite Hrun.
      split_and!; try done.
      * rewrite Hp', Hp1, wire_cons, <- app_assoc. reflexivity.
      * lia.
Qed.





Lemma ready_eq : open_cbuff true boot = Returns (Some (CBuff SHM_FD)) ready.
Proof. vm_compute; reflexivity. Qed.

Lemma ready_ring_ok : ring_ok ready.
Proof. split; vm_compute; try reflexivity; try discriminate; split; (discriminate || reflexivity). Qed.

(** The same for any number of frames submitted in a row: the consumer reads
    them back with their headers, in the order of submission. *)
Theorem frames_round_trip (cbuff : circular_buffer_t) (frames : list (list Z))
    (w : world) :
  ring_ok w → calm w → unhalted w →
  0 < value (sem_mutex w) →
  Z.of_nat (length (pending w) + length (wire frames)) ≤ MAX_DATA →
  ∃ w1 w2,
    submit_frames cbuff frames w = Returns true w1
    ∧ read_words cbuff (length (pending w) + length (wire frames)) w1
      = Returns (pending w ++ wire frames) w2
    ∧ pending w2 = [].
Proof.
  intros Hok Hcalm Hun Hmutex Hroom.
  destruct (submit_frames_ok cbuff frames w)
    as (w1 & Hrun & Hok1 & Hc1 & Hu1 & Hp1 & Hm1); try done.
  destruct (read_words_ok cbuff (pending w ++ wire frames) [] w1)
    as (w2 & Hrd & Hok2 & Hc2 & Hp2 & _); try done.
  { by rewrite app_nil_r. }
  rewrite length_app in Hrd. by exists w1, w2.
Qed.

(** ** Halting *)

Lemma first_halt_now (w : world) :
  first_halt (halt (shm w)) (raised w) = Some O →
  halt (shm (interfere w)) = true.
Proof.
  unfold interfere.
  destruct (raised w) as [|[] r], (halt (shm w)) eqn:Eh; cbn; try done.
  by destruct (first_halt false r).
Qed.

Lemma first_halt_later (n : nat) (w : world) :
  first_halt (halt (shm w)) (raised w) = Some (S n) →
  halt (shm (interfere w)) = false
  ∧ first_halt (halt (shm (interfere w))) (raised (interfere w)) = Some n.
Proof.
  unfold interfere.
  destruct (raised w) as [|[] r], (halt (shm w)) eqn:Eh; cbn; try done.
  rewrite Eh. destruct (first_halt false r) eqn:Er; cbn; [|done].
  intros [= ->]. done.
Qed.

Lemma add_solution_loop_stop (edges : list Z) (size todo : nat) (i : Z) (w : world) :
  halt (shm (interfere w)) = true →
  add_solution_loop edges size (S todo) i w
  = Returns false (posted SEM_MUTEX (log (ReadHalt true) (interfere w))).
Proof.
  intros Hh. cbn [add_solution_loop]. unfold mbind, M_bind at 1.
  unfold read_halt. rewrite Hh. reflexivity.
Qed.

(** The loop of [add_solution] when check number [n] is the first to find
    [halt] set: [n] words are written, then the loop is left. *)
Lemma add_solution_loop_halt (edges : list Z) (size : nat) :
  ∀ (n : nat) (ws : list Z) (todo : nat) (i : Z) (w : world),
    first_halt (halt (shm w)) (raised w) = Some n →
    (n < todo)%nat →
    ring_ok w → calm w →
    Z.of_nat n ≤ value (sem_free w) →
    length ws = n →
    (∀ k, (k < n)%nat → frame_word edges size (i + Z.of_nat k) = ws !! k) →
    0 ≤ i → i + Z.of_nat n ≤ INT_MAX →
    ∃ w', add_solution_loop edges size todo i w = Returns false w'
          ∧ trace w' = trace w ++ frame_events (write_idx (shm w)) ws
                         ++ [ReadHalt true; Call (SEM_POST SEM_MUTEX) true]
          ∧ ring_ok w'
          ∧ pending w' = pending w ++ ws
          ∧ value (sem_mutex w') = value (sem_mutex w) + 1
          ∧ halt (shm w') = true.
Proof.
  induction n as [|n IH]; intros ws todo i w Hfirst Htodo Hok Hcalm Hfree Hlen Hws Hi Hmax.
  - destruct ws; [|done]. destruct todo as [|todo]; [lia|].
    apply first_halt_now in Hfirst.
    rewrite add_solution_loop_stop by done.
    destruct (interfere_same w) as (_ & Hd & Hwi & Hri & Hsem & _ & Ht & _).
    pose proof (Hsem SEM_FREE) as Hsf. pose proof (Hsem SEM_USED) as Hsu.
    pose proof (Hsem SEM_MUTEX) as Hsm. cbn in Hsf, Hsu, Hsm.
    eexists. split; [reflexivity|]. destruct Hok.
    split_and!.
    + cbn. rewrite Ht, <- app_assoc. reflexivity.
    + split; cbn; rewrite ?Hd, ?Hwi, ?Hri, ?Hsf, ?Hsu; done.
    + unfold pending. cbn. rewrite Hd, Hri, Hsu, app_nil_r. done.
    + cbn. by rewrite Hsm.
    + done.
  - destruct ws as [|v ws]; [done|]. destruct todo as [|todo]; [lia|].
    apply first_halt_later in Hfirst as [Hh Hfirst].
    assert (Hfw : frame_word edges size i = Some v).
    { specialize (Hws O ltac:(lia)). by rewrite Z.add_0_r in Hws. }
    assert (Hidx : 0 ≤ write_idx (shm w) < MAX_DATA).
    { rewrite (ring_write _ Hok). apply Z.mod_pos_bound. unfold MAX_DATA. lia. }
    rewrite (add_solution_loop_go _ _ _ _ v) by (done || lia).
    destruct (put_sems v w Hcalm) as (Hcalm' & Hfree' & Hmutex').
    destruct (put_halt v w) as [Hph Hpr].
    assert (H1 : first_halt (halt (shm (put v w))) (raised (put v w)) = Some n)
      by (by rewrite Hph, Hpr).
    assert (H2 : ring_ok (put v w)) by (apply put_ring_ok; [done | lia]).
    assert (H3 : ∀ k, (k < n)%nat →
                   frame_word edges size (i + 1 + Z.of_nat k) = ws !! k).
    { intros k Hk. specialize (Hws (S k) ltac:(lia)).
      change ((v :: ws) !! S k) with (ws !! k) in Hws. rewrite <- Hws.
      f_equal. lia. }
    destruct (IH ws todo (i + 1) (put v w) H1 ltac:(lia) H2 Hcalm' ltac:(lia)
                 ltac:(by inversion Hlen) H3 ltac:(lia) ltac:(lia))
      as (w' & Hrun & Htr & Hok' & Hp' & Hm' & Hh').
    exists w'. split_and!; try done.
    + rewrite Htr, put_trace, put_write_idx by lia.
      cbn. rewrite <- !app_assoc. reflexivity.
    + rewrite Hp', put_pending by (done || lia). by rewrite <- app_assoc.
    + by rewrite Hm', Hmutex'.
Qed.

Lemma add_solution_refused (cbuff : circular_buffer_t) (edges : list Z)
    (size : nat) (e : errno_t) (rest : list wait_outcome) (w : world) :
  waits w = Fail e :: rest →
  add_solution cbuff edges size w
  = Returns false (posted SEM_MUTEX (refused SEM_MUTEX e w)).
Proof.
  intros Hw. unfold add_solution. unfold mbind, M_bind at 1.
  rewrite (sem_wait_fail _ e rest) by done.
  reflexivity.
Qed.

(** C4, as the code has it: [halt] is looked at before each of the
    [1 + size] words.  When check number [n] (from 0) is the first to find it
    set, [add_solution] releases the mutex and returns [false] at once; the
    [n] words before the check, header first, have been written and nothing
    else, so nothing at all when [n = 0]; no call has failed.  The result is
    the [false] that a failed wait yields too: the value returned does not
    tell a stop from an error. *)
Theorem add_solution_halt (cbuff : circular_buffer_t) (edges : list Z)
    (size n : nat) (w : world) :
  first_halt (halt (shm w)) (raised w) = Some n →
  (n ≤ size)%nat → (size ≤ length edges)%nat →
  ring_ok w → calm w →
  0 < value (sem_mutex w) →
  Z.of_nat n ≤ value (sem_free w) →
  (∃ (w' : world) (evs : list event),
     add_solution cbuff edges size w = Returns false w'
     ∧ trace w' = trace w ++ evs
     ∧ evs = [Call (SEM_WAIT SEM_MUTEX) true]
             ++ frame_events (write_idx (shm w))
                  (take n (to_long (Z.of_nat size) :: edges))
             ++ [ReadHalt true; Call (SEM_POST SEM_MUTEX) true]
     ∧ stored evs = take n (to_long (Z.of_nat size) :: edges)
     ∧ failures evs = []
     ∧ pending w' = pending w ++ take n (to_long (Z.of_nat size) :: edges)
     ∧ value (sem_mutex w') = value (sem_mutex w))
  ∧ (∀ (e : errno_t) (rest : list wait_outcome) (w_err : world),
       waits w_err = Fail e :: rest →
       result (add_solution cbuff edges size w_err) = Some false).
Proof.
  intros Hfirst Hn Hsize Hok Hcalm Hmutex Hfree. split.
  2: { intros e rest w_err Hw. by rewrite (add_solution_refused _ _ _ e rest). }
  pose proof (ring_sum _ Hok) as Hsum. pose proof (ring_used _ Hok) as Hused.
  set (ws := take n (to_long (Z.of_nat size) :: edges)).
  assert (Hlen : length ws = n).
  { unfold ws. rewrite length_take. cbn [length]. lia. }
  unfold add_solution. unfold mbind, M_bind at 1.
  rewrite sem_wait_acquire by done.
  rewrite decide_False by done.
  destruct (add_solution_loop_halt edges size n ws (S size) 0 (took SEM_MUTEX w))
    as (w' & Hrun & Htr & Hok' & Hp' & Hm' & Hh'); try done.
  - lia.
  - by apply took_ring_ok.
  - by apply calm_tail in Hcalm.
  - intros k Hk. unfold ws. rewrite lookup_take_lt by done.
    destruct k as [|k]; [done|].
    change ((to_long (Z.of_nat size) :: edges) !! S k) with (edges !! k).
    unfold frame_word. rewrite decide_False by lia. f_equal. lia.
  - unfold MAX_DATA, INT_MAX in *. lia.
  - destruct (count_frame_events ws (write_idx (shm w))) as (_ & _ & Hf).
    exists w', ([Call (SEM_WAIT SEM_MUTEX) true]
                ++ frame_events (write_idx (shm w)) ws
                ++ [ReadHalt true; Call (SEM_POST SEM_MUTEX) true]).
    split_and!; try done.
    + rewrite Htr. cbn. rewrite <- !app_assoc. reflexivity.
    + rewrite !stored_app, stored_frame_events. cbn. by rewrite app_nil_r.
    + rewrite !failures_app, Hf. reflexivity.
    + rewrite Hm'. cbn. lia.
Qed.

(** On the scenario of the specification with [halt] raised after two words:
    the header and the first payload word are written, [false] comes back. *)
Lemma add_solution_halt_witness :
  (∃ (w' : world) (evs : list event),
     add_solution (CBuff SHM_FD) scenario 4 ready_halting = Returns false w'
     ∧ trace w' = trace ready_halting ++ evs
     ∧ evs = [Call (SEM_WAIT SEM_MUTEX) true]
             ++ frame_events (write_idx (shm ready_halting))
                  (take 2 (to_long (Z.of_nat 4) :: scenario))
             ++ [ReadHalt true; Call (SEM_POST SEM_MUTEX) true]
     ∧ stored evs = take 2 (to_long (Z.of_nat 4) :: scenario)
     ∧ failures evs = []
     ∧ pending w' = pending ready_halting
                    ++ take 2 (to_long (Z.of_nat 4) :: scenario)
     ∧ value (sem_mutex w') = value (sem_mutex ready_halting))
  ∧ (∀ (e : errno_t) (rest : list wait_outcome) (w_err : world),
       waits w_err = Fail e :: rest →
       result (add_solution (CBuff SHM_FD) scenario 4 w_err) = Some false).
Proof.
  apply (add_solution_halt (CBuff SHM_FD) scenario 4 2 ready_halting).
  - vm_compute. reflexivity.
  - lia.
  - vm_compute. lia.
  - split; vm_compute; try reflexivity; try discriminate;
      split; (discriminate || reflexivity).
  - constructor.
  - reflexivity.
  - vm_compute. discriminate.
Defined.

(** C4 as stated does not hold: the result of a call stopped by [halt] is not
    distinguished from that of a call that ran into an error.  On the same
    frame, a call that finds [halt] set after two words and a call whose wait
    for the third slot is interrupted both return [false]; no call of the
    first has failed, a [sem_wait] of the second has. *)
Lemma stop_looks_like_error :
  result (add_solution (CBuff SHM_FD) scenario 4 ready_halting)
  = result (add_solution (CBuff SHM_FD) scenario 4 ready_interrupted)
  ∧ result (add_solution (CBuff SHM_FD) scenario 4 ready_halting) = Some false
  ∧ (failures <$> (trace <$> final (add_solution (CBuff SHM_FD) scenario 4 ready_halting)))
    = Some []
  ∧ (failures <$> (trace <$> final (add_solution (CBuff SHM_FD) scenario 4 ready_interrupted)))
    = Some [SEM_WAIT SEM_FREE].
Proof. vm_compute. done. Qed.

(** ** The counts of the semaphores *)

(** A [read_buffer] whose wait fails posts [used] all the same: the count
    goes up by one although no word has been written. *)
Lemma read_buffer_refused_counts (cbuff : circular_buffer_t) (e : errno_t)
    (rest : list wait_outcome) (w : world) :
  ring_ok w → waits w = Fail e :: rest →
  ∃ w', read_buffer cbuff w = Returns (-1) w'
        ∧ value (sem_used w') = value (sem_used w) + 1
        ∧ value (sem_free w') = value (sem_free w)
        ∧ shm w' = shm w
        ∧ ¬ ring_ok w'.
Proof.
  intros Hok Hw. rewrite (read_buffer_refused _ e rest) by done.
  eexists. split; [reflexivity|].
  assert (Hfields :
    sem_used (posted SEM_USED (refused SEM_USED e w))
      = set_value (value (sem_used w) + 1) (sem_used w)
    ∧ sem_free (posted SEM_USED (refused SEM_USED e w)) = sem_free w
    ∧ shm (posted SEM_USED (refused SEM_USED e w)) = shm w).
  { unfold refused. by destruct (decide (e = EINTR)). }
  destruct Hfields as (Hu & Hf & Hs). rewrite Hu, Hf, Hs.
  split_and!; try done.
  intros Hbad. pose proof (ring_sum _ Hok). pose proof (ring_sum _ Hbad) as Hsum.
  rewrite Hu, Hf in Hsum. cbn in Hsum. lia.
Qed.

(** An [add_solution] whose wait for the mutex fails posts the mutex all the
    same: its count goes up by one. *)
Lemma add_solution_refused_mutex (cbuff : circular_buffer_t) (edges : list Z)
    (size : nat) (e : errno_t) (rest : list wait_outcome) (w : world) :
  waits w = Fail e :: rest →
  ∃ w', add_solution cbuff edges size w = Returns false w'
        ∧ value (sem_mutex w') = value (sem_mutex w) + 1.
Proof.
  intros Hw. rewrite (add_solution_refused _ _ _ e rest) by done.
  eexists. split; [reflexivity|].
  unfold refused. by destruct (decide (e = EINTR)).
Qed.

(** C3 fails on the error paths.  The supervisor waits on the empty buffer
    (used 0, free 400) and SIGINT interrupts the wait: [read_buffer] returns
    -1 and leaves used at 1 and free at 400, 401 together, with no word
    stored.  A producer whose wait for the mutex is interrupted leaves the
    count of the mutex at 2. *)
Theorem failed_wait_breaks_counts :
  (∃ w', read_buffer (CBuff SHM_FD) ready_sigint = Returns (-1) w'
         ∧ value (sem_used ready_sigint) = 0
         ∧ value (sem_free ready_sigint) = 400
         ∧ value (sem_used w') = 1
         ∧ value (sem_free w') = 400
         ∧ stored (trace w') = []
         ∧ pending ready_sigint = []
         ∧ ¬ ring_ok w')
  ∧ (∃ w', add_solution (CBuff SHM_FD) scenario 4 ready_sigint = Returns false w'
           ∧ value (sem_mutex ready_sigint) = 1
           ∧ value (sem_mutex w') = 2
           ∧ stored (trace w') = []).
Proof.
  split.
  - eexists. split; [vm_compute; reflexivity|].
    split_and!; try (vm_compute; reflexivity).
    intros Hbad. pose proof (ring_sum _ Hbad) as Hsum.
    vm_compute in Hsum. discriminate.
  - eexists. split; [vm_compute; reflexivity|].
    split_and!; vm_compute; reflexivity.
Qed.

(** ** Creation *)

(** C5 fails when the third semaphore cannot be opened.  On a system where
    only the name of the mutex semaphore exists, [open_cbuff(true)] creates
    the region, [free] and [used], fails on the mutex and returns [NULL]
    after closing and unlinking [free] twice: [used], which this call has
    created, is still in the name space and still open.  The path for a
    failure on [used] leaves nothing behind. *)
Theorem open_cbuff_leaks_used :
  (∃ w', open_cbuff true stale_mutex = Returns None w'
         ∧ names stale_mutex = [SEM_MUTEX]
         ∧ held stale_mutex = []
         ∧ calls (trace w')
           = [SHM_OPEN true; FTRUNCATE; MMAP;
              SEM_OPEN SEM_FREE true; SEM_OPEN SEM_USED true;
              SEM_OPEN SEM_MUTEX true;
              SEM_CLOSE SEM_FREE; SEM_UNLINK SEM_FREE;
              SEM_CLOSE SEM_FREE; SEM_UNLINK SEM_FREE;
              MUNMAP; CLOSE; SHM_UNLINK]
         ∧ failures (trace w')
           = [SEM_OPEN SEM_MUTEX true; SEM_CLOSE SEM_FREE; SEM_UNLINK SEM_FREE]
         ∧ names w' = [SEM_USED; SEM_MUTEX]
         ∧ held w' = [SEM_USED]
         ∧ shm_linked w' = false ∧ fd_open w' = None ∧ mapped w' = false)
  ∧ (∃ w', open_cbuff true stale_used = Returns None w'
           ∧ names stale_used = [SEM_USED]
           ∧ names w' = [SEM_USED]
           ∧ held w' = []
           ∧ shm_linked w' = false ∧ fd_open w' = None ∧ mapped w' = false).
Proof.
  split; eexists; (split; [vm_compute; reflexivity|]);
    split_and!; vm_compute; reflexivity.
Qed.

Lemma faulty_none (c : syscall) (w : world) : faults w = [] → faulty c w = false.
Proof.
  intros Hf. unfold faulty. rewrite Hf. apply bool_decide_eq_false.
  apply not_elem_of_nil.
Qed.

(** Whenever the region exists and no call is made to fail, [open_shm(true)]
    opens it and returns it with the indexes and [halt] set anew and the
    words as they were. *)
Lemma open_shm_existing (w : world) :
  shm_linked w = true → faults w = [] →
  ∃ w', open_shm true w = Returns (SHM_FD, true) w'
        ∧ shm w' = Shared false (data (shm w)) 0 0
        ∧ shm_linked w' = true
        ∧ trace w' = trace w ++ [Call (SHM_OPEN true) true; Call FTRUNCATE true;
                                 Call MMAP true].
Proof.
  intros Hl Hf. unfold open_shm.
  unfold mbind, M_bind at 1. unfold shm_open.
  rewrite faulty_none by exact Hf. rewrite Hl. unfold succeeded at 1.
  rewrite decide_False by done.
  unfold mbind, M_bind at 1. unfold ftruncate.
  rewrite faulty_none by exact Hf.
  rewrite decide_True by done. unfold succeeded at 1.
  rewrite decide_False by done.
  unfold mbind, M_bind at 1. unfold mmap.
  rewrite faulty_none by exact Hf.
  rewrite decide_True by done. unfold succeeded at 1.
  cbn [negb]. eexists. split; [reflexivity|].
  cbn. rewrite <- !app_assoc. done.
Qed.

(** C6 fails: [open_shm(true)] passes [O_CREAT] without [O_EXCL].  On a
    system where the region exists, it opens that region, returns it and
    sets the indexes and [halt] anew over the words that are there, and
    [open_cbuff(true)] succeeds.  When a first supervisor is running, with a
    frame of five words unread, a second one resets the indexes of the region
    in use and removes its name before it fails on the semaphores. *)
Theorem create_reuses_region :
  shm_linked stale_region = true
  ∧ shm stale_region = Shared true (<[0%nat := 7]> (data zero_region)) 5 2
  ∧ (∃ w', open_shm true stale_region = Returns (SHM_FD, true) w'
           ∧ failures (trace w') = []
           ∧ shm w' = Shared false (<[0%nat := 7]> (data zero_region)) 0 0)
  ∧ (∃ w', open_cbuff true stale_region = Returns (Some (CBuff SHM_FD)) w'
           ∧ failures (trace w') = [])
  ∧ (∃ w', open_cbuff true second_start = Returns None w'
           ∧ shm_linked second_start = true
           ∧ pending second_start = [4; 10; 20; 30; 5]
           ∧ write_idx (shm second_start) = 5
           ∧ failures (trace w') = [SEM_OPEN SEM_FREE true]
           ∧ write_idx (shm w') = 0
           ∧ value (sem_used w') = 5
           ∧ shm_linked w' = false).
Proof.
  split_and!; try (vm_compute; reflexivity);
    eexists; (split; [vm_compute; reflexivity|]);
    try split_and!; vm_compute; reflexivity.
Qed.

(** ** Teardown *)

Lemma munmap_attempts : attempts MUNMAP munmap.
Proof.
  intros w. unfold munmap. destruct (faulty MUNMAP w).
  - by exists false; eexists.
  - by exists true; eexists.
Qed.

Lemma close_attempts (fd : Z) : attempts CLOSE (close fd).
Proof.
  intros w. unfold close. destruct (faulty CLOSE w).
  - by exists false; eexists.
  - case_decide; [by exists true; eexists | by exists false; eexists].
Qed.

Lemma shm_unlink_attempts : attempts SHM_UNLINK shm_unlink.
Proof.
  intros w. unfold shm_unlink. destruct (faulty SHM_UNLINK w).
  - by exists false; eexists.
  - destruct (shm_linked w); [by exists true; eexists | by exists false; eexists].
Qed.

Lemma sem_close_attempts (s : sem_name) : attempts (SEM_CLOSE s) (sem_close s).
Proof.
  intros w. unfold sem_close. destruct (faulty (SEM_CLOSE s) w).
  - by exists false; eexists.
  - destruct (opened (sem s w)); [exists true | exists false];
      eexists; (split; [reflexivity|]); by destruct s.
Qed.

Lemma sem_unlink_attempts (s : sem_name) : attempts (SEM_UNLINK s) (sem_unlink s).
Proof.
  intros w. unfold sem_unlink. destruct (faulty (SEM_UNLINK s) w).
  - by exists false; eexists.
  - destruct (linked (sem s w)); [exists true | exists false];
      eexists; (split; [reflexivity|]); by destruct s.
Qed.

Lemma sem_post_attempts (s : sem_name) : attempts (SEM_POST s) (sem_post s).
Proof.
  intros w. exists true. eexists. split; [reflexivity|]. by destruct s.
Qed.

Lemma calls_app (t1 t2 : list event) : calls (t1 ++ t2) = calls t1 ++ calls t2.
Proof. apply omap_app. Qed.

(** [close_shm] makes each of its calls whatever the others return, and
    returns [false] exactly when one of them has failed. *)
Lemma close_shm_steps (fd : Z) (server : bool) (w : world) :
  ∃ (b : bool) (w' : world) (evs : list event),
    close_shm fd server w = Returns b w'
    ∧ trace w' = trace w ++ evs
    ∧ calls evs = region_steps server
    ∧ (b = false ↔ failures evs ≠ [])
    ∧ shm w' = shm w
    ∧ out w' = out w
    ∧ loaded evs = [].
Proof.
  unfold close_shm.
  destruct (munmap_attempts w) as (ok1 & w1 & E1 & T1 & S1 & O1).
  destruct (close_attempts fd w1) as (ok2 & w2 & E2 & T2 & S2 & O2).
  destruct (shm_unlink_attempts w2) as (ok3 & w3 & E3 & T3 & S3 & O3).
  unfold mbind, M_bind at 1. rewrite E1.
  unfold mbind, M_bind at 1. rewrite E2.
  destruct server.
  - unfold mbind, M_bind at 1. rewrite E3.
    eexists _, w3, [Call MUNMAP ok1; Call CLOSE ok2; Call SHM_UNLINK ok3].
    split; [reflexivity|]. split; [by rewrite T3, T2, T1, <- !app_assoc|].
    split; [done|]. split; [|split_and!; (congruence || done)].
    destruct ok1, ok2, ok3; cbn; split; done.
  - eexists _, w2, [Call MUNMAP ok1; Call CLOSE ok2].
    split; [reflexivity|]. split; [by rewrite T2, T1, <- !app_assoc|].
    split; [done|]. split; [|split_and!; (congruence || done)].
    destruct ok1, ok2; cbn; split; done.
Qed.

(** [close_cbuff] makes each of its calls whatever the others return; what it
    returns depends on those of [close_shm] alone. *)
Lemma close_cbuff_steps (cbuff : circular_buffer_t) (server : bool) (w : world) :
  ∃ (b : bool) (w' : world) (sem_evs shm_evs : list event),
    close_cbuff cbuff server w = Returns b w'
    ∧ trace w' = trace w ++ sem_evs ++ shm_evs
    ∧ calls sem_evs = semaphore_steps server
    ∧ calls shm_evs = region_steps server
    ∧ (b = false ↔ failures shm_evs ≠ [])
    ∧ shm w' = (if server then set_halt true (shm w) else shm w)
    ∧ out w' = out w
    ∧ loaded (sem_evs ++ shm_evs) = [].
Proof.
  unfold close_cbuff. destruct server.
  - destruct (sem_post_attempts SEM_FREE w) as (o1 & w1 & E1 & T1 & S1 & O1).
    destruct (sem_post_attempts SEM_USED w1) as (o2 & w2 & E2 & T2 & S2 & O2).
    set (w3 := set_shm (set_halt true) w2).
    destruct (sem_close_attempts SEM_FREE w3) as (o4 & w4 & E4 & T4 & S4 & O4).
    destruct (sem_close_attempts SEM_USED w4) as (o5 & w5 & E5 & T5 & S5 & O5).
    destruct (sem_close_attempts SEM_MUTEX w5) as (o6 & w6 & E6 & T6 & S6 & O6).
    destruct (sem_unlink_attempts SEM_FREE w6) as (o7 & w7 & E7 & T7 & S7 & O7).
    destruct (sem_unlink_attempts SEM_USED w7) as (o8 & w8 & E8 & T8 & S8 & O8).
    destruct (sem_unlink_attempts SEM_MUTEX w8) as (o9 & w9 & E9 & T9 & S9 & O9).
    destruct (close_shm_steps (fd cbuff) true w9)
      as (b & w' & evs & E & T & C & F & S & O & L).
    exists b, w',
      [Call (SEM_POST SEM_FREE) o1; Call (SEM_POST SEM_USED) o2;
       Call (SEM_CLOSE SEM_FREE) o4; Call (SEM_CLOSE SEM_USED) o5;
       Call (SEM_CLOSE SEM_MUTEX) o6; Call (SEM_UNLINK SEM_FREE) o7;
       Call (SEM_UNLINK SEM_USED) o8; Call (SEM_UNLINK SEM_MUTEX) o9], evs.
    split.
    { unfold mbind, M_bind. rewrite E1, E2. unfold modify. fold w3.
      rewrite E4, E5, E6, E7, E8, E9. unfold mret, M_ret. rewrite E.
      by destruct b. }
    split.
    { rewrite T, T9, T8, T7, T6, T5, T4. subst w3. cbn [trace set_shm].
      rewrite T2, T1, <- !app_assoc. reflexivity. }
    split; [done|]. split; [done|]. split; [done|]. split.
    { rewrite S, S9, S8, S7, S6, S5, S4. subst w3. cbn [shm set_shm].
      by rewrite S2, S1. }
    split.
    { rewrite O, O9, O8, O7, O6, O5, O4. subst w3. cbn [out set_shm].
      by rewrite O2, O1. }
    by rewrite loaded_app, L.
  - destruct (sem_close_attempts SEM_FREE w) as (o4 & w4 & E4 & T4 & S4 & O4).
    destruct (sem_close_attempts SEM_USED w4) as (o5 & w5 & E5 & T5 & S5 & O5).
    destruct (sem_close_attempts SEM_MUTEX w5) as (o6 & w6 & E6 & T6 & S6 & O6).
    destruct (close_shm_steps (fd cbuff) false w6)
      as (b & w' & evs & E & T & C & F & S & O & L).
    exists b, w',
      [Call (SEM_CLOSE SEM_FREE) o4; Call (SEM_CLOSE SEM_USED) o5;
       Call (SEM_CLOSE SEM_MUTEX) o6], evs.
    split.
    { unfold mbind, M_bind. unfold mret, M_ret. rewrite E4, E5, E6, E.
      by destruct b. }
    split.
    { rewrite T, T6, T5, T4, <- !app_assoc. reflexivity. }
    split; [done|]. split; [done|]. split; [done|].
    split; [congruence|]. split; [congruence|].
    by rewrite loaded_app, L.
Qed.

(** C7, as the code has it: [close_cbuff] and [close_shm] make every one of
    their calls, in order, whatever the earlier ones return: the posts (for
    the owner), the three [sem_close], the three [sem_unlink] (for the
    owner), [munmap], [close] and [shm_unlink] (for the owner).  [close_shm]
    returns [false] exactly when one of its calls has failed; [close_cbuff]
    returns [false] exactly when [munmap], [close] or [shm_unlink] has
    failed, for it does not look at what [sem_close] and [sem_unlink]
    return. *)
Theorem close_cbuff_best_effort (cbuff : circular_buffer_t) (server : bool)
    (w : world) :
  (∃ (b : bool) (w' : world) (sem_evs shm_evs : list event),
     close_cbuff cbuff server w = Returns b w'
     ∧ trace w' = trace w ++ sem_evs ++ shm_evs
     ∧ calls sem_evs = semaphore_steps server
     ∧ calls shm_evs = region_steps server
     ∧ (b = false ↔ failures shm_evs ≠ []))
  ∧ (∃ (b : bool) (w' : world) (evs : list event),
       close_shm (fd cbuff) server w = Returns b w'
       ∧ trace w' = trace w ++ evs
       ∧ calls evs = region_steps server
       ∧ (b = false ↔ failures evs ≠ [])).
Proof.
  split.
  - destruct (close_cbuff_steps cbuff server w)
      as (b & w' & e1 & e2 & E & T & C1 & C2 & F & _).
    by exists b, w', e1, e2.
  - destruct (close_shm_steps (fd cbuff) server w)
      as (b & w' & evs & E & T & C & F & _).
    by exists b, w', evs.
Qed.

(** C7 as stated does not hold for [close_cbuff]: when the name of the
    [free] semaphore is gone already, [sem_unlink] fails on it, every other
    step goes through, and the call returns [true]. *)
Lemma close_cbuff_hides_failure :
  result (close_cbuff (CBuff SHM_FD) true ready_unlinked) = Some true
  ∧ (failures <$> (trace <$> final (close_cbuff (CBuff SHM_FD) true ready_unlinked)))
    = Some [SEM_UNLINK SEM_FREE].
Proof. vm_compute. done. Qed.

(** ** Draining a frame *)

Lemma read_events_snoc_idx (w : world) (v : Z) (vs : list Z) :
  0 ≤ read_idx (shm w) →
  slot (data (shm w)) (read_idx (shm w)) = v →
  (trace w ++ read_events (read_idx (shm w)) [slot (data (shm w)) (read_idx (shm w))])
    ++ read_events (read_idx (shm (got w))) vs
  = trace w ++ read_events (read_idx (shm w)) (v :: vs).
Proof.
  intros Hr Hv. rewrite got_read_idx, Hv by done.
  cbn. by rewrite <- !app_assoc.
Qed.

Lemma pending_head (v : Z) (q : list Z) (w : world) :
  ring_ok w → pending w = v :: q →
  0 < value (sem_used w) ∧ slot (data (shm w)) (read_idx (shm w)) = v.
Proof.
  intros Hok Hp.
  assert (Hused : 0 < value (sem_used w)).
  { unfold pending in Hp. apply (f_equal length) in Hp.
    rewrite window_length in Hp. cbn in Hp. lia. }
  split; [done|]. rewrite (got_pending w Hok Hused) in Hp. by inversion Hp.
Qed.

(** [skip_solution] on words none of which is -1: all of them are read,
    nothing is printed. *)
Lemma skip_solution_loop_ok (cbuff : circular_buffer_t) (vs : list Z) :
  ∀ (q : list Z) (i : Z) (w : world),
    ring_ok w → calm w → pending w = vs ++ q →
    Forall (λ v, v ≠ -1) vs →
    0 ≤ i → i + Z.of_nat (length vs) ≤ INT_MAX →
    ∃ w', skip_solution_loop cbuff (length vs) i w = Returns tt w'
          ∧ ring_ok w' ∧ calm w' ∧ pending w' = q
          ∧ untouched w w' ∧ out w' = out w
          ∧ trace w' = trace w ++ read_events (read_idx (shm w)) vs.
Proof.
  induction vs as [|v vs IH]; intros q i w Hok Hcalm Hp Hvs Hi Hmax.
  - exists w. cbn. rewrite app_nil_r. split_and!; try done; apply untouched_refl.
  - inversion Hvs as [|? ? Hv Hrest]; subst.
    destruct (read_buffer_ok cbuff v (vs ++ q) w Hok Hcalm Hp) as (Hrd & Hok' & Hp').
    destruct (pending_head v (vs ++ q) w Hok Hp) as [_ Hslot].
    destruct (got_same w Hcalm) as (Hc' & _ & _ & _ & Ho & _ & _ & _ & _ & _ & _ & Ht).
    cbn [length] in Hmax.
    destruct (IH q (i + 1) (got w) Hok' Hc' Hp' Hrest ltac:(lia) ltac:(lia))
      as (w' & Hrun & Hok2 & Hc2 & Hp2 & Hun & Hout & Htr).
    exists w'. cbn [skip_solution_loop length]. unfold mbind, M_bind at 1.
    rewrite Hrd. rewrite decide_False by done.
    unfold mbind, M_bind at 1. unfold incr_int.
    rewrite decide_False by lia. unfold mret, M_ret. rewrite Hrun.
    split_and!; try done.
    + eapply untouched_trans; [apply got_untouched | done].
    + rewrite Htr, Ht. apply read_events_snoc_idx; [apply Hok | done].
Qed.

Lemma print_same (o : output) (w : world) :
  (ring_ok w → ring_ok (print o w))
  ∧ pending (print o w) = pending w
  ∧ (calm w → calm (print o w))
  ∧ untouched w (print o w)
  ∧ trace (print o w) = trace w
  ∧ out (print o w) = out w ++ [o]
  ∧ read_idx (shm (print o w)) = read_idx (shm w).
Proof.
  split_and!; try done. by intros [].
Qed.

(** [print_solution_string] on words none of which is -1: all of them are
    read and printed. *)
Lemma print_solution_loop_ok (cbuff : circular_buffer_t) (vs : list Z) :
  ∀ (q : list Z) (i : Z) (w : world),
    ring_ok w → calm w → pending w = vs ++ q →
    Forall (λ v, v ≠ -1) vs →
    0 ≤ i → i + Z.of_nat (length vs) ≤ INT_MAX →
    ∃ w', print_solution_loop cbuff (length vs) i w = Returns tt w'
          ∧ ring_ok w' ∧ calm w' ∧ pending w' = q
          ∧ untouched w w' ∧ out w' = out w ++ edge_text i vs
          ∧ trace w' = trace w ++ read_events (read_idx (shm w)) vs.
Proof.
  induction vs as [|v vs IH]; intros q i w Hok Hcalm Hp Hvs Hi Hmax.
  - exists w. cbn. rewrite !app_nil_r. split_and!; try done; apply untouched_refl.
  - inversion Hvs as [|? ? Hv Hrest]; subst.
    destruct (read_buffer_ok cbuff v (vs ++ q) w Hok Hcalm Hp) as (Hrd & Hok' & Hp').
    destruct (pending_head v (vs ++ q) w Hok Hp) as [_ Hslot].
    destruct (got_same w Hcalm) as (Hc' & _ & _ & _ & Ho & _ & _ & _ & _ & _ & _ & Ht).
    cbn [length] in Hmax.
    set (o := if decide (Z.rem i 2 = 0) then OutFst v else OutSnd v).
    destruct (print_same o (got w)) as (Hpok & Hpp & Hpc & Hpu & Hpt & Hpo & Hpr).
    assert (Hok1 : ring_ok (print o (got w))) by (by apply Hpok).
    assert (Hp1 : pending (print o (got w)) = vs ++ q) by (by rewrite Hpp).
    destruct (IH q (i + 1) (print o (got w)) Hok1 (Hpc Hc') Hp1 Hrest
                 ltac:(lia) ltac:(lia))
      as (w' & Hrun & Hok2 & Hc2 & Hp2 & Hun & Hout & Htr).
    exists w'. cbn [print_solution_loop length]. unfold mbind, M_bind at 1.
    rewrite Hrd. rewrite decide_False by done.
    unfold mbind, M_bind at 1.
    replace ((if decide (Z.rem i 2 = 0) then printf (OutFst v) else printf (OutSnd v))
               (got w)) with (Returns tt (print o (got w)) : outcome unit)
      by (unfold o; by case_decide).
    unfold mbind, M_bind at 1. unfold incr_int.
    rewrite decide_False by lia. unfold mret, M_ret. rewrite Hrun.
    split; [reflexivity|]. split; [exact Hok2|]. split; [exact Hc2|].
    split; [exact Hp2|]. split_and!.
    + eapply untouched_trans; [apply got_untouched |].
      eapply untouched_trans; [exact Hpu | exact Hun].
    + rewrite Hout, Hpo, Ho, <- app_assoc. reflexivity.
    + rewrite Htr, Hpt, Hpr, Ht.
      apply read_events_snoc_idx; [apply Hok | exact Hslot].
Qed.

(** ** The loop of the supervisor *)

Lemma loaded_read_events (ws : list Z) :
  ∀ idx, loaded (read_events idx ws) = ws.
Proof.
  induction ws as [|v ws IH]; intros idx; [done|].
  cbn [read_events]. rewrite loaded_app, IH. reflexivity.
Qed.

Lemma frame_bound (h : Z) (payload rest : list Z) (w : world) :
  ring_ok w → pending w = h :: payload ++ rest →
  Z.of_nat (length payload) < MAX_DATA.
Proof.
  intros Hok Hp. pose proof (pending_length w Hok) as Hlen.
  rewrite Hp in Hlen. cbn [length] in Hlen. rewrite length_app in Hlen.
  pose proof (ring_sum _ Hok). pose proof (ring_free _ Hok). lia.
Qed.

Lemma set_quit_same (b : bool) (w : world) :
  pending (set_quit b w) = pending w
  ∧ out (set_quit b w) = out w
  ∧ trace (set_quit b w) = trace w
  ∧ quit (set_quit b w) = b.
Proof. done. Qed.

(** C8: one turn of the loop of the supervisor on a frame (header [h], the
    number of its payload words, none of which is -1), with [m] the best
    seen so far, -1 before the first frame.  When the frame is the first or
    [h / 2] is less than [m], [h / 2] is the new best, and it is not
    negative, so that -1 stands for no frame at all.  Otherwise the best
    stays [m], the [h] payload words and no others are read, and nothing is
    printed. *)
Theorem supervisor_turn_frame (cbuff : circular_buffer_t) (m h : Z)
    (payload rest : list Z) (w : world) :
  ring_ok w → calm w →
  pending w = h :: payload ++ rest →
  h = Z.of_nat (length payload) →
  Forall (λ v, v ≠ -1) payload →
  m = -1 ∨ 0 ≤ m →
  (m = -1 ∨ Z.quot h 2 < m →
   ∃ w', supervisor_turn cbuff m w = Returns (Continue (Z.quot h 2)) w'
         ∧ 0 ≤ Z.quot h 2
         ∧ (Z.quot h 2 = 0 →
            out w' = out w ++ [OutColorable] ∧ quit w' = true
            ∧ pending w' = payload ++ rest
            ∧ loaded (trace w') = loaded (trace w) ++ [h])
         ∧ (Z.quot h 2 ≠ 0 →
            out w' = out w ++ [OutSolution (Z.quot h 2)]
                       ++ edge_text 0 payload ++ [OutNewline]
            ∧ quit w' = quit w
            ∧ pending w' = rest
            ∧ loaded (trace w') = loaded (trace w) ++ h :: payload))
  ∧ (¬ (m = -1 ∨ Z.quot h 2 < m) →
     ∃ w', supervisor_turn cbuff m w = Returns (Continue m) w'
           ∧ out w' = out w
           ∧ quit w' = quit w
           ∧ pending w' = rest
           ∧ trace w' = trace w ++ read_events (read_idx (shm w)) (h :: payload)
           ∧ loaded (trace w') = loaded (trace w) ++ h :: payload).
Proof.
  intros Hok Hcalm Hp Hh Hpay Hm.
  pose proof (frame_bound h payload rest w Hok Hp) as Hbound.
  assert (Hh0 : 0 ≤ h ≤ INT_MAX) by (unfold MAX_DATA, INT_MAX in *; lia).
  assert (Hq : 0 ≤ Z.quot h 2) by (apply Z.quot_pos; lia).
  assert (Hn : Z.to_nat (to_size_t h) = length payload).
  { rewrite to_size_t_small by done. lia. }
  destruct (read_buffer_ok cbuff h (payload ++ rest) w Hok Hcalm Hp)
    as (Hrd & Hok1 & Hp1).
  destruct (pending_head h (payload ++ rest) w Hok Hp) as [_ Hslot].
  destruct (got_same w Hcalm)
    as (Hc1 & _ & _ & _ & Ho1 & _ & Hq1 & _ & _ & _ & _ & Ht1).
  rewrite Hslot in Ht1.
  split; intros Hcase; unfold supervisor_turn; unfold mbind, M_bind at 1;
    rewrite Hrd; rewrite (decide_False (P := h = -1)) by lia.
  - rewrite decide_True by done.
    destruct (decide (Z.quot h 2 = 0)) as [Hzero|Hpos].
    + exists (set_quit true (print OutColorable (got w))).
      split; [reflexivity|]. split; [exact Hq|]. split; [|intros Hne; by destruct Hne].
      intros _.
      destruct (set_quit_same true (print OutColorable (got w)))
        as (Hsp & Hso & Hst & Hsq).
      destruct (print_same OutColorable (got w))
        as (_ & Hpp & _ & _ & Hpt & Hpo & _).
      split_and!.
      * by rewrite Hso, Hpo, Ho1.
      * exact Hsq.
      * by rewrite Hsp, Hpp.
      * rewrite Hst, Hpt, Ht1, loaded_app. reflexivity.
    + unfold mbind, M_bind at 1. unfold printf at 1, modify at 1.
      set (o := OutSolution (Z.quot h 2)).
      destruct (print_same o (got w)) as (Hpok & Hpp & Hpc & Hpu & Hpt & Hpo & Hpr).
      destruct (print_solution_loop_ok cbuff payload rest 0 (print o (got w))
                  (Hpok Hok1) (Hpc Hc1) ltac:(by rewrite Hpp) Hpay ltac:(lia)
                  ltac:(unfold INT_MAX, MAX_DATA in *; lia))
        as (w2 & Hrun & Hok2 & Hc2 & Hp2 & Hun2 & Hout2 & Htr2).
      unfold mbind, M_bind at 1. unfold print_solution_string.
      rewrite Hn, Hrun.
      exists (print OutNewline w2).
      split; [reflexivity|]. split; [exact Hq|]. split; [intros Hz; by destruct Hpos|].
      intros _. destruct (print_same OutNewline w2) as (_ & Hnp & _ & _ & Hnt & Hno & _).
      split_and!.
      * rewrite Hno, Hout2, Hpo, Ho1, <- !app_assoc. reflexivity.
      * destruct Hun2 as (_ & _ & _ & _ & Hquit & _). rewrite <- Hq1. exact Hquit.
      * by rewrite Hnp.
      * rewrite Hnt, Htr2, Hpt, Hpr, Ht1, <- app_assoc, loaded_app.
        f_equal. rewrite got_read_idx by apply Hok.
        apply (loaded_read_events (h :: payload)).
  - rewrite decide_False by done.
    destruct (skip_solution_loop_ok cbuff payload rest 0 (got w)
                Hok1 Hc1 Hp1 Hpay ltac:(lia)
                ltac:(unfold INT_MAX, MAX_DATA in *; lia))
      as (w2 & Hrun & Hok2 & Hc2 & Hp2 & Hun2 & Hout2 & Htr2).
    unfold mbind, M_bind at 1. unfold skip_solution. rewrite Hn, Hrun.
    exists w2. split; [reflexivity|].
    assert (Htr : trace w2 = trace w ++ read_events (read_idx (shm w)) (h :: payload)).
    { rewrite Htr2, Ht1, <- app_assoc. f_equal.
      rewrite got_read_idx by apply Hok. reflexivity. }
    split_and!.
    + by rewrite Hout2.
    + destruct Hun2 as (_ & _ & _ & _ & Hquit & _). rewrite <- Hq1. exact Hquit.
    + exact Hp2.
    + exact Htr.
    + rewrite Htr, loaded_app. f_equal. apply loaded_read_events.
Qed.

(** The skip path of the specification: the best so far is 1 and the frame
    of the scenario (header 4, two deletions) arrives; its four payload words
    are read and dropped, the best stays 1, nothing is printed. *)
Lemma supervisor_turn_frame_witness :
  (1 = -1 ∨ Z.quot 4 2 < 1 →
   ∃ w', supervisor_turn (CBuff SHM_FD) 1 filled = Returns (Continue (Z.quot 4 2)) w'
         ∧ 0 ≤ Z.quot 4 2
         ∧ (Z.quot 4 2 = 0 →
            out w' = out filled ++ [OutColorable] ∧ quit w' = true
            ∧ pending w' = scenario ++ []
            ∧ loaded (trace w') = loaded (trace filled) ++ [4])
         ∧ (Z.quot 4 2 ≠ 0 →
            out w' = out filled ++ [OutSolution (Z.quot 4 2)]
                       ++ edge_text 0 scenario ++ [OutNewline]
            ∧ quit w' = quit filled
            ∧ pending w' = []
            ∧ loaded (trace w') = loaded (trace filled) ++ 4 :: scenario))
  ∧ (¬ (1 = -1 ∨ Z.quot 4 2 < 1) →
     ∃ w', supervisor_turn (CBuff SHM_FD) 1 filled = Returns (Continue 1) w'
           ∧ out w' = out filled
           ∧ quit w' = quit filled
           ∧ pending w' = []
           ∧ trace w' = trace filled
                          ++ read_events (read_idx (shm filled)) (4 :: scenario)
           ∧ loaded (trace w') = loaded (trace filled) ++ 4 :: scenario).
Proof.
  apply (supervisor_turn_frame (CBuff SHM_FD) 1 4 scenario [] filled).
  - split; vm_compute; try reflexivity; try discriminate;
      split; (discriminate || reflexivity).
  - constructor.
  - vm_compute. reflexivity.
  - reflexivity.
  - repeat constructor; discriminate.
  - right. lia.
Defined.

(** C8 as stated does not hold for every frame.  The frame 4 | 7 -1 -1 5
    arrives when the best is 1: it deletes two edges, so the supervisor takes
    the skip path, and [skip_solution] returns at the first word -1 it reads.
    Of the four payload words two are read; the other two stay in the queue,
    where the next turn takes them for a header.  No call has failed. *)
Lemma skip_stops_inside_frame :
  pending tainted = [4; 7; -1; -1; 5]
  ∧ result (supervisor_turn (CBuff SHM_FD) 1 tainted) = Some (Continue 1)
  ∧ (loaded <$> (trace <$> final (supervisor_turn (CBuff SHM_FD) 1 tainted)))
    = Some (loaded (trace tainted) ++ [4; 7; -1])
  ∧ (pending <$> final (supervisor_turn (CBuff SHM_FD) 1 tainted))
    = Some [-1; 5]
  ∧ (failures <$> (trace <$> final (supervisor_turn (CBuff SHM_FD) 1 tainted)))
    = Some [].
Proof. vm_compute. done. Qed.

Lemma supervisor_shutdown_steps (cbuff : circular_buffer_t) (w : world) :
  ∃ (code : Z) (w' : world) (evs : list event),
    supervisor_shutdown cbuff w = Returns code w'
    ∧ trace w' = trace w ++ evs
    ∧ calls evs = semaphore_steps true ++ region_steps true
    ∧ loaded evs = []
    ∧ halt (shm w') = true
    ∧ (code = EXIT_SUCCESS ∧ out w' = out w
       ∨ code = EXIT_FAILURE ∧ out w' = out w ++ [ErrClose]).
Proof.
  unfold supervisor_shutdown.
  destruct (close_cbuff_steps cbuff true (set_shm (set_halt true) w))
    as (b & w' & e1 & e2 & E & T & C1 & C2 & F & S & O & L).
  unfold mbind, M_bind at 1. unfold modify at 1.
  unfold mbind, M_bind at 1. rewrite E.
  destruct b; cbn [negb].
  - exists EXIT_SUCCESS, w', (e1 ++ e2). split; [reflexivity|].
    split; [exact T|]. split; [by rewrite calls_app, C1, C2|].
    split; [exact L|]. split; [by rewrite S|]. left. split; [done|]. exact O.
  - exists EXIT_FAILURE, (print ErrClose w'), (e1 ++ e2). split; [reflexivity|].
    split; [exact T|]. split; [by rewrite calls_app, C1, C2|].
    split; [exact L|]. split; [cbn [shm print]; by rewrite S|].
    right. split; [done|]. cbn [out print]. by rewrite O.
Qed.

(** C9: when the supervisor, not yet told to quit, reads a header 0 as the
    first frame or with a best above 0, it prints that the graph is
    3-colorable and sets [quit]; the loop ends there, whatever else is in
    the buffer, and [main] goes on to set [halt] and close the buffer.  From
    that header to the end of the run no word is read any more. *)
Theorem zero_frame_ends_run (cbuff : circular_buffer_t) (m : Z)
    (rest : list Z) (fuel : nat) (w : world) :
  ring_ok w → calm w →
  quit w = false →
  pending w = 0 :: rest →
  m = -1 ∨ 0 < m →
  ∃ w1 : world,
    supervisor_loop (S (S fuel)) cbuff m w = Returns (Continue 0) w1
    ∧ out w1 = out w ++ [OutColorable]
    ∧ quit w1 = true
    ∧ pending w1 = rest
    ∧ trace w1 = trace w ++ read_events (read_idx (shm w)) [0]
    ∧ supervisor_run (S (S fuel)) cbuff m w = supervisor_shutdown cbuff w1
    ∧ ∃ (code : Z) (w2 : world),
        supervisor_run (S (S fuel)) cbuff m w = Returns code w2
        ∧ halt (shm w2) = true
        ∧ loaded (trace w2) = loaded (trace w) ++ [0]
        ∧ (code = EXIT_SUCCESS ∧ out w2 = out w1
           ∨ code = EXIT_FAILURE ∧ out w2 = out w1 ++ [ErrClose]).
Proof.
  intros Hok Hcalm Hquit Hp Hm.
  destruct (read_buffer_ok cbuff 0 rest w Hok Hcalm Hp) as (Hrd & Hok1 & Hp1).
  destruct (pending_head 0 rest w Hok Hp) as [_ Hslot].
  destruct (got_same w Hcalm)
    as (Hc1 & _ & _ & _ & Ho1 & _ & Hq1 & _ & _ & _ & _ & Ht1).
  rewrite Hslot in Ht1.
  set (w1 := set_quit true (print OutColorable (got w))).
  assert (Hturn : supervisor_turn cbuff m w = Returns (Continue 0) w1).
  { unfold supervisor_turn. unfold mbind, M_bind at 1. rewrite Hrd.
    rewrite (decide_False (P := 0 = -1)) by lia.
    change (Z.quot 0 2) with 0.
    rewrite decide_True by lia. rewrite decide_True by done.
    reflexivity. }
  assert (Hloop : supervisor_loop (S (S fuel)) cbuff m w = Returns (Continue 0) w1).
  { cbn [supervisor_loop]. unfold mbind, M_bind at 1. unfold get at 1.
    rewrite Hquit. unfold mbind, M_bind at 1. rewrite Hturn.
    reflexivity. }
  assert (Hrun : supervisor_run (S (S fuel)) cbuff m w = supervisor_shutdown cbuff w1).
  { unfold supervisor_run. unfold mbind, M_bind at 1. by rewrite Hloop. }
  destruct (set_quit_same true (print OutColorable (got w)))
    as (Hsp & Hso & Hst & Hsq).
  destruct (print_same OutColorable (got w)) as (_ & Hpp & _ & _ & Hpt & Hpo & _).
  assert (Htr : trace w1 = trace w ++ read_events (read_idx (shm w)) [0]).
  { subst w1. by rewrite Hst, Hpt, Ht1. }
  exists w1. split; [exact Hloop|].
  split; [subst w1; by rewrite Hso, Hpo, Ho1|].
  split; [exact Hsq|].
  split; [subst w1; by rewrite Hsp, Hpp|].
  split; [exact Htr|].
  split; [exact Hrun|].
  destruct (supervisor_shutdown_steps cbuff w1)
    as (code & w2 & evs & E & T & _ & L & Hh & Hout).
  exists code, w2. rewrite Hrun. split; [exact E|]. split; [exact Hh|].
  split; [|exact Hout].
  rewrite T, loaded_app, L, Htr, loaded_app, app_nil_r. reflexivity.
Qed.

(** On a buffer that holds a frame with header 0 and then the frame of the
    scenario: the first of them ends the run, the second is never read. *)
Lemma zero_frame_ends_run_witness :
  ∃ w1 : world,
    supervisor_loop 2 (CBuff SHM_FD) (-1) perfect = Returns (Continue 0) w1
    ∧ out w1 = out perfect ++ [OutColorable]
    ∧ quit w1 = true
    ∧ pending w1 = 4 :: scenario
    ∧ trace w1 = trace perfect ++ read_events (read_idx (shm perfect)) [0]
    ∧ supervisor_run 2 (CBuff SHM_FD) (-1) perfect
      = supervisor_shutdown (CBuff SHM_FD) w1
    ∧ ∃ (code : Z) (w2 : world),
        supervisor_run 2 (CBuff SHM_FD) (-1) perfect = Returns code w2
        ∧ halt (shm w2) = true
        ∧ loaded (trace w2) = loaded (trace perfect) ++ [0]
        ∧ (code = EXIT_SUCCESS ∧ out w2 = out w1
           ∨ code = EXIT_FAILURE ∧ out w2 = out w1 ++ [ErrClose]).
Proof.
  apply (zero_frame_ends_run (CBuff SHM_FD) (-1) (4 :: scenario) 0 perfect).
  - split; vm_compute; try reflexivity; try discriminate;
      split; (discriminate || reflexivity).
  - constructor.
  - reflexivity.
  - vm_compute. reflexivity.
  - left. reflexivity.
Defined.

(** ** The word -1 *)

Lemma failures_read_events (ws : list Z) :
  ∀ idx, failures (read_events idx ws) = [].
Proof.
  induction ws as [|v ws IH]; intros idx; [done|].
  cbn [read_events]. rewrite failures_app, IH. reflexivity.
Qed.

(** [skip_solution] told to drop more words than come before a word -1:
    it stops at that word. *)
Lemma skip_solution_loop_stops (cbuff : circular_buffer_t) (pre : list Z) :
  ∀ (post : list Z) (todo : nat) (i : Z) (w : world),
    ring_ok w → calm w → pending w = pre ++ -1 :: post →
    Forall (λ v, v ≠ -1) pre →
    (length pre < todo)%nat →
    0 ≤ i → i + Z.of_nat (length pre) ≤ INT_MAX →
    ∃ w', skip_solution_loop cbuff todo i w = Returns tt w'
          ∧ pending w' = post
          ∧ out w' = out w
          ∧ trace w' = trace w ++ read_events (read_idx (shm w)) (pre ++ [-1]).
Proof.
  induction pre as [|v pre IH]; intros post todo i w Hok Hcalm Hp Hpre Htodo Hi Hmax.
  - destruct todo as [|todo]; [cbn in Htodo; lia|].
    destruct (read_buffer_ok cbuff (-1) post w Hok Hcalm Hp) as (Hrd & Hok' & Hp').
    destruct (pending_head (-1) post w Hok Hp) as [_ Hslot].
    destruct (got_same w Hcalm) as (Hc' & _ & _ & _ & Ho & _ & _ & _ & _ & _ & _ & Ht).
    exists (got w). cbn [skip_solution_loop]. unfold mbind, M_bind at 1.
    rewrite Hrd. rewrite decide_True by done.
    split; [reflexivity|]. split; [exact Hp'|]. split; [exact Ho|].
    by rewrite Ht, Hslot.
  - destruct todo as [|todo]; [cbn in Htodo; lia|].
    inversion Hpre as [|? ? Hv Hrest]; subst.
    destruct (read_buffer_ok cbuff v (pre ++ -1 :: post) w Hok Hcalm Hp)
      as (Hrd & Hok' & Hp').
    destruct (pending_head v (pre ++ -1 :: post) w Hok Hp) as [_ Hslot].
    destruct (got_same w Hcalm) as (Hc' & _ & _ & _ & Ho & _ & _ & _ & _ & _ & _ & Ht).
    cbn [length] in Hmax, Htodo.
    destruct (IH post todo (i + 1) (got w) Hok' Hc' Hp' Hrest ltac:(lia)
                 ltac:(lia) ltac:(lia))
      as (w' & Hrun & Hp2 & Hout & Htr).
    exists w'. cbn [skip_solution_loop]. unfold mbind, M_bind at 1.
    rewrite Hrd. rewrite decide_False by done.
    unfold mbind, M_bind at 1. unfold incr_int.
    rewrite decide_False by lia. unfold mret, M_ret. rewrite Hrun.
    split; [reflexivity|]. split; [exact Hp2|]. split; [congruence|].
    rewrite Htr, Ht. apply read_events_snoc_idx; [apply Hok | exact Hslot].
Qed.

(** [print_solution_string] told to print more words than come before a
    word -1: it stops at that word and prints those before it. *)
Lemma print_solution_loop_stops (cbuff : circular_buffer_t) (pre : list Z) :
  ∀ (post : list Z) (todo : nat) (i : Z) (w : world),
    ring_ok w → calm w → pending w = pre ++ -1 :: post →
    Forall (λ v, v ≠ -1) pre →
    (length pre < todo)%nat →
    0 ≤ i → i + Z.of_nat (length pre) ≤ INT_MAX →
    ∃ w', print_solution_loop cbuff todo i w = Returns tt w'
          ∧ pending w' = post
          ∧ out w' = out w ++ edge_text i pre
          ∧ trace w' = trace w ++ read_events (read_idx (shm w)) (pre ++ [-1]).
Proof.
  induction pre as [|v pre IH]; intros post todo i w Hok Hcalm Hp Hpre Htodo Hi Hmax.
  - destruct todo as [|todo]; [cbn in Htodo; lia|].
    destruct (read_buffer_ok cbuff (-1) post w Hok Hcalm Hp) as (Hrd & Hok' & Hp').
    destruct (pending_head (-1) post w Hok Hp) as [_ Hslot].
    destruct (got_same w Hcalm) as (Hc' & _ & _ & _ & Ho & _ & _ & _ & _ & _ & _ & Ht).
    exists (got w). cbn [print_solution_loop]. unfold mbind, M_bind at 1.
    rewrite Hrd. rewrite decide_True by done.
    split; [reflexivity|]. split; [exact Hp'|].
    split; [cbn [edge_text]; by rewrite app_nil_r|].
    by rewrite Ht, Hslot.
  - destruct todo as [|todo]; [cbn in Htodo; lia|].
    inversion Hpre as [|? ? Hv Hrest]; subst.
    destruct (read_buffer_ok cbuff v (pre ++ -1 :: post) w Hok Hcalm Hp)
      as (Hrd & Hok' & Hp').
    destruct (pending_head v (pre ++ -1 :: post) w Hok Hp) as [_ Hslot].
    destruct (got_same w Hcalm) as (Hc' & _ & _ & _ & Ho & _ & _ & _ & _ & _ & _ & Ht).
    cbn [length] in Hmax, Htodo.
    set (o := if decide (Z.rem i 2 = 0) then OutFst v else OutSnd v).
    destruct (print_same o (got w)) as (Hpok & Hpp & Hpc & Hpu & Hpt & Hpo & Hpr).
    destruct (IH post todo (i + 1) (print o (got w)) (Hpok Hok') (Hpc Hc')
                 ltac:(by rewrite Hpp) Hrest ltac:(lia) ltac:(lia) ltac:(lia))
      as (w' & Hrun & Hp2 & Hout & Htr).
    exists w'. cbn [print_solution_loop]. unfold mbind, M_bind at 1.
    rewrite Hrd. rewrite decide_False by done.
    unfold mbind, M_bind at 1.
    replace ((if decide (Z.rem i 2 = 0) then printf (OutFst v) else printf (OutSnd v))
               (got w)) with (Returns tt (print o (got w)) : outcome unit)
      by (unfold o; by case_decide).
    unfold mbind, M_bind at 1. unfold incr_int.
    rewrite decide_False by lia. unfold mret, M_ret. rewrite Hrun.
    split; [reflexivity|]. split; [exact Hp2|]. split.
    + rewrite Hout, Hpo, Ho, <- app_assoc. reflexivity.
    + rewrite Htr, Hpt, Hpr, Ht.
      apply read_events_snoc_idx; [apply Hok | exact Hslot].
Qed.

(** C10: [read_buffer] returns -1 when its wait fails, and -1 is a word the
    buffer can hold.  With a word -1 in the queue after the words [pre] and
    no wait failing, [skip_solution] and [print_solution_string], told to
    take more than [pre], stop at that word and leave the rest of the frame
    in the buffer; and when the supervisor reads -1 where it expects a
    header, it closes the buffer and leaves with [EXIT_FAILURE] (or, with
    [EINTR] left in [errno], goes on to the next turn) although every
    semaphore operation has gone through. *)
Theorem minus_one_is_failure (cbuff : circular_buffer_t) (pre post q : list Z)
    (n : nat) (m : Z) (w wh : world) :
  ring_ok w → calm w →
  pending w = pre ++ -1 :: post →
  Forall (λ v, v ≠ -1) pre →
  (length pre < n)%nat → Z.of_nat n ≤ INT_MAX →
  ring_ok wh → calm wh →
  pending wh = -1 :: q →
  (∀ (e : errno_t) (rest : list wait_outcome) (w_err : world),
     waits w_err = Fail e :: rest →
     result (read_buffer cbuff w_err) = Some (-1))
  ∧ (∃ w1, skip_solution cbuff (Z.of_nat n) w = Returns tt w1
           ∧ pending w1 = post
           ∧ trace w1 = trace w ++ read_events (read_idx (shm w)) (pre ++ [-1])
           ∧ failures (trace w1) = failures (trace w))
  ∧ (∃ w2, print_solution_string cbuff (Z.of_nat n) w = Returns tt w2
           ∧ pending w2 = post
           ∧ out w2 = out w ++ edge_text 0 pre
           ∧ failures (trace w2) = failures (trace w))
  ∧ (errno wh ≠ EINTR →
     ∃ (w3 : world) (sem_evs shm_evs : list event),
       supervisor_turn cbuff m wh = Returns (Exit EXIT_FAILURE) w3
       ∧ trace w3 = trace wh ++ read_events (read_idx (shm wh)) [-1]
                      ++ sem_evs ++ shm_evs
       ∧ calls sem_evs = semaphore_steps false
       ∧ calls shm_evs = region_steps false
       ∧ (out w3 = out wh ++ [ErrInterrupt] ∨ out w3 = out wh ++ [ErrClose]))
  ∧ (errno wh = EINTR →
     ∃ w3, supervisor_turn cbuff m wh = Returns (Continue m) w3
           ∧ pending w3 = q
           ∧ failures (trace w3) = failures (trace wh)).
Proof.
  intros Hok Hcalm Hp Hpre Hn Hmax Hokh Hcalmh Hph.
  split; [|split; [|split; [|split]]].
  - intros e rest w_err Hw. by rewrite (read_buffer_refused _ e rest).
  - destruct (skip_solution_loop_stops cbuff pre post n 0 w Hok Hcalm Hp Hpre
                Hn ltac:(lia) ltac:(lia))
      as (w1 & Hrun & Hp1 & Hout & Htr).
    exists w1. unfold skip_solution. rewrite Nat2Z.id.
    split; [exact Hrun|]. split; [exact Hp1|]. split; [exact Htr|].
    by rewrite Htr, failures_app, failures_read_events, app_nil_r.
  - destruct (print_solution_loop_stops cbuff pre post n 0 w Hok Hcalm Hp Hpre
                Hn ltac:(lia) ltac:(lia))
      as (w2 & Hrun & Hp2 & Hout & Htr).
    exists w2. unfold print_solution_string. rewrite Nat2Z.id.
    split; [exact Hrun|]. split; [exact Hp2|]. split; [exact Hout|].
    by rewrite Htr, failures_app, failures_read_events, app_nil_r.
  - intros Herrno.
    destruct (read_buffer_ok cbuff (-1) q wh Hokh Hcalmh Hph) as (Hrd & Hok1 & Hp1).
    destruct (pending_head (-1) q wh Hokh Hph) as [_ Hslot].
    destruct (got_same wh Hcalmh)
      as (Hc1 & _ & _ & _ & Ho1 & He1 & _ & _ & _ & _ & _ & Ht1).
    rewrite Hslot in Ht1.
    destruct (close_cbuff_steps cbuff false (got wh))
      as (b & w' & e1 & e2 & E & T & C1 & C2 & F & S & O & L).
    unfold supervisor_turn. unfold mbind, M_bind at 1. rewrite Hrd.
    rewrite decide_True by done.
    unfold mbind, M_bind at 1. unfold get at 1. rewrite He1.
    rewrite decide_False by done.
    unfold mbind, M_bind at 1. rewrite E.
    destruct b; cbn [negb].
    + exists (print ErrInterrupt w'), e1, e2. split; [reflexivity|].
      split; [cbn [trace print]; by rewrite T, Ht1, <- !app_assoc|].
      split; [exact C1|]. split; [exact C2|].
      left. cbn [out print]. by rewrite O, Ho1.
    + exists (print ErrClose w'), e1, e2. split; [reflexivity|].
      split; [cbn [trace print]; by rewrite T, Ht1, <- !app_assoc|].
      split; [exact C1|]. split; [exact C2|].
      right. cbn [out print]. by rewrite O, Ho1.
  - intros Herrno.
    destruct (read_buffer_ok cbuff (-1) q wh Hokh Hcalmh Hph) as (Hrd & Hok1 & Hp1).
    destruct (pending_head (-1) q wh Hokh Hph) as [_ Hslot].
    destruct (got_same wh Hcalmh)
      as (Hc1 & _ & _ & _ & Ho1 & He1 & _ & _ & _ & _ & _ & Ht1).
    rewrite Hslot in Ht1.
    exists (got wh).
    unfold supervisor_turn. unfold mbind, M_bind at 1. rewrite Hrd.
    rewrite decide_True by done.
    unfold mbind, M_bind at 1. unfold get at 1. rewrite He1.
    rewrite decide_True by done.
    split; [reflexivity|]. split; [exact Hp1|].
    by rewrite Ht1, failures_app, failures_read_events, app_nil_r.
Qed.

(** On the frame 4 | 7 | -1 | -1 | 5: after its header, [skip_solution] and
    [print_solution_string] stop at the first -1 and leave -1, 5 behind;
    the supervisor then takes that -1 for a failed read and leaves. *)
Lemma minus_one_is_failure_witness :
  (∀ (e : errno_t) (rest : list wait_outcome) (w_err : world),
     waits w_err = Fail e :: rest →
     result (read_buffer (CBuff SHM_FD) w_err) = Some (-1))
  ∧ (∃ w1, skip_solution (CBuff SHM_FD) (Z.of_nat 4) tainted_payload = Returns tt w1
           ∧ pending w1 = [-1; 5]
           ∧ trace w1 = trace tainted_payload
                          ++ read_events (read_idx (shm tainted_payload)) ([7] ++ [-1])
           ∧ failures (trace w1) = failures (trace tainted_payload))
  ∧ (∃ w2, print_solution_string (CBuff SHM_FD) (Z.of_nat 4) tainted_payload
           = Returns tt w2
           ∧ pending w2 = [-1; 5]
           ∧ out w2 = out tainted_payload ++ edge_text 0 [7]
           ∧ failures (trace w2) = failures (trace tainted_payload))
  ∧ (errno tainted_header ≠ EINTR →
     ∃ (w3 : world) (sem_evs shm_evs : list event),
       supervisor_turn (CBuff SHM_FD) 1 tainted_header = Returns (Exit EXIT_FAILURE) w3
       ∧ trace w3 = trace tainted_header
                      ++ read_events (read_idx (shm tainted_header)) [-1]
                      ++ sem_evs ++ shm_evs
       ∧ calls sem_evs = semaphore_steps false
       ∧ calls shm_evs = region_steps false
       ∧ (out w3 = out tainted_header ++ [ErrInterrupt]
          ∨ out w3 = out tainted_header ++ [ErrClose]))
  ∧ (errno tainted_header = EINTR →
     ∃ w3, supervisor_turn (CBuff SHM_FD) 1 tainted_header = Returns (Continue 1) w3
           ∧ pending w3 = [5]
           ∧ failures (trace w3) = failures (trace tainted_header)).
Proof.
  apply (minus_one_is_failure (CBuff SHM_FD) [7] [-1; 5] [5] 4 1
           tainted_payload tainted_header).
  - split; vm_compute; try reflexivity; try discriminate;
      split; (discriminate || reflexivity).
  - constructor.
  - vm_compute. reflexivity.
  - repeat constructor; discriminate.
  - vm_compute. lia.
  - vm_compute. discriminate.
  - split; vm_compute; try reflexivity; try discriminate;
      split; (discriminate || reflexivity).
  - constructor.
  - vm_compute. reflexivity.
Defined.

(** The same run by evaluation: no call fails, the supervisor prints the
    interrupt error and leaves with [EXIT_FAILURE]. *)
Lemma minus_one_run :
  errno tainted_header = E0
  ∧ failures (trace tainted_header) = []
  ∧ result (supervisor_turn (CBuff SHM_FD) 1 tainted_header)
    = Some (Exit EXIT_FAILURE)
  ∧ (out <$> final (supervisor_turn (CBuff SHM_FD) 1 tainted_header))
    = Some [ErrInterrupt]
  ∧ (failures <$> (trace <$> final (supervisor_turn (CBuff SHM_FD) 1 tainted_header)))
    = Some [].
Proof. vm_compute. done. Qed.

(** * The life of the buffer *)

(** ** Creating, attaching, detaching, destroying *)

Ltac fold_app :=
  change (fix app (l m : list event) {struct l} : list event :=
            match l with
            | [] => m
            | a :: l1 => a :: app l1 m
            end) with (@app event) in *.

Ltac open_world w :=
  destruct w as [sl sh [lf vf hf] [lu vu hu] [lm vm hm] fo mp er qu fa wa ra tr ot].

(** [open_cbuff(true)] on a system where none of the four names exists and
    no call is made to fail. *)
Lemma open_cbuff_fresh (w : world) :
  shm_linked w = false →
  (∀ s, linked (sem s w) = false) →
  faults w = [] →
  ∃ w', open_cbuff true w = Returns (Some (CBuff SHM_FD)) w'
        ∧ ring_ok w' ∧ pending w' = []
        ∧ (value (sem_free w') = MAX_DATA
           ∧ value (sem_used w') = 0
           ∧ value (sem_mutex w') = 1)
        ∧ halt (shm w') = false
        ∧ shm_linked w' = true
        ∧ names w' = [SEM_FREE; SEM_USED; SEM_MUTEX]
        ∧ held w' = [SEM_FREE; SEM_USED; SEM_MUTEX]
        ∧ (fd_open w' = Some SHM_FD ∧ mapped w' = true)
        ∧ (waits w' = waits w ∧ raised w' = raised w)
        ∧ (quit w' = quit w ∧ out w' = out w ∧ faults w' = faults w)
        ∧ trace w' = trace w
            ++ [Call (SHM_OPEN true) true; Call FTRUNCATE true; Call MMAP true;
                Call (SEM_OPEN SEM_FREE true) true;
                Call (SEM_OPEN SEM_USED true) true;
                Call (SEM_OPEN SEM_MUTEX true) true].
Proof.
  intros H1 H2 H3.
  pose proof (H2 SEM_FREE) as Hf. pose proof (H2 SEM_USED) as Hu.
  pose proof (H2 SEM_MUTEX) as Hm. clear H2.
  open_world w. cbn in H1, Hf, Hu, Hm, H3. subst.
  eexists. split; [cbv; reflexivity|].
  split.
  { split; vm_compute; try reflexivity; try discriminate;
      split; (discriminate || reflexivity). }
  split_and!; try (vm_compute; reflexivity).
  cbn [trace]. fold_app. rewrite <- !app_assoc. reflexivity.
Qed.

(** X1: on a system where none of the four names exists and no call is made
    to fail, [open_cbuff(true)] returns a handle on an empty, well-formed
    buffer: 400 free slots, none used, the mutex free, [halt] unset, all
    names created and open. *)
Theorem open_cbuff_creates (w : world) :
  shm_linked w = false →
  (∀ s, linked (sem s w) = false) →
  faults w = [] →
  ∃ w', open_cbuff true w = Returns (Some (CBuff SHM_FD)) w'
        ∧ ring_ok w' ∧ pending w' = []
        ∧ value (sem_free w') = MAX_DATA
        ∧ value (sem_used w') = 0
        ∧ value (sem_mutex w') = 1
        ∧ halt (shm w') = false
        ∧ shm_linked w' = true
        ∧ names w' = [SEM_FREE; SEM_USED; SEM_MUTEX]
        ∧ held w' = [SEM_FREE; SEM_USED; SEM_MUTEX]
        ∧ fd_open w' = Some SHM_FD ∧ mapped w' = true
        ∧ waits w' = waits w ∧ raised w' = raised w
        ∧ trace w' = trace w
            ++ [Call (SHM_OPEN true) true; Call FTRUNCATE true; Call MMAP true;
                Call (SEM_OPEN SEM_FREE true) true;
                Call (SEM_OPEN SEM_USED true) true;
                Call (SEM_OPEN SEM_MUTEX true) true].
Proof.
  intros H1 H2 H3.
  destruct (open_cbuff_fresh w H1 H2 H3)
    as (w' & E & Hok & Hp & (Vf & Vu & Vm) & Hh & Hl & Hn & Hd & (Hfd & Hmp)
        & (Hw & Hr) & _ & Ht).
  exists w'. split; [exact E|]. split; [exact Hok|]. split; [exact Hp|].
  split; [exact Vf|]. split; [exact Vu|]. split; [exact Vm|].
  split; [exact Hh|]. split; [exact Hl|]. split; [exact Hn|].
  split; [exact Hd|]. split; [exact Hfd|]. split; [exact Hmp|].
  split; [exact Hw|]. split; [exact Hr | exact Ht].
Qed.

Lemma open_cbuff_creates_witness :
  ∃ w', open_cbuff true boot = Returns (Some (CBuff SHM_FD)) w'
        ∧ ring_ok w' ∧ pending w' = []
        ∧ value (sem_free w') = MAX_DATA
        ∧ value (sem_used w') = 0
        ∧ value (sem_mutex w') = 1
        ∧ halt (shm w') = false
        ∧ shm_linked w' = true
        ∧ names w' = [SEM_FREE; SEM_USED; SEM_MUTEX]
        ∧ held w' = [SEM_FREE; SEM_USED; SEM_MUTEX]
        ∧ fd_open w' = Some SHM_FD ∧ mapped w' = true
        ∧ waits w' = waits boot ∧ raised w' = raised boot
        ∧ trace w' = trace boot
            ++ [Call (SHM_OPEN true) true; Call FTRUNCATE true; Call MMAP true;
                Call (SEM_OPEN SEM_FREE true) true;
                Call (SEM_OPEN SEM_USED true) true;
                Call (SEM_OPEN SEM_MUTEX true) true].
Proof.
  apply (open_cbuff_creates boot).
  - reflexivity.
  - by intros [].
  - reflexivity.
Defined.

(** X2: creating the buffer and destroying it again, on a system where none
    of the names exists and nothing is made to fail, leaves the system as it
    was found: no name, no handle, no descriptor, no mapping, and both calls
    report success. *)
Theorem create_then_destroy (w : world) :
  shm_linked w = false →
  (∀ s, linked (sem s w) = false) →
  faults w = [] →
  ∃ cbuff w1 w2,
    open_cbuff true w = Returns (Some cbuff) w1
    ∧ close_cbuff cbuff true w1 = Returns true w2
    ∧ shm_linked w2 = false
    ∧ names w2 = [] ∧ held w2 = []
    ∧ fd_open w2 = None ∧ mapped w2 = false
    ∧ failures (trace w2) = failures (trace w).
Proof.
  intros H1 H2 H3.
  pose proof (H2 SEM_FREE) as Hf. pose proof (H2 SEM_USED) as Hu.
  pose proof (H2 SEM_MUTEX) as Hm. clear H2.
  open_world w. cbn in H1, Hf, Hu, Hm, H3. subst.
  exists (CBuff SHM_FD). eexists. eexists.
  split; [cbv; reflexivity|]. split; [cbv; reflexivity|].
  split_and!; try (vm_compute; reflexivity).
  cbn [trace]. fold_app. rewrite !failures_app. cbn.
  rewrite !app_nil_r. reflexivity.
Qed.

Lemma create_then_destroy_witness :
  ∃ cbuff w1 w2,
    open_cbuff true boot = Returns (Some cbuff) w1
    ∧ close_cbuff cbuff true w1 = Returns true w2
    ∧ shm_linked w2 = false
    ∧ names w2 = [] ∧ held w2 = []
    ∧ fd_open w2 = None ∧ mapped w2 = false
    ∧ failures (trace w2) = failures (trace boot).
Proof.
  apply (create_then_destroy boot).
  - reflexivity.
  - by intros [].
  - reflexivity.
Defined.

(** X3: a process that attaches with [open_cbuff(false)] to a buffer that
    exists changes nothing of what is shared: the words queued, the indexes,
    [halt] and the counts of the semaphores stay as they are.  It makes no
    call that creates or sizes anything. *)
Theorem open_cbuff_attaches (w : world) :
  shm_linked w = true →
  (∀ s, linked (sem s w) = true) →
  faults w = [] →
  ∃ w', open_cbuff false w = Returns (Some (CBuff SHM_FD)) w'
        ∧ shared_same w w'
        ∧ pending w' = pending w
        ∧ held w' = [SEM_FREE; SEM_USED; SEM_MUTEX]
        ∧ fd_open w' = Some SHM_FD ∧ mapped w' = true
        ∧ trace w' = trace w
            ++ [Call (SHM_OPEN false) true; Call MMAP true;
                Call (SEM_OPEN SEM_FREE false) true;
                Call (SEM_OPEN SEM_USED false) true;
                Call (SEM_OPEN SEM_MUTEX false) true].
Proof.
  intros H1 H2 H3.
  pose proof (H2 SEM_FREE) as Hf. pose proof (H2 SEM_USED) as Hu.
  pose proof (H2 SEM_MUTEX) as Hm. clear H2.
  open_world w. cbn in H1, Hf, Hu, Hm, H3. subst.
  eexists. split; [cbv; reflexivity|].
  split_and!; try reflexivity.
  - split_and!; try reflexivity. by intros [].
  - cbn [trace]. fold_app. rewrite <- !app_assoc. reflexivity.
Qed.

Lemma open_cbuff_attaches_witness :
  ∃ w', open_cbuff false second_start = Returns (Some (CBuff SHM_FD)) w'
        ∧ shared_same second_start w'
        ∧ pending w' = pending second_start
        ∧ held w' = [SEM_FREE; SEM_USED; SEM_MUTEX]
        ∧ fd_open w' = Some SHM_FD ∧ mapped w' = true
        ∧ trace w' = trace second_start
            ++ [Call (SHM_OPEN false) true; Call MMAP true;
                Call (SEM_OPEN SEM_FREE false) true;
                Call (SEM_OPEN SEM_USED false) true;
                Call (SEM_OPEN SEM_MUTEX false) true].
Proof.
  apply (open_cbuff_attaches second_start).
  - vm_compute. reflexivity.
  - intros []; vm_compute; reflexivity.
  - vm_compute. reflexivity.
Defined.

Lemma shared_same_refl (w : world) : shared_same w w.
Proof. by unfold shared_same. Qed.

Lemma shared_same_trans (w1 w2 w3 : world) :
  shared_same w1 w2 → shared_same w2 w3 → shared_same w1 w3.
Proof.
  unfold shared_same. intros (A1 & A2 & A3) (B1 & B2 & B3).
  split; [congruence|]. split; [congruence|].
  intros s. destruct (A3 s), (B3 s). split; congruence.
Qed.

Ltac solve_shared :=
  eexists _, _; (split; [reflexivity|]);
  unfold shared_same; split_and!; try done; by intros [].

Lemma sem_close_keeps_shared (s : sem_name) : keeps_shared (sem_close s).
Proof.
  intros w. unfold sem_close.
  destruct s; (destruct (faulty _ w); [|destruct (opened _)]); solve_shared.
Qed.

Lemma munmap_keeps_shared : keeps_shared munmap.
Proof.
  intros w. unfold munmap.
  destruct (faulty MUNMAP w); solve_shared.
Qed.

Lemma close_keeps_shared (fd : Z) : keeps_shared (close fd).
Proof.
  intros w. unfold close.
  destruct (faulty CLOSE w); [|case_decide]; solve_shared.
Qed.

Lemma close_cbuff_client_shared (cbuff : circular_buffer_t) :
  keeps_shared (close_cbuff cbuff false).
Proof.
  intros w.
  destruct (sem_close_keeps_shared SEM_FREE w) as (r1 & w1 & E1 & S1).
  destruct (sem_close_keeps_shared SEM_USED w1) as (r2 & w2 & E2 & S2).
  destruct (sem_close_keeps_shared SEM_MUTEX w2) as (r3 & w3 & E3 & S3).
  destruct (munmap_keeps_shared w3) as (r4 & w4 & E4 & S4).
  destruct (close_keeps_shared (fd cbuff) w4) as (r5 & w5 & E5 & S5).
  assert (∃ b, close_cbuff cbuff false w = Returns b w5) as [b Hb].
  { unfold close_cbuff, close_shm, mbind, M_bind, mret, M_ret.
    rewrite E1, E2, E3, E4, E5.
    destruct (decide (r4 = -1)), (decide (r5 = -1)); eexists; reflexivity. }
  exists b, w5. split; [exact Hb|].
  repeat (eapply shared_same_trans; [eassumption|]). apply shared_same_refl.
Qed.

(** X4: [close_cbuff] of a process that does not own the buffer
    ([server = false]) never removes a name and never touches the region or
    the counts of the semaphores, whatever its calls return. *)
Theorem close_cbuff_detaches (cbuff : circular_buffer_t) (w : world) :
  ∃ (b : bool) (w' : world),
    close_cbuff cbuff false w = Returns b w' ∧ shared_same w w'.
Proof.
  apply close_cbuff_client_shared.
Qed.

Lemma sem_close_keeps_counts (s : sem_name) : keeps_counts (sem_close s).
Proof.
  intros w. unfold sem_close.
  destruct s; (destruct (faulty _ w); [|destruct (opened _)]);
    eexists _, _; (split; [reflexivity|]); (split; [done|]); by intros [].
Qed.

Lemma sem_unlink_keeps_counts (s : sem_name) : keeps_counts (sem_unlink s).
Proof.
  intros w. unfold sem_unlink.
  destruct s; (destruct (faulty _ w); [|destruct (linked _)]);
    eexists _, _; (split; [reflexivity|]); (split; [done|]); by intros [].
Qed.

Lemma close_shm_keeps_counts (fd : Z) (server : bool) :
  keeps_counts (close_shm fd server).
Proof.
  intros w. unfold close_shm, munmap, close, shm_unlink, mbind, M_bind.
  destruct (faulty MUNMAP w); cbn;
    (destruct (faulty CLOSE _); cbn; [|case_decide]); destruct server; cbn;
    try (destruct (faulty SHM_UNLINK _); cbn; [|destruct (shm_linked _)]);
    eexists _, _; (split; [reflexivity|]); (split; [done|]); by intros [].
Qed.

(** X5: [close_cbuff] of the owner ([server = true]) always sets [halt] and
    posts [free] and [used] once each, so that a producer kept waiting is
    let through and finds the flag; the words, the indexes and the count of
    the mutex stay as they are, whatever the calls that follow return. *)
Theorem close_cbuff_wakes (cbuff : circular_buffer_t) (w : world) :
  ∃ (b : bool) (w' : world),
    close_cbuff cbuff true w = Returns b w'
    ∧ shm w' = set_halt true (shm w)
    ∧ value (sem_free w') = value (sem_free w) + 1
    ∧ value (sem_used w') = value (sem_used w) + 1
    ∧ value (sem_mutex w') = value (sem_mutex w).
Proof.
  set (w0 := set_shm (set_halt true) (posted SEM_USED (posted SEM_FREE w))).
  destruct (sem_close_keeps_counts SEM_FREE w0) as (r1 & w1 & E1 & S1 & V1).
  destruct (sem_close_keeps_counts SEM_USED w1) as (r2 & w2 & E2 & S2 & V2).
  destruct (sem_close_keeps_counts SEM_MUTEX w2) as (r3 & w3 & E3 & S3 & V3).
  destruct (sem_unlink_keeps_counts SEM_FREE w3) as (r4 & w4 & E4 & S4 & V4).
  destruct (sem_unlink_keeps_counts SEM_USED w4) as (r5 & w5 & E5 & S5 & V5).
  destruct (sem_unlink_keeps_counts SEM_MUTEX w5) as (r6 & w6 & E6 & S6 & V6).
  destruct (close_shm_keeps_counts (fd cbuff) true w6) as (b & w7 & E7 & S7 & V7).
  exists b, w7. split.
  - unfold close_cbuff, mbind, M_bind, mret, M_ret.
    change (sem_post SEM_FREE w) with (Returns 0 (posted SEM_FREE w)).
    cbv beta iota.
    change (sem_post SEM_USED (posted SEM_FREE w))
      with (Returns 0 (posted SEM_USED (posted SEM_FREE w))).
    cbv beta iota. unfold modify. fold w0.
    rewrite E1, E2, E3, E4, E5, E6, E7. by destruct b.
  - split; [by rewrite S7, S6, S5, S4, S3, S2, S1|].
    pose proof (V7 SEM_FREE) as F7. pose proof (V7 SEM_USED) as U7.
    pose proof (V7 SEM_MUTEX) as M7.
    pose proof (V6 SEM_FREE) as F6. pose proof (V6 SEM_USED) as U6.
    pose proof (V6 SEM_MUTEX) as M6.
    pose proof (V5 SEM_FREE) as F5. pose proof (V5 SEM_USED) as U5.
    pose proof (V5 SEM_MUTEX) as M5.
    pose proof (V4 SEM_FREE) as F4. pose proof (V4 SEM_USED) as U4.
    pose proof (V4 SEM_MUTEX) as M4.
    pose proof (V3 SEM_FREE) as F3. pose proof (V3 SEM_USED) as U3.
    pose proof (V3 SEM_MUTEX) as M3.
    pose proof (V2 SEM_FREE) as F2. pose proof (V2 SEM_USED) as U2.
    pose proof (V2 SEM_MUTEX) as M2.
    pose proof (V1 SEM_FREE) as F1. pose proof (V1 SEM_USED) as U1.
    pose proof (V1 SEM_MUTEX) as M1.
    cbn [sem] in *.
    split_and!; [rewrite F7, F6, F5, F4, F3, F2, F1
                | rewrite U7, U6, U5, U4, U3, U2, U1
                | rewrite M7, M6, M5, M4, M3, M2, M1]; reflexivity.
Qed.

(** X6: [open_cbuff(false)] on a system where the region does not exist
    returns [NULL] after the one failed [shm_open]: a process that attaches
    creates nothing, and it holds nothing more than before. *)
Theorem open_cbuff_nothing_to_attach (w : world) :
  shm_linked w = false →
  ∃ w', open_cbuff false w = Returns None w'
        ∧ shared_same w w'
        ∧ fd_open w' = fd_open w ∧ mapped w' = mapped w
        ∧ (∀ s, opened (sem s w') = opened (sem s w))
        ∧ trace w' = trace w ++ [Call (SHM_OPEN false) false].
Proof.
  intros Hl. unfold open_cbuff, open_shm, shm_open, mbind, M_bind.
  rewrite Hl.
  destruct (faulty (SHM_OPEN false) w); cbn;
    eexists; (split; [reflexivity|]);
    (split; [split_and!; try done; by intros []|]);
    split_and!; try done; by intros [].
Qed.

Lemma open_cbuff_nothing_to_attach_witness :
  ∃ w', open_cbuff false boot = Returns None w'
        ∧ shared_same boot w'
        ∧ fd_open w' = fd_open boot ∧ mapped w' = mapped boot
        ∧ (∀ s, opened (sem s w') = opened (sem s boot))
        ∧ trace w' = trace boot ++ [Call (SHM_OPEN false) false].
Proof. apply (open_cbuff_nothing_to_attach boot). reflexivity. Defined.

(** X7: when sizing or mapping the region is the call that fails,
    [open_shm] returns [NULL] with the descriptor closed again and the name
    of the region removed.  It does so for a process that only attaches too,
    and whether or not the region was there before the call. *)
Theorem open_shm_rolls_back (server : bool) (c : syscall) (w : world) :
  faults w = [c] →
  c = MMAP ∨ (c = FTRUNCATE ∧ server = true) →
  server = true ∨ shm_linked w = true →
  ∃ w', open_shm server w = Returns (SHM_FD, false) w'
        ∧ shm_linked w' = false
        ∧ fd_open w' = None
        ∧ mapped w' = mapped w
        ∧ failures (trace w') = failures (trace w) ++ [c].
Proof.
  intros Hf Hc Hs. open_world w. cbn in Hf, Hs. subst fa.
  destruct Hc as [->|[-> ->]].
  - destruct Hs as [->| ->].
    + destruct sl; (eexists; split; [cbv; reflexivity|]);
        (split_and!; try reflexivity);
        cbn [trace]; fold_app; rewrite !failures_app; cbn;
        rewrite ?app_nil_r; reflexivity.
    + destruct server; (eexists; split; [cbv; reflexivity|]);
        (split_and!; try reflexivity);
        cbn [trace]; fold_app; rewrite !failures_app; cbn;
        rewrite ?app_nil_r; reflexivity.
  - destruct sl; (eexists; split; [cbv; reflexivity|]);
      (split_and!; try reflexivity);
      cbn [trace]; fold_app; rewrite !failures_app; cbn;
      rewrite ?app_nil_r; reflexivity.
Qed.

(** A generator that attaches to the running system of the scenario and
    whose [mmap] fails: the name of the region is gone afterwards. *)
Lemma open_shm_rolls_back_witness :
  ∃ w', open_shm false (World (shm_linked second_start) (shm second_start)
                          (sem_free second_start) (sem_used second_start)
                          (sem_mutex second_start) None false E0 false
                          [MMAP] [] [] [] []) = Returns (SHM_FD, false) w'
        ∧ shm_linked w' = false
        ∧ fd_open w' = None
        ∧ mapped w' = false
        ∧ failures (trace w') = failures [] ++ [MMAP].
Proof.
  apply (open_shm_rolls_back false MMAP
           (World (shm_linked second_start) (shm second_start)
                  (sem_free second_start) (sem_used second_start)
                  (sem_mutex second_start) None false E0 false
                  [MMAP] [] [] [] [])).
  - reflexivity.
  - left. reflexivity.
  - right. vm_compute. reflexivity.
Defined.

(** X8: [open_cbuff(false)] on a system where the region exists and one of
    the semaphores does not returns [NULL] with no semaphore left open and
    nothing of what is shared changed; the region stays mapped and its
    descriptor open, for these paths free the handle only. *)
Theorem open_cbuff_attach_fails (w : world) :
  shm_linked w = true →
  holds_nothing w →
  faults w = [] →
  (∃ s, linked (sem s w) = false) →
  ∃ w', open_cbuff false w = Returns None w'
        ∧ shared_same w w'
        ∧ (∀ s, opened (sem s w') = false)
        ∧ mapped w' = true
        ∧ fd_open w' = Some SHM_FD.
Proof.
  intros Hl (Hfd & Hmp & Hop) Hf [s Hs].
  pose proof (Hop SEM_FREE) as Of. pose proof (Hop SEM_USED) as Ou.
  pose proof (Hop SEM_MUTEX) as Om. clear Hop.
  open_world w. cbn in Hl, Hfd, Hmp, Of, Ou, Om, Hf. subst.
  destruct lf, lu, lm;
    try (destruct s; cbn in Hs; discriminate);
    (eexists; split; [cbv; reflexivity|]);
    (split; [unfold shared_same; split_and!; try reflexivity; by intros []|]);
    (split; [by intros []|]); split; reflexivity.
Qed.

Lemma open_cbuff_attach_fails_witness :
  ∃ w', open_cbuff false stale_region = Returns None w'
        ∧ shared_same stale_region w'
        ∧ (∀ s, opened (sem s w') = false)
        ∧ mapped w' = true
        ∧ fd_open w' = Some SHM_FD.
Proof.
  apply (open_cbuff_attach_fails stale_region).
  - reflexivity.
  - split; [reflexivity|]. split; [reflexivity|]. by intros [].
  - reflexivity.
  - exists SEM_FREE. reflexivity.
Defined.

(** ** The queue at its bounds *)

Lemma sem_wait_next (s : sem_name) (rest : list wait_outcome) (w : world) :
  waits w = Acquire :: rest → 0 < value (sem s w) →
  sem_wait s w = Returns 0 (took s w).
Proof.
  unfold sem_wait, took. intros Hw Hv. rewrite Hw. cbn.
  destruct s; cbn in *; case_decide; (done || lia).
Qed.

Lemma sem_wait_blocks (s : sem_name) (w : world) :
  calm w → value (sem s w) ≤ 0 →
  sem_wait s w = Blocked (set_waits (tail (waits w)) w).
Proof.
  unfold calm, sem_wait. intros Hc Hv.
  destruct (waits w) as [|[|e] rest] eqn:Ew; cbn.
  - destruct s; cbn in *; case_decide; (done || lia).
  - destruct s; cbn in *; case_decide; (done || lia).
  - inversion Hc; discriminate.
Qed.

(** One turn of the loop of [add_solution] when the next wait is let
    through. *)
Lemma add_solution_loop_next (edges : list Z) (size todo : nat) (i v : Z)
    (rest : list wait_outcome) (w : world) :
  waits w = Acquire :: rest →
  halt (shm (interfere w)) = false →
  0 < value (sem_free w) →
  0 ≤ write_idx (shm w) < MAX_DATA →
  frame_word edges size i = Some v →
  i ≠ INT_MAX →
  add_solution_loop edges size (S todo) i w
  = add_solution_loop edges size todo (i + 1) (put v w).
Proof.
  intros Hwaits Hh Hfree Hidx Hv Hi.
  destruct (interfere_same w) as (_ & _ & Hwi & _ & Hsem & Hwa & _).
  cbn [add_solution_loop]. unfold mbind, M_bind at 1. unfold read_halt.
  rewrite Hh.
  unfold mbind, M_bind at 1.
  rewrite (sem_wait_next _ rest).
  2: { cbn. by rewrite Hwa. }
  2: { pose proof (Hsem SEM_FREE) as Hsf. cbn in Hsf. cbn. by rewrite Hsf. }
  rewrite decide_False by done.
  unfold mbind, M_bind at 1.
  replace (if decide (i = 0) then store_data (to_long (Z.of_nat size))
           else match edges !! Z.to_nat (i - 1) with
                | Some e => store_data e
                | None => undefined
                end) with (store_data v).
  2: { unfold frame_word in Hv. case_decide; [by inversion Hv|by rewrite Hv]. }
  rewrite store_data_inv.
  replace (write_idx (shm (took SEM_FREE (log (ReadHalt false) (interfere w)))))
    with (write_idx (shm w)) by (cbn; by rewrite Hwi).
  rewrite decide_True by done.
  unfold mbind, M_bind at 1. unfold modify at 1.
  unfold mbind, M_bind at 1. unfold modify at 1.
  unfold mbind, M_bind at 1. unfold sem_post at 1, succeeded at 1.
  unfold mbind, M_bind at 1. unfold incr_int.
  rewrite decide_False by done.
  reflexivity.
Qed.

Lemma put_waits (v : Z) (w : world) : waits (put v w) = tail (waits w).
Proof.
  destruct (interfere_same w) as (_ & _ & _ & _ & _ & Hwa & _).
  cbn. by rewrite Hwa.
Qed.

Lemma put_errno_quit (v : Z) (w : world) :
  errno (put v w) = errno w ∧ quit (put v w) = quit w ∧ out (put v w) = out w.
Proof.
  destruct (interfere_same w) as (_ & _ & _ & _ & _ & _ & _ & Ho & He & Hq).
  cbn. by rewrite He, Hq, Ho.
Qed.

(** The loop of [add_solution] with [n] free slots and more than [n] words
    to write: it fills the slots and stays in the wait for the next. *)
Lemma add_solution_loop_fills (edges : list Z) (size : nat) :
  ∀ (n : nat) (ws : list Z) (todo : nat) (i : Z) (w : world),
    ring_ok w → calm w → unhalted w →
    value (sem_free w) = Z.of_nat n →
    (n < todo)%nat →
    length ws = n →
    (∀ k, (k < n)%nat → frame_word edges size (i + Z.of_nat k) = ws !! k) →
    0 ≤ i → i + Z.of_nat n ≤ INT_MAX →
    ∃ w', add_solution_loop edges size todo i w = Blocked w'
          ∧ ring_ok w'
          ∧ pending w' = pending w ++ ws
          ∧ value (sem_free w') = 0
          ∧ value (sem_mutex w') = value (sem_mutex w)
          ∧ stored (trace w') = stored (trace w) ++ ws.
Proof.
  induction n as [|n IH]; intros ws todo i w Hok Hcalm Hun Hfree Htodo Hlen Hws Hi Hmax.
  - destruct ws; [|done]. destruct todo as [|todo]; [lia|].
    destruct (interfere_unhalted w Hun) as [Hh _].
    destruct (interfere_same w) as (_ & Hd & Hwi & Hri & Hsem & Hwa & Ht & _).
    pose proof (Hsem SEM_FREE) as Hsf. pose proof (Hsem SEM_USED) as Hsu.
    pose proof (Hsem SEM_MUTEX) as Hsm. cbn in Hsf, Hsu, Hsm.
    cbn [add_solution_loop]. unfold mbind, M_bind at 1. unfold read_halt.
    rewrite Hh. unfold mbind, M_bind at 1.
    rewrite sem_wait_blocks.
    2: { unfold calm. cbn. by rewrite Hwa. }
    2: { cbn. rewrite Hsf. lia. }
    eexists. split; [reflexivity|]. destruct Hok.
    split_and!.
    + split; cbn; rewrite ?Hd, ?Hwi, ?Hri, ?Hsf, ?Hsu; done.
    + unfold pending. cbn. rewrite Hd, Hri, Hsu, app_nil_r. done.
    + cbn. rewrite Hsf. lia.
    + cbn. by rewrite Hsm.
    + cbn. rewrite Ht, stored_app, !app_nil_r. reflexivity.
  - destruct ws as [|v ws]; [done|]. destruct todo as [|todo]; [lia|].
    assert (Hfw : frame_word edges size i = Some v).
    { specialize (Hws O ltac:(lia)). by rewrite Z.add_0_r in Hws. }
    assert (Hidx : 0 ≤ write_idx (shm w) < MAX_DATA).
    { rewrite (ring_write _ Hok). apply Z.mod_pos_bound. unfold MAX_DATA. lia. }
    rewrite (add_solution_loop_go _ _ _ _ v)
      by (done || lia || apply (interfere_unhalted w Hun)).
    destruct (put_sems v w Hcalm) as (Hcalm' & Hfree' & Hmutex').
    pose proof (put_unhalted v w Hun) as Hun'.
    assert (H2 : ring_ok (put v w)) by (apply put_ring_ok; [done | lia]).
    assert (H3 : ∀ k, (k < n)%nat →
                   frame_word edges size (i + 1 + Z.of_nat k) = ws !! k).
    { intros k Hk. specialize (Hws (S k) ltac:(lia)).
      change ((v :: ws) !! S k) with (ws !! k) in Hws. rewrite <- Hws.
      f_equal. lia. }
    destruct (IH ws todo (i + 1) (put v w) H2 Hcalm' Hun' ltac:(lia) ltac:(lia)
                 ltac:(by inversion Hlen) H3 ltac:(lia) ltac:(lia))
      as (w' & Hrun & Hok' & Hp' & Hf' & Hm' & Hst').
    exists w'. split_and!; try done.
    + rewrite Hp', put_pending by (done || lia). by rewrite <- app_assoc.
    + by rewrite Hm', Hmutex'.
    + rewrite Hst', put_trace, stored_app, (stored_frame_events [v]),
        <- app_assoc. reflexivity.
Qed.

(** X9: a frame of more words than there are free slots does not go
    through on its own: [add_solution] writes as many words as slots are
    free, header first, and stays in [sem_wait(free)] with the mutex taken.
    The buffer is then full; no word that was queued has been written
    over. *)
Theorem add_solution_fills_and_waits (cbuff : circular_buffer_t)
    (edges : list Z) (size : nat) (w : world) :
  ring_ok w → calm w → unhalted w →
  0 < value (sem_mutex w) →
  (size ≤ length edges)%nat →
  value (sem_free w) < 1 + Z.of_nat size →
  ∃ w', add_solution cbuff edges size w = Blocked w'
        ∧ ring_ok w'
        ∧ value (sem_free w') = 0
        ∧ value (sem_used w') = MAX_DATA
        ∧ value (sem_mutex w') = value (sem_mutex w) - 1
        ∧ pending w'
          = pending w ++ take (Z.to_nat (value (sem_free w)))
                           (to_long (Z.of_nat size) :: edges)
        ∧ stored (trace w')
          = stored (trace w) ++ take (Z.to_nat (value (sem_free w)))
                                  (to_long (Z.of_nat size) :: edges).
Proof.
  intros Hok Hcalm Hun Hmutex Hsize Hfree.
  pose proof (ring_sum _ Hok) as Hsum. pose proof (ring_used _ Hok) as Hused.
  pose proof (ring_free _ Hok) as Hf0.
  set (n := Z.to_nat (value (sem_free w))).
  set (ws := take n (to_long (Z.of_nat size) :: edges)).
  assert (Hlen : length ws = n).
  { unfold ws. rewrite length_take. cbn [length]. lia. }
  unfold add_solution. unfold mbind, M_bind at 1.
  rewrite sem_wait_acquire by done.
  rewrite decide_False by done.
  destruct (add_solution_loop_fills edges size n ws (S size) 0 (took SEM_MUTEX w))
    as (w' & Hrun & Hok' & Hp' & Hf' & Hm' & Hst'); try done.
  - by apply took_ring_ok.
  - by apply calm_tail in Hcalm.
  - cbn. lia.
  - lia.
  - intros k Hk. unfold ws. rewrite lookup_take_lt by done.
    destruct k as [|k]; [done|].
    change ((to_long (Z.of_nat size) :: edges) !! S k) with (edges !! k).
    unfold frame_word. rewrite decide_False by lia. f_equal. lia.
  - unfold MAX_DATA, INT_MAX in *. lia.
  - exists w'. split; [exact Hrun|]. split; [exact Hok'|].
    split; [exact Hf'|]. split; [pose proof (ring_sum _ Hok'); lia|].
    split; [rewrite Hm'; cbn; lia|]. split; [exact Hp'|].
    rewrite Hst'. cbn [trace took log set_sem set_waits].
    rewrite stored_app. cbn. by rewrite app_nil_r.
Qed.

(** With two slots free the frame of the scenario gets its header and its
    first word in, and the call stays in the wait. *)
Lemma add_solution_fills_and_waits_witness :
  ∃ w', add_solution (CBuff SHM_FD) scenario 4 nearly_full = Blocked w'
        ∧ ring_ok w'
        ∧ value (sem_free w') = 0
        ∧ value (sem_used w') = MAX_DATA
        ∧ value (sem_mutex w') = value (sem_mutex nearly_full) - 1
        ∧ pending w'
          = pending nearly_full
              ++ take (Z.to_nat (value (sem_free nearly_full)))
                   (to_long (Z.of_nat 4) :: scenario)
        ∧ stored (trace w')
          = stored (trace nearly_full)
              ++ take (Z.to_nat (value (sem_free nearly_full)))
                   (to_long (Z.of_nat 4) :: scenario).
Proof.
  apply (add_solution_fills_and_waits (CBuff SHM_FD) scenario 4 nearly_full).
  - split; vm_compute; try reflexivity; try discriminate;
      split; (discriminate || reflexivity).
  - constructor.
  - split; [reflexivity | constructor].
  - reflexivity.
  - vm_compute. lia.
  - vm_compute. reflexivity.
Defined.

(** The loop of [add_solution] when [n] waits on [free] are let through and
    the next one fails. *)
Lemma add_solution_loop_refused (edges : list Z) (size : nat) (e : errno_t)
    (rest : list wait_outcome) :
  ∀ (n : nat) (ws : list Z) (todo : nat) (i : Z) (w : world),
    waits w = replicate n Acquire ++ Fail e :: rest →
    ring_ok w → unhalted w →
    Z.of_nat n ≤ value (sem_free w) →
    (n < todo)%nat →
    length ws = n →
    (∀ k, (k < n)%nat → frame_word edges size (i + Z.of_nat k) = ws !! k) →
    0 ≤ i → i + Z.of_nat n ≤ INT_MAX →
    ∃ w', add_solution_loop edges size todo i w = Returns false w'
          ∧ ring_ok w'
          ∧ pending w' = pending w ++ ws
          ∧ value (sem_mutex w') = value (sem_mutex w) + 1
          ∧ waits w' = rest
          ∧ errno w' = e
          ∧ stored (trace w') = stored (trace w) ++ ws
          ∧ failures (trace w') = failures (trace w) ++ [SEM_WAIT SEM_FREE].
Proof.
  induction n as [|n IH];
    intros ws todo i w Hwaits Hok Hun Hfree Htodo Hlen Hws Hi Hmax.
  - destruct ws; [|done]. destruct todo as [|todo]; [lia|].
    destruct (interfere_unhalted w Hun) as [Hh _].
    destruct (interfere_same w) as (_ & Hd & Hwi & Hri & Hsem & Hwa & Ht & _).
    pose proof (Hsem SEM_FREE) as Hsf. pose proof (Hsem SEM_USED) as Hsu.
    pose proof (Hsem SEM_MUTEX) as Hsm. cbn in Hsf, Hsu, Hsm.
    cbn [replicate app] in Hwaits.
    cbn [add_solution_loop]. unfold mbind, M_bind at 1. unfold read_halt.
    rewrite Hh. unfold mbind, M_bind at 1.
    rewrite (sem_wait_fail _ e rest) by (cbn; by rewrite Hwa).
    rewrite decide_True by done.
    exists (posted SEM_MUTEX (refused SEM_FREE e (log (ReadHalt false) (interfere w)))).
    split; [reflexivity|]. destruct Hok as [Hlen0 Hrd Hu Hf Hsum Hwr].
    assert (Hfields :
      ∀ w0 : world,
        let w1 := posted SEM_MUTEX (refused SEM_FREE e w0) in
        shm w1 = shm w0 ∧ sem_free w1 = sem_free w0 ∧ sem_used w1 = sem_used w0
        ∧ value (sem_mutex w1) = value (sem_mutex w0) + 1
        ∧ waits w1 = tail (waits w0) ∧ errno w1 = e
        ∧ trace w1 = trace w0 ++ [Call (SEM_WAIT SEM_FREE) false;
                                  Call (SEM_POST SEM_MUTEX) true]).
    { intros w0. unfold refused. destruct (decide (e = EINTR)); cbn;
        rewrite <- ?app_assoc; done. }
    destruct (Hfields (log (ReadHalt false) (interfere w)))
      as (Fs & Ff & Fu & Fm & Fw & Fe & Ft).
    split_and!.
    + refine (RingOk _ _ _ _ _ _ _); rewrite ?Fs, ?Ff, ?Fu;
        cbn [shm sem_free sem_used log]; rewrite ?Hd, ?Hwi, ?Hri, ?Hsf, ?Hsu;
        assumption.
    + unfold pending. rewrite Fs, Fu. cbn [shm sem_used log].
      rewrite Hd, Hri, Hsu, app_nil_r. done.
    + rewrite Fm. cbn [sem_mutex log]. by rewrite Hsm.
    + rewrite Fw. cbn [waits log]. by rewrite Hwa, Hwaits.
    + exact Fe.
    + rewrite Ft. cbn [trace log]. rewrite Ht, !stored_app. cbn.
      by rewrite !app_nil_r.
    + rewrite Ft. cbn [trace log]. rewrite Ht, !failures_app. cbn.
      by rewrite !app_nil_r.
  - destruct ws as [|v ws]; [done|]. destruct todo as [|todo]; [lia|].
    cbn [replicate app] in Hwaits.
    assert (Hfw : frame_word edges size i = Some v).
    { specialize (Hws O ltac:(lia)). by rewrite Z.add_0_r in Hws. }
    assert (Hidx : 0 ≤ write_idx (shm w) < MAX_DATA).
    { rewrite (ring_write _ Hok). apply Z.mod_pos_bound. unfold MAX_DATA. lia. }
    rewrite (add_solution_loop_next _ _ _ _ v (replicate n Acquire ++ Fail e :: rest))
      by (done || lia || apply (interfere_unhalted w Hun)).
    pose proof (put_unhalted v w Hun) as Hun'.
    assert (H1 : waits (put v w) = replicate n Acquire ++ Fail e :: rest)
      by (by rewrite put_waits, Hwaits).
    assert (H2 : ring_ok (put v w)) by (apply put_ring_ok; [done | lia]).
    assert (H3 : ∀ k, (k < n)%nat →
                   frame_word edges size (i + 1 + Z.of_nat k) = ws !! k).
    { intros k Hk. specialize (Hws (S k) ltac:(lia)).
      change ((v :: ws) !! S k) with (ws !! k) in Hws. rewrite <- Hws.
      f_equal. lia. }
    assert (Hfree' : value (sem_free (put v w)) = value (sem_free w) - 1).
    { destruct (interfere_same w) as (_ & _ & _ & _ & Hsem & _).
      pose proof (Hsem SEM_FREE) as Hsf. cbn in Hsf. cbn. by rewrite Hsf. }
    assert (Hmutex' : sem_mutex (put v w) = sem_mutex w).
    { destruct (interfere_same w) as (_ & _ & _ & _ & Hsem & _).
      pose proof (Hsem SEM_MUTEX) as Hsm. cbn in Hsm. cbn. by rewrite Hsm. }
    destruct (IH ws todo (i + 1) (put v w) H1 H2 Hun' ltac:(lia) ltac:(lia)
                 ltac:(by inversion Hlen) H3 ltac:(lia) ltac:(lia))
      as (w' & Hrun & Hok' & Hp' & Hm' & Hw' & He' & Hst' & Hfl').
    destruct (count_frame_events [v] (write_idx (shm w))) as (_ & _ & Hnf).
    exists w'. split; [exact Hrun|]. split; [exact Hok'|].
    split; [rewrite Hp', put_pending by (done || lia); by rewrite <- app_assoc|].
    split; [by rewrite Hm', Hmutex'|]. split; [exact Hw'|]. split; [exact He'|].
    split.
    + rewrite Hst', put_trace, stored_app, (stored_frame_events [v]),
        <- app_assoc. reflexivity.
    + rewrite Hfl', put_trace, failures_app, Hnf, app_nil_r. reflexivity.
Qed.

(** X10: when a wait on [free] fails in the middle of a frame,
    [add_solution] releases the mutex and returns [false]; the words written
    before stay in the queue as the beginning of a frame, and the counts of
    [used], [free] and the mutex are those of a well-formed buffer: this path
    posts nothing but the mutex it holds. *)
Theorem add_solution_wait_fails (cbuff : circular_buffer_t) (edges : list Z)
    (size n : nat) (e : errno_t) (rest : list wait_outcome) (w : world) :
  waits w = replicate (S n) Acquire ++ Fail e :: rest →
  ring_ok w → unhalted w →
  0 < value (sem_mutex w) →
  (n ≤ size)%nat → (size ≤ length edges)%nat →
  Z.of_nat n ≤ value (sem_free w) →
  ∃ w', add_solution cbuff edges size w = Returns false w'
        ∧ ring_ok w'
        ∧ value (sem_mutex w') = value (sem_mutex w)
        ∧ pending w' = pending w ++ take n (to_long (Z.of_nat size) :: edges)
        ∧ stored (trace w')
          = stored (trace w) ++ take n (to_long (Z.of_nat size) :: edges)
        ∧ failures (trace w') = failures (trace w) ++ [SEM_WAIT SEM_FREE]
        ∧ errno w' = e.
Proof.
  intros Hwaits Hok Hun Hmutex Hn Hsize Hfree.
  pose proof (ring_sum _ Hok) as Hsum. pose proof (ring_used _ Hok) as Hused.
  set (ws := take n (to_long (Z.of_nat size) :: edges)).
  assert (Hlen : length ws = n).
  { unfold ws. rewrite length_take. cbn [length]. lia. }
  cbn [replicate app] in Hwaits.
  unfold add_solution. unfold mbind, M_bind at 1.
  rewrite (sem_wait_next _ (replicate n Acquire ++ Fail e :: rest)) by done.
  rewrite decide_False by done.
  assert (H3 : ∀ k, (k < n)%nat → frame_word edges size (0 + Z.of_nat k) = ws !! k).
  { intros k Hk. unfold ws. rewrite lookup_take_lt by done.
    destruct k as [|k]; [done|].
    change ((to_long (Z.of_nat size) :: edges) !! S k) with (edges !! k).
    unfold frame_word. rewrite decide_False by lia. f_equal. lia. }
  destruct (add_solution_loop_refused edges size e rest n ws (S size) 0
              (took SEM_MUTEX w))
    as (w' & Hrun & Hok' & Hp' & Hm' & Hw' & He' & Hst' & Hfl'); try done.
  - cbn. by rewrite Hwaits.
  - by apply took_ring_ok.
  - lia.
  - unfold MAX_DATA, INT_MAX in *. lia.
  - exists w'. split; [exact Hrun|]. split; [exact Hok'|].
    split; [rewrite Hm'; cbn; lia|]. split; [exact Hp'|].
    split; [|split; [|exact He']].
    + rewrite Hst'. cbn [trace took log set_sem set_waits].
      rewrite stored_app. cbn. by rewrite app_nil_r.
    + rewrite Hfl'. cbn [trace took log set_sem set_waits].
      rewrite failures_app. cbn. by rewrite app_nil_r.
Qed.

(** The run of [ready_interrupted]: two words in, then the wait fails. *)
Lemma add_solution_wait_fails_witness :
  ∃ w', add_solution (CBuff SHM_FD) scenario 4 ready_interrupted = Returns false w'
        ∧ ring_ok w'
        ∧ value (sem_mutex w') = value (sem_mutex ready_interrupted)
        ∧ pending w' = pending ready_interrupted
                       ++ take 2 (to_long (Z.of_nat 4) :: scenario)
        ∧ stored (trace w')
          = stored (trace ready_interrupted)
              ++ take 2 (to_long (Z.of_nat 4) :: scenario)
        ∧ failures (trace w')
          = failures (trace ready_interrupted) ++ [SEM_WAIT SEM_FREE]
        ∧ errno w' = EINTR.
Proof.
  apply (add_solution_wait_fails (CBuff SHM_FD) scenario 4 2 EINTR []
           ready_interrupted).
  - reflexivity.
  - split; vm_compute; try reflexivity; try discriminate;
      split; (discriminate || reflexivity).
  - split; [reflexivity | constructor].
  - reflexivity.
  - lia.
  - vm_compute. lia.
  - vm_compute. discriminate.
Defined.

(** ** A run of the supervisor *)

(** One turn of the loop on a frame that deletes at least one edge. *)
Lemma supervisor_turn_step (cbuff : circular_buffer_t) (m : Z)
    (f rest : list Z) (w : world) :
  ring_ok w → calm w →
  pending w = Z.of_nat (length f) :: f ++ rest →
  proper_frame f →
  let d := Z.quot (Z.of_nat (length f)) 2 in
  ∃ w', supervisor_turn cbuff m w
        = Returns (Continue (if decide (m = -1 ∨ d < m) then d else m)) w'
        ∧ ring_ok w' ∧ calm w'
        ∧ quit w' = quit w
        ∧ pending w' = rest
        ∧ out w' = out w ++ (if decide (m = -1 ∨ d < m)
                             then [OutSolution d] ++ edge_text 0 f ++ [OutNewline]
                             else [])
        ∧ loaded (trace w') = loaded (trace w) ++ Z.of_nat (length f) :: f
        ∧ failures (trace w') = failures (trace w)
        ∧ untouched w w'.
Proof.
  intros Hok Hcalm Hp [Hlen Hpay] d.
  set (h := Z.of_nat (length f)) in *.
  pose proof (frame_bound h f rest w Hok Hp) as Hbound.
  assert (Hh0 : 0 ≤ h ≤ INT_MAX) by (unfold MAX_DATA, INT_MAX in *; lia).
  assert (Hd : 0 < d).
  { unfold d. assert (2 ≤ h) by lia.
    pose proof (Z.quot_le_mono 2 h 2 ltac:(lia) ltac:(lia)) as Hq.
    change (Z.quot 2 2) with 1 in Hq. lia. }
  assert (Hn : Z.to_nat (to_size_t h) = length f).
  { rewrite to_size_t_small by done. lia. }
  destruct (read_buffer_ok cbuff h (f ++ rest) w Hok Hcalm Hp)
    as (Hrd & Hok1 & Hp1).
  destruct (pending_head h (f ++ rest) w Hok Hp) as [_ Hslot].
  destruct (got_same w Hcalm)
    as (Hc1 & _ & _ & _ & Ho1 & _ & Hq1 & _ & _ & _ & _ & Ht1).
  rewrite Hslot in Ht1.
  unfold supervisor_turn; unfold mbind, M_bind at 1.
  rewrite Hrd; rewrite (decide_False (P := h = -1)) by lia.
  fold d. destruct (decide (m = -1 ∨ d < m)) as [Hcase|Hcase].
  - rewrite (decide_False (P := d = 0)) by lia.
    unfold mbind, M_bind at 1. unfold printf at 1, modify at 1.
    set (o := OutSolution d).
    destruct (print_same o (got w)) as (Hpok & Hpp & Hpc & Hpu & Hpt & Hpo & Hpr).
    destruct (print_solution_loop_ok cbuff f rest 0 (print o (got w))
                (Hpok Hok1) (Hpc Hc1) ltac:(by rewrite Hpp) Hpay ltac:(lia)
                ltac:(unfold INT_MAX, MAX_DATA in *; lia))
      as (w2 & Hrun & Hok2 & Hc2 & Hp2 & Hun2 & Hout2 & Htr2).
    unfold mbind, M_bind at 1. unfold print_solution_string.
    rewrite Hn, Hrun.
    exists (print OutNewline w2). split; [reflexivity|].
    destruct (print_same OutNewline w2) as (Hnok & Hnp & Hnc & Hnu & Hnt & Hno & _).
    split; [by apply Hnok|]. split; [by apply Hnc|].
    assert (Htr : trace (print OutNewline w2)
                  = trace w ++ read_events (read_idx (shm w)) (h :: f)).
    { rewrite Hnt, Htr2, Hpt, Hpr, Ht1, <- app_assoc. f_equal.
      rewrite got_read_idx by apply Hok. reflexivity. }
    split_and!.
    + pose proof Hnu as (_ & _ & _ & _ & Hquit3 & _).
      pose proof Hun2 as (_ & _ & _ & _ & Hquit2 & _).
      pose proof Hpu as (_ & _ & _ & _ & Hquit1 & _).
      by rewrite Hquit3, Hquit2, Hquit1.
    + by rewrite Hnp.
    + rewrite Hno, Hout2, Hpo, Ho1, <- !app_assoc. reflexivity.
    + rewrite Htr, loaded_app. f_equal. apply loaded_read_events.
    + rewrite Htr, failures_app, failures_read_events, app_nil_r. reflexivity.
    + eapply untouched_trans; [apply got_untouched|].
      eapply untouched_trans; [exact Hpu|].
      eapply untouched_trans; [exact Hun2 | exact Hnu].
  - destruct (skip_solution_loop_ok cbuff f rest 0 (got w)
                Hok1 Hc1 Hp1 Hpay ltac:(lia)
                ltac:(unfold INT_MAX, MAX_DATA in *; lia))
      as (w2 & Hrun & Hok2 & Hc2 & Hp2 & Hun2 & Hout2 & Htr2).
    unfold mbind, M_bind at 1. unfold skip_solution. rewrite Hn, Hrun.
    exists w2. split; [reflexivity|].
    assert (Htr : trace w2 = trace w ++ read_events (read_idx (shm w)) (h :: f)).
    { rewrite Htr2, Ht1, <- app_assoc. f_equal.
      rewrite got_read_idx by apply Hok. reflexivity. }
    split; [exact Hok2|]. split; [exact Hc2|].
    split_and!.
    + destruct Hun2 as (_ & _ & _ & _ & Hquit & _). rewrite <- Hq1. exact Hquit.
    + exact Hp2.
    + by rewrite Hout2, app_nil_r.
    + rewrite Htr, loaded_app. f_equal. apply loaded_read_events.
    + rewrite Htr, failures_app, failures_read_events, app_nil_r. reflexivity.
    + eapply untouched_trans; [apply got_untouched | exact Hun2].
Qed.


Lemma announced_app (o1 o2 : list output) :
  announced (o1 ++ o2) = announced o1 ++ announced o2.
Proof. apply omap_app. Qed.

Lemma announced_edge_text (vs : list Z) : ∀ i, announced (edge_text i vs) = [].
Proof.
  induction vs as [|v vs IH]; intros i; [done|].
  cbn [edge_text]. unfold announced in *. cbn [omap].
  destruct (decide (Z.rem i 2 = 0)); cbn; apply IH.
Qed.

(** The numbers announced go down, and all of them are below the best the
    loop started with. *)
Lemma report_falling (frames : list (list Z)) :
  ∀ m, falling (announced (report m frames))
       ∧ Forall (λ n, m = -1 ∨ n < m) (announced (report m frames)).
Proof.
  induction frames as [|f fs IH]; intros m; [done|].
  cbn [report]. set (d := Z.quot (Z.of_nat (length f)) 2).
  destruct (decide (m = -1 ∨ d < m)) as [Hcase|Hcase].
  - destruct (IH d) as [IH1 IH2].
    assert (Hd : 0 ≤ d) by (apply Z.quot_pos; lia).
    rewrite !announced_app, announced_edge_text.
    change (announced [OutSolution d]) with [d].
    change (announced [OutNewline]) with (@nil Z).
    cbn [app]. split.
    + destruct (announced (report d fs)) as [|b t] eqn:E; [done|].
      cbn [falling]. split; [|exact IH1].
      inversion IH2 as [|? ? Hb _]; subst. lia.
    + constructor; [done|].
      apply (list.Forall_impl _ _ _ IH2). cbn. intros n Hn. lia.
  - apply IH.
Qed.

Lemma best_positive (frames : list (list Z)) :
  ∀ m, Forall proper_frame frames → m = -1 ∨ 0 < m →
       best m frames = -1 ∨ 0 < best m frames.
Proof.
  induction frames as [|f fs IH]; intros m Hfs Hm; [done|].
  inversion Hfs as [|? ? [Hlen _] Hrest]; subst.
  cbn [best]. apply IH; [done|].
  case_decide; [|done]. right.
  assert (2 ≤ Z.of_nat (length f)) by lia.
  pose proof (Z.quot_le_mono 2 (Z.of_nat (length f)) 2 ltac:(lia) ltac:(lia)) as Hq.
  change (Z.quot 2 2) with 1 in Hq. lia.
Qed.

(** The loop of the supervisor over a sequence of frames at the head of the
    queue: one turn per frame. *)
Lemma supervisor_loop_frames (cbuff : circular_buffer_t) (rest : list Z)
    (fuel : nat) (frames : list (list Z)) :
  ∀ (m : Z) (w : world),
    ring_ok w → calm w → quit w = false →
    pending w = wire frames ++ rest →
    Forall proper_frame frames →
    ∃ w', supervisor_loop (length frames + fuel) cbuff m w
          = supervisor_loop fuel cbuff (best m frames) w'
          ∧ ring_ok w' ∧ calm w' ∧ quit w' = false
          ∧ pending w' = rest
          ∧ out w' = out w ++ report m frames
          ∧ loaded (trace w') = loaded (trace w) ++ wire frames
          ∧ failures (trace w') = failures (trace w)
          ∧ untouched w w'.
Proof.
  induction frames as [|f fs IH]; intros m w Hok Hcalm Hquit Hp Hfs.
  - exists w. cbn. rewrite !app_nil_r.
    split_and!; (done || apply untouched_refl).
  - inversion Hfs as [|? ? Hf Hrest]; subst.
    rewrite wire_cons in Hp. cbn [app] in Hp. rewrite <- app_assoc in Hp.
    destruct (supervisor_turn_step cbuff m f (wire fs ++ rest) w Hok Hcalm Hp Hf)
      as (w1 & Hturn & Hok1 & Hc1 & Hq1 & Hp1 & Ho1 & Hl1 & Hf1 & Hu1).
    set (d := Z.quot (Z.of_nat (length f)) 2) in *.
    destruct (IH (if decide (m = -1 ∨ d < m) then d else m) w1 Hok1 Hc1
                 ltac:(by rewrite Hq1) Hp1 Hrest)
      as (w2 & Hloop & Hok2 & Hc2 & Hq2 & Hp2 & Ho2 & Hl2 & Hf2 & Hu2).
    exists w2. split.
    { cbn [length Nat.add supervisor_loop]. unfold mbind, M_bind at 1.
      unfold get at 1. rewrite Hquit. unfold mbind, M_bind at 1.
      rewrite Hturn. exact Hloop. }
    split; [exact Hok2|]. split; [exact Hc2|]. split; [exact Hq2|].
    split; [exact Hp2|]. split; [|split; [|split]].
    + rewrite Ho2, Ho1. cbn [report]. fold d.
      case_decide; rewrite <- ?app_assoc, ?app_nil_r; reflexivity.
    + rewrite Hl2, Hl1, wire_cons, <- !app_assoc. reflexivity.
    + by rewrite Hf2, Hf1.
    + eapply untouched_trans; [exact Hu1 | exact Hu2].
Qed.

Lemma quit_print_fields (b : bool) (o : output) (w : world) :
  faults (set_quit b (print o w)) = faults w
  ∧ fd_open (set_quit b (print o w)) = fd_open w
  ∧ shm_linked (set_quit b (print o w)) = shm_linked w.
Proof. done. Qed.

(** The turn of the loop on a frame that deletes no edge. *)
Lemma supervisor_turn_zero (cbuff : circular_buffer_t) (m : Z)
    (z rest : list Z) (w : world) :
  ring_ok w → calm w →
  pending w = Z.of_nat (length z) :: z ++ rest →
  (length z ≤ 1)%nat →
  m = -1 ∨ 0 < m →
  ∃ w', supervisor_turn cbuff m w = Returns (Continue 0) w'
        ∧ quit w' = true
        ∧ pending w' = z ++ rest
        ∧ out w' = out w ++ [OutColorable]
        ∧ loaded (trace w') = loaded (trace w) ++ [Z.of_nat (length z)]
        ∧ failures (trace w') = failures (trace w)
        ∧ faults w' = faults w ∧ fd_open w' = fd_open w
        ∧ shm_linked w' = shm_linked w.
Proof.
  intros Hok Hcalm Hp Hz Hm.
  set (h := Z.of_nat (length z)) in *.
  assert (Hh : Z.quot h 2 = 0) by (apply Z.quot_small; lia).
  destruct (read_buffer_ok cbuff h (z ++ rest) w Hok Hcalm Hp) as (Hrd & Hok1 & Hp1).
  destruct (pending_head h (z ++ rest) w Hok Hp) as [_ Hslot].
  destruct (got_same w Hcalm)
    as (Hc1 & _ & _ & _ & Ho1 & _ & Hq1 & Hfa & Hfd & _ & Hsl & Ht1).
  rewrite Hslot in Ht1.
  exists (set_quit true (print OutColorable (got w))).
  destruct (set_quit_same true (print OutColorable (got w)))
    as (Hsp & Hso & Hst & Hsq).
  destruct (print_same OutColorable (got w)) as (_ & Hpp & _ & _ & Hpt & Hpo & _).
  split.
  { unfold supervisor_turn. unfold mbind, M_bind at 1. rewrite Hrd.
    rewrite (decide_False (P := h = -1)) by lia.
    rewrite Hh. rewrite decide_True by lia. rewrite decide_True by done.
    reflexivity. }
  split; [exact Hsq|]. split; [rewrite Hsp, Hpp; exact Hp1|].
  split; [rewrite Hso, Hpo, Ho1; reflexivity|].
  split; [rewrite Hst, Hpt, Ht1, loaded_app; reflexivity|].
  split.
  { rewrite Hst, Hpt, Ht1, failures_app, failures_read_events, app_nil_r.
    reflexivity. }
  destruct (quit_print_fields true OutColorable (got w)) as (-> & -> & ->).
  split; [exact Hfa|]. split; [exact Hfd | exact Hsl].
Qed.

Lemma close_own (n : Z) (w : world) :
  faults w = [] → fd_open w = Some n →
  close n w = Returns 0 (log (Call CLOSE true) (set_fd_open None w)).
Proof.
  intros Hfa Hfd. unfold close, faulty. rewrite Hfa.
  rewrite decide_True by done. reflexivity.
Qed.

(** The end of [main] in the process that owns the buffer: everything is
    closed and removed, and the exit code is [EXIT_SUCCESS]. *)
Lemma supervisor_shutdown_owner (cbuff : circular_buffer_t) (w : world) :
  owner cbuff w →
  ∃ w', supervisor_shutdown cbuff w = Returns EXIT_SUCCESS w'
        ∧ out w' = out w
        ∧ loaded (trace w') = loaded (trace w)
        ∧ halt (shm w') = true
        ∧ shm_linked w' = false
        ∧ names w' = [] ∧ held w' = []
        ∧ fd_open w' = None ∧ mapped w' = false.
Proof.
  intros (Hfa & Hfd & Hsl). destruct cbuff as [n].
  open_world w. cbn in Hfa, Hfd, Hsl. subst.
  destruct lf, hf, lu, hu, lm, hm;
    (eexists; split;
     [unfold supervisor_shutdown, close_cbuff, close_shm, mbind, M_bind;
      cbv -[close]; rewrite (close_own n) by reflexivity; cbv; reflexivity|]);
    (split; [reflexivity|]);
    (split; [cbn [trace]; fold_app; rewrite ?loaded_app; cbn;
             by rewrite ?app_nil_r|]);
    split_and!; reflexivity.
Qed.

(** A run of the supervisor over frames at the head of the queue, the last
    of which deletes no edge. *)
Lemma supervisor_run_reports (cbuff : circular_buffer_t) (m : Z)
    (frames : list (list Z)) (z rest : list Z) (fuel : nat) (w : world) :
  ring_ok w → calm w → quit w = false → owner cbuff w →
  pending w = wire (frames ++ [z]) ++ rest →
  Forall proper_frame frames →
  (length z ≤ 1)%nat →
  m = -1 ∨ 0 < m →
  ∃ w', supervisor_run (length frames + S (S fuel)) cbuff m w
        = Returns EXIT_SUCCESS w'
        ∧ out w' = out w ++ report m frames ++ [OutColorable]
        ∧ falling (announced (report m frames))
        ∧ loaded (trace w')
          = loaded (trace w) ++ wire frames ++ [Z.of_nat (length z)]
        ∧ halt (shm w') = true
        ∧ shm_linked w' = false
        ∧ names w' = [] ∧ held w' = []
        ∧ fd_open w' = None ∧ mapped w' = false.
Proof.
  intros Hok Hcalm Hquit (Hfa & Hfd & Hsl) Hp Hfs Hz Hm.
  assert (Hwire : wire (frames ++ [z]) ++ rest
                  = wire frames ++ Z.of_nat (length z) :: z ++ rest).
  { unfold wire. rewrite map_app, concat_app. cbn. rewrite app_nil_r.
    rewrite <- app_assoc. reflexivity. }
  rewrite Hwire in Hp.
  destruct (supervisor_loop_frames cbuff (Z.of_nat (length z) :: z ++ rest)
              (S (S fuel)) frames m w Hok Hcalm Hquit Hp Hfs)
    as (w1 & Hloop & Hok1 & Hc1 & Hq1 & Hp1 & Ho1 & Hl1 & _ & Hu1).
  destruct (supervisor_turn_zero cbuff (best m frames) z rest w1 Hok1 Hc1 Hp1 Hz
              (best_positive frames m Hfs Hm))
    as (w2 & Hturn & Hq2 & Hp2 & Ho2 & Hl2 & _ & Hfa2 & Hfd2 & Hsl2).
  destruct Hu1 as (_ & _ & _ & _ & _ & Hfa1 & Hfd1 & _ & Hsl1 & _).
  destruct (supervisor_shutdown_owner cbuff w2)
    as (w3 & Hdown & Ho3 & Hl3 & Hrest).
  { split; [by rewrite Hfa2, Hfa1|]. split; [by rewrite Hfd2, Hfd1|].
    by rewrite Hsl2, Hsl1. }
  exists w3. split.
  { unfold supervisor_run. unfold mbind, M_bind at 1. rewrite Hloop.
    cbn [supervisor_loop]. unfold mbind, M_bind at 1. unfold get at 1.
    rewrite Hq1. unfold mbind, M_bind at 1. rewrite Hturn.
    unfold mbind, M_bind at 1. unfold get at 1. rewrite Hq2.
    unfold mret, M_ret. exact Hdown. }
  split; [by rewrite Ho3, Ho2, Ho1, <- app_assoc|].
  split; [apply report_falling|].
  split; [by rewrite Hl3, Hl2, Hl1, <- app_assoc|].
  exact Hrest.
Qed.

(** X11: a run of the supervisor over frames that each delete at least one
    edge, followed by a frame that deletes none.  The supervisor prints a
    frame exactly when it deletes fewer edges than every frame before it, so
    that the numbers announced go down; at the frame without deletions it
    prints that the graph is 3-colorable, reads no further, sets [halt],
    removes the buffer and exits with [EXIT_SUCCESS]. *)
Theorem supervisor_reports_improvements (cbuff : circular_buffer_t) (m : Z)
    (frames : list (list Z)) (z rest : list Z) (fuel : nat) (w : world) :
  ring_ok w → calm w → quit w = false → owner cbuff w →
  pending w = wire (frames ++ [z]) ++ rest →
  Forall proper_frame frames →
  (length z ≤ 1)%nat →
  m = -1 ∨ 0 < m →
  ∃ w', supervisor_run (length frames + S (S fuel)) cbuff m w
        = Returns EXIT_SUCCESS w'
        ∧ out w' = out w ++ report m frames ++ [OutColorable]
        ∧ falling (announced (report m frames))
        ∧ loaded (trace w')
          = loaded (trace w) ++ wire frames ++ [Z.of_nat (length z)]
        ∧ halt (shm w') = true
        ∧ shm_linked w' = false
        ∧ names w' = [] ∧ held w' = []
        ∧ fd_open w' = None ∧ mapped w' = false.
Proof.
  apply supervisor_run_reports.
Qed.

(** Three frames that delete two edges, two edges and one edge, then the
    frame of a proper colouring: the first and the third are printed. *)
Lemma supervisor_reports_improvements_witness :
  ∃ w', supervisor_run (length three_frames + 2) (CBuff SHM_FD) (-1) busy
        = Returns EXIT_SUCCESS w'
        ∧ out w' = out busy ++ report (-1) three_frames ++ [OutColorable]
        ∧ falling (announced (report (-1) three_frames))
        ∧ loaded (trace w')
          = loaded (trace busy) ++ wire three_frames ++ [Z.of_nat (length (@nil Z))]
        ∧ halt (shm w') = true
        ∧ shm_linked w' = false
        ∧ names w' = [] ∧ held w' = []
        ∧ fd_open w' = None ∧ mapped w' = false.
Proof.
  apply (supervisor_reports_improvements (CBuff SHM_FD) (-1) three_frames [] []
           0 busy).
  - split; vm_compute; try reflexivity; try discriminate;
      split; (discriminate || reflexivity).
  - constructor.
  - reflexivity.
  - split; [reflexivity|]. split; reflexivity.
  - vm_compute. reflexivity.
  - repeat constructor; cbn; (lia || discriminate).
  - cbn. lia.
  - left. reflexivity.
Defined.

(** ** The supervisor and a failing wait *)

Lemma refused_fields (s : sem_name) (e : errno_t) (w : world) :
  let w' := posted s (refused s e w) in
  shm w' = shm w ∧ shm_linked w' = shm_linked w
  ∧ (∀ x, linked (sem x w') = linked (sem x w))
  ∧ faults w' = faults w ∧ fd_open w' = fd_open w
  ∧ out w' = out w ∧ errno w' = e
  ∧ quit w' = (if decide (e = EINTR) then true else quit w)
  ∧ trace w' = trace w ++ [Call (SEM_WAIT s) false; Call (SEM_POST s) true].
Proof.
  unfold refused. destruct (decide (e = EINTR)); destruct s; cbn;
    rewrite <- ?app_assoc; split_and!; try done; by intros [].
Qed.

(** X12: SIGINT while the supervisor waits for a word.  The handler sets
    [quit], the wait fails with [EINTR], the loop goes to its test and ends;
    the supervisor reads and prints nothing more, sets [halt], removes the
    buffer and exits with [EXIT_SUCCESS]. *)
Theorem supervisor_sigint (cbuff : circular_buffer_t) (m : Z)
    (rest : list wait_outcome) (fuel : nat) (w : world) :
  waits w = Fail EINTR :: rest →
  quit w = false →
  owner cbuff w →
  ∃ w', supervisor_run (S (S fuel)) cbuff m w = Returns EXIT_SUCCESS w'
        ∧ out w' = out w
        ∧ loaded (trace w') = loaded (trace w)
        ∧ halt (shm w') = true
        ∧ shm_linked w' = false
        ∧ names w' = [] ∧ held w' = []
        ∧ fd_open w' = None ∧ mapped w' = false.
Proof.
  intros Hw Hquit (Hfa & Hfd & Hsl).
  destruct (refused_fields SEM_USED EINTR w)
    as (_ & Hsl1 & _ & Hfa1 & Hfd1 & Ho1 & He1 & Hq1 & Ht1).
  set (w1 := posted SEM_USED (refused SEM_USED EINTR w)) in *.
  destruct (supervisor_shutdown_owner cbuff w1)
    as (w2 & Hdown & Ho2 & Hl2 & Hrest).
  { split; [by rewrite Hfa1|]. split; [by rewrite Hfd1 | by rewrite Hsl1]. }
  exists w2. split.
  { unfold supervisor_run. unfold mbind, M_bind at 1.
    cbn [supervisor_loop]. unfold mbind, M_bind at 1. unfold get at 1.
    rewrite Hquit. unfold mbind, M_bind at 1.
    unfold supervisor_turn. unfold mbind, M_bind at 1.
    rewrite (read_buffer_refused cbuff EINTR rest) by done. fold w1.
    rewrite decide_True by done.
    unfold mbind, M_bind at 1. unfold get at 1. rewrite He1.
    rewrite decide_True by done. unfold mret, M_ret.
    unfold mbind, M_bind at 1. unfold get at 1. rewrite Hq1.
    rewrite decide_True by done. exact Hdown. }
  split; [by rewrite Ho2, Ho1|].
  split; [|exact Hrest].
  rewrite Hl2, Ht1, loaded_app. cbn. by rewrite app_nil_r.
Qed.

Lemma supervisor_sigint_witness :
  ∃ w', supervisor_run 2 (CBuff SHM_FD) (-1) ready_sigint = Returns EXIT_SUCCESS w'
        ∧ out w' = out ready_sigint
        ∧ loaded (trace w') = loaded (trace ready_sigint)
        ∧ halt (shm w') = true
        ∧ shm_linked w' = false
        ∧ names w' = [] ∧ held w' = []
        ∧ fd_open w' = None ∧ mapped w' = false.
Proof.
  apply (supervisor_sigint (CBuff SHM_FD) (-1) [] 0 ready_sigint).
  - reflexivity.
  - reflexivity.
  - split; [reflexivity|]. split; reflexivity.
Defined.

(** X13: a wait of the supervisor that fails with anything but [EINTR].
    The supervisor leaves through [exit(EXIT_FAILURE)] after closing the
    buffer the way a generator does: [halt] is not set and no name is
    removed, so the region and the three semaphores stay behind and the
    generators are not told to stop. *)
Theorem supervisor_wait_error (cbuff : circular_buffer_t) (m : Z) (e : errno_t)
    (rest : list wait_outcome) (fuel : nat) (w : world) :
  waits w = Fail e :: rest →
  e ≠ EINTR →
  quit w = false →
  ∃ w', supervisor_run (S fuel) cbuff m w = Returns EXIT_FAILURE w'
        ∧ (out w' = out w ++ [ErrInterrupt] ∨ out w' = out w ++ [ErrClose])
        ∧ shm w' = shm w
        ∧ shm_linked w' = shm_linked w
        ∧ (∀ s, linked (sem s w') = linked (sem s w))
        ∧ loaded (trace w') = loaded (trace w).
Proof.
  intros Hw He Hquit.
  destruct (refused_fields SEM_USED e w)
    as (Hs1 & Hsl1 & Hln1 & _ & _ & Ho1 & He1 & _ & Ht1).
  set (w1 := posted SEM_USED (refused SEM_USED e w)) in *.
  destruct (close_cbuff_client_shared cbuff w1) as (b & w2 & E & Hs2 & Hsl2 & Hln2).
  destruct (close_cbuff_steps cbuff false w1)
    as (b' & w2' & e1 & e2 & E' & T & _ & _ & _ & _ & O & L).
  rewrite E in E'. inversion E'; subst b' w2'. clear E'.
  exists (print (if b then ErrInterrupt else ErrClose) w2). split.
  { unfold supervisor_run. unfold mbind, M_bind at 1.
    cbn [supervisor_loop]. unfold mbind, M_bind at 1. unfold get at 1.
    rewrite Hquit. unfold mbind, M_bind at 1.
    unfold supervisor_turn. unfold mbind, M_bind at 1.
    rewrite (read_buffer_refused cbuff e rest) by done. fold w1.
    rewrite decide_True by done.
    unfold mbind, M_bind at 1. unfold get at 1. rewrite He1.
    rewrite decide_False by done.
    unfold mbind, M_bind at 1. rewrite E. by destruct b. }
  split.
  { change (out (print (if b then ErrInterrupt else ErrClose) w2))
      with (out w2 ++ [if b then ErrInterrupt else ErrClose]).
    rewrite O, Ho1. destruct b; [by left | by right]. }
  change (shm (print (if b then ErrInterrupt else ErrClose) w2)) with (shm w2).
  change (shm_linked (print (if b then ErrInterrupt else ErrClose) w2))
    with (shm_linked w2).
  change (trace (print (if b then ErrInterrupt else ErrClose) w2)) with (trace w2).
  split; [by rewrite Hs2, Hs1|]. split; [by rewrite Hsl2, Hsl1|].
  split.
  - intros s.
    change (sem s (print (if b then ErrInterrupt else ErrClose) w2))
      with (sem s w2).
    destruct (Hln2 s) as [-> _]. apply Hln1.
  - rewrite T, loaded_app, L, app_nil_r, Ht1, loaded_app. cbn.
    by rewrite app_nil_r.
Qed.

Lemma supervisor_wait_error_witness :
  ∃ w', supervisor_run 1 (CBuff SHM_FD) (-1) (set_waits [Fail EINVAL] ready)
        = Returns EXIT_FAILURE w'
        ∧ (out w' = out (set_waits [Fail EINVAL] ready) ++ [ErrInterrupt]
           ∨ out w' = out (set_waits [Fail EINVAL] ready) ++ [ErrClose])
        ∧ shm w' = shm (set_waits [Fail EINVAL] ready)
        ∧ shm_linked w' = shm_linked (set_waits [Fail EINVAL] ready)
        ∧ (∀ s, linked (sem s w')
                = linked (sem s (set_waits [Fail EINVAL] ready)))
        ∧ loaded (trace w') = loaded (trace (set_waits [Fail EINVAL] ready)).
Proof.
  apply (supervisor_wait_error (CBuff SHM_FD) (-1) EINVAL [] 0
           (set_waits [Fail EINVAL] ready)).
  - reflexivity.
  - discriminate.
  - reflexivity.
Defined.

(** X14: [main] of the supervisor on a system where none of the names
    exists.  Arguments on the command line are answered with the usage
    message and nothing else: the supervisor goes on, creates the buffer and
    waits on [used] for the first word of a generator. *)
Theorem main_waits_for_generators (fuel : nat) (argc : Z) (w : world) :
  shm_linked w = false →
  (∀ s, linked (sem s w) = false) →
  faults w = [] → calm w → quit w = false →
  ∃ w', main (S fuel) argc w = Blocked w'
        ∧ out w' = out w ++ (if decide (argc > 1) then [ErrUsage] else [])
        ∧ ring_ok w' ∧ pending w' = []
        ∧ shm_linked w' = true
        ∧ names w' = [SEM_FREE; SEM_USED; SEM_MUTEX]
        ∧ held w' = [SEM_FREE; SEM_USED; SEM_MUTEX]
        ∧ loaded (trace w') = loaded (trace w).
Proof.
  intros H1 H2 H3 Hcalm Hq.
  set (o := if decide (argc > 1) then [ErrUsage] else []).
  set (w0 := if decide (argc > 1) then print ErrUsage w else w).
  assert (Hw0 : shm_linked w0 = shm_linked w ∧ (∀ s, sem s w0 = sem s w)
                ∧ faults w0 = faults w ∧ waits w0 = waits w
                ∧ quit w0 = quit w ∧ out w0 = out w ++ o
                ∧ trace w0 = trace w).
  { unfold w0, o. case_decide; cbn; rewrite ?app_nil_r; split_and!; try done;
      by intros []. }
  destruct Hw0 as (Hsl0 & Hsem0 & Hfa0 & Hwa0 & Hq0 & Ho0 & Ht0).
  destruct (open_cbuff_fresh w0) as (w1 & E & Hok & Hp & (Vf & Vu & Vm) & Hh & Hl
      & Hn & Hd & _ & (Hw & _) & (Hq1 & Ho1 & _) & Ht1).
  { by rewrite Hsl0. }
  { intros s. by rewrite Hsem0. }
  { by rewrite Hfa0. }
  assert (Hc1 : calm w1) by (unfold calm; by rewrite Hw, Hwa0).
  set (w2 := set_waits (tail (waits w1)) w1).
  exists w2. split.
  { unfold main. unfold mbind, M_bind at 1.
    replace ((if decide (argc > 1) then printf ErrUsage else mret tt) w)
      with (Returns tt w0 : outcome unit) by (unfold w0; by case_decide).
    unfold mbind, M_bind at 1. rewrite E.
    unfold supervisor_run. unfold mbind, M_bind at 1.
    cbn [supervisor_loop]. unfold mbind, M_bind at 1. unfold get at 1.
    rewrite Hq1, Hq0, Hq. unfold mbind, M_bind at 1.
    unfold supervisor_turn. unfold mbind, M_bind at 1.
    unfold read_buffer. unfold mbind, M_bind at 1.
    rewrite (sem_wait_blocks SEM_USED w1) by (done || (cbn; lia)).
    reflexivity. }
  change (out w2) with (out w1). change (shm_linked w2) with (shm_linked w1).
  change (trace w2) with (trace w1).
  split; [by rewrite Ho1, Ho0|].
  split; [by destruct Hok|].
  split; [exact Hp|]. split; [exact Hl|]. split; [exact Hn|].
  split; [exact Hd|].
  rewrite Ht1, loaded_app, Ht0. cbn. by rewrite app_nil_r.
Qed.

Lemma main_waits_for_generators_witness :
  ∃ w', main 1 2 boot = Blocked w'
        ∧ out w' = out boot ++ (if decide (2 > 1) then [ErrUsage] else [])
        ∧ ring_ok w' ∧ pending w' = []
        ∧ shm_linked w' = true
        ∧ names w' = [SEM_FREE; SEM_USED; SEM_MUTEX]
        ∧ held w' = [SEM_FREE; SEM_USED; SEM_MUTEX]
        ∧ loaded (trace w') = loaded (trace boot).
Proof.
  apply (main_waits_for_generators 0 2 boot).
  - reflexivity.
  - by intros [].
  - reflexivity.
  - constructor.
  - reflexivity.
Defined.

(** * graph.c *)

Section graph.
Import Graph.

Lemma incr_ok (i : Z) : i < INT_MAX → incr i = Some (i + 1).
Proof. intros Hi. unfold incr. rewrite decide_False by lia. reflexivity. Qed.

Lemma find_node_loop_first (x : Z) (ns : list node_t) :
  ∀ i, 0 ≤ i → i + Z.of_nat (length ns) ≤ INT_MAX →
       find_node_loop ns i x
       = Some ((λ r, (Z.to_nat i + r.1)%nat) <$> list_find (λ n, id n = x) ns).
Proof.
  induction ns as [|n ns IH]; intros i Hi Hmax; [done|].
  cbn [find_node_loop list_find length] in *.
  destruct (decide (id n = x)) as [Hn|Hn].
  - cbn. do 2 f_equal. lia.
  - rewrite incr_ok by lia. cbn [mbind option_bind].
    rewrite IH by lia. f_equal.
    destruct (list_find (λ n0, id n0 = x) ns) as [[p m]|]; [|done].
    cbn. f_equal. lia.
Qed.

(** X15: [find_node_by_id] returns the first node of the array that has the
    identifier, and [NULL] when there is none. *)
Theorem find_node_by_id_first (graph : graph_t) (x : Z) :
  node_count graph ≤ INT_MAX →
  find_node_by_id graph x
  = Some (fst <$> list_find (λ n, id n = x) (nodes graph)).
Proof.
  intros Hmax. unfold find_node_by_id.
  rewrite find_node_loop_first by (done || (unfold node_count in Hmax; lia)).
  reflexivity.
Qed.

Lemma find_node_by_id_first_witness :
  find_node_by_id kite 2
  = Some (fst <$> list_find (λ n, id n = 2) (nodes kite)).
Proof.
  apply (find_node_by_id_first kite 2). vm_compute. discriminate.
Defined.

Lemma color_loop_colors (rand : nat → Z) (ns : list node_t) :
  ∀ (k : nat) (i : Z), 0 ≤ i → i + Z.of_nat (length ns) ≤ INT_MAX →
    color_loop rand k ns i
    = Some (imap (λ j n, Node (Z.rem (rand (k + j)%nat) 3) (id n)) ns,
            (k + length ns)%nat).
Proof.
  induction ns as [|n ns IH]; intros k i Hi Hmax.
  - cbn. do 2 f_equal. lia.
  - cbn [color_loop length imap] in *. rewrite incr_ok by lia.
    cbn [mbind option_bind]. rewrite IH by lia. cbn.
    rewrite Nat.add_0_r.
    replace (k + S (length ns))%nat with (S (k + length ns)) by lia.
    do 3 f_equal. apply imap_ext. intros j m _. cbn.
    replace (k + S j)%nat with (S (k + j)) by lia. reflexivity.
Qed.

Lemma imap_keeps_id (f : nat → Z) (ns : list node_t) :
  map id (imap (λ j n, Node (f j) (id n)) ns) = map id ns.
Proof.
  revert f. induction ns as [|n ns IH]; intros f; [done|].
  cbn. f_equal. apply (IH (f ∘ S)).
Qed.

(** X16: [color_randomly] gives node [j] the colour [rand() % 3] of the
    [j]-th call of [rand] it makes, one call per node; whatever the numbers
    drawn, every node ends with one of the three colours of the enum, and
    identifiers and edges are left alone. *)
Theorem color_randomly_colors (rand : nat → Z) (k : nat) (graph : graph_t) :
  node_count graph ≤ INT_MAX →
  (∀ j, 0 ≤ rand j) →
  ∃ graph',
    color_randomly rand k graph
    = Some (graph', (k + length (nodes graph))%nat)
    ∧ nodes graph'
      = imap (λ j n, Node (Z.rem (rand (k + j)%nat) 3) (id n)) (nodes graph)
    ∧ map id (nodes graph') = map id (nodes graph)
    ∧ edges graph' = edges graph
    ∧ Forall (λ n, 0 ≤ color n ≤ 2) (nodes graph').
Proof.
  intros Hmax Hrand. unfold color_randomly, node_count in *.
  rewrite color_loop_colors by (done || lia). cbn.
  eexists. split; [reflexivity|]. cbn. split; [reflexivity|].
  split; [|split; [reflexivity|]].
  - apply imap_keeps_id.
  - apply Forall_lookup. intros j n Hn.
    rewrite list_lookup_imap in Hn.
    destruct (nodes graph !! j) as [m|]; [|done].
    cbn in Hn. inversion Hn; subst. cbn.
    pose proof (Hrand (k + j)%nat) as Hr.
    pose proof (Z.rem_bound_pos (rand (k + j)%nat) 3 Hr ltac:(lia)). lia.
Qed.

Lemma color_randomly_colors_witness :
  ∃ graph',
    color_randomly Z.of_nat 5 kite = Some (graph', (5 + length (nodes kite))%nat)
    ∧ nodes graph'
      = imap (λ j n, Node (Z.rem (Z.of_nat (5 + j)%nat) 3) (id n)) (nodes kite)
    ∧ map id (nodes graph') = map id (nodes kite)
    ∧ edges graph' = edges kite
    ∧ Forall (λ n, 0 ≤ color n ≤ 2) (nodes graph').
Proof.
  apply (color_randomly_colors Z.of_nat 5 kite).
  - vm_compute. discriminate.
  - intros j. lia.
Defined.

Lemma store_ok (buffer : list Z) (p : nat) (v : Z) :
  (p < length buffer)%nat →
  store buffer (Z.of_nat p) v = Some (<[p := v]> buffer).
Proof.
  intros Hp. unfold store. rewrite decide_True by lia.
  by rewrite Nat2Z.id.
Qed.

Lemma insert_two (buffer : list Z) (p : nat) (a b : Z) :
  (p + 2 ≤ length buffer)%nat →
  <[S p := b]> (<[p := a]> buffer)
  = take p buffer ++ [a; b] ++ drop (p + 2) buffer.
Proof.
  revert p. induction buffer as [|x buffer IH]; intros p Hp; cbn in Hp; [lia|].
  destruct p as [|p].
  - destruct buffer as [|y buffer]; cbn in *; [lia|]. by rewrite drop_0.
  - cbn. f_equal. apply IH. lia.
Qed.

Lemma conflicts_cons (ns : list node_t) (e : edge_t) (es : list edge_t)
    (n1 n2 : node_t) :
  ns !! node1 e = Some n1 → ns !! node2 e = Some n2 →
  conflicts ns (e :: es)
  = if decide (color n1 = color n2) then e :: conflicts ns es
    else conflicts ns es.
Proof.
  intros Hn1 Hn2. unfold conflicts. rewrite filter_cons.
  unfold color_at. rewrite Hn1, Hn2. cbn.
  destruct (decide (color n1 = color n2)) as [Hc|Hc].
  - rewrite decide_True by (by f_equal). reflexivity.
  - rewrite decide_False by (intros [=]; done). reflexivity.
Qed.

Lemma deletion_loop_conflicts (ns : list node_t) (es : list edge_t) :
  ∀ (i : Z) (p : nat) (size : Z) (buffer : list Z),
    Forall (λ e, (node1 e < length ns)%nat ∧ (node2 e < length ns)%nat) es →
    0 ≤ i → i + Z.of_nat (length es) ≤ INT_MAX →
    Z.of_nat (p + 2 * length (conflicts ns es)) ≤ INT_MAX →
    (p + 2 * length (conflicts ns es) ≤ length buffer)%nat →
    deletion_loop ns es i (Z.of_nat p) size buffer
    = Some (size + Z.of_nat (length (conflicts ns es)),
            take p buffer ++ flatten ns (conflicts ns es)
              ++ drop (p + 2 * length (conflicts ns es)) buffer).
Proof.
  induction es as [|e es IH]; intros i p size buffer Hes Hi Hmax Hpos Hroom.
  - cbn. rewrite Nat.add_0_r, take_drop, Z.add_0_r. reflexivity.
  - inversion Hes as [|? ? [H1 H2] Hrest]; subst.
    destruct (lookup_lt_is_Some_2 ns (node1 e) H1) as [n1 Hn1].
    destruct (lookup_lt_is_Some_2 ns (node2 e) H2) as [n2 Hn2].
    cbn [deletion_loop length] in *. rewrite Hn1, Hn2. cbn [mbind option_bind].
    rewrite (conflicts_cons ns e es n1 n2 Hn1 Hn2) in *.
    destruct (decide (color n1 = color n2)) as [Hc|Hc].
    + cbn [length] in Hpos, Hroom.
      rewrite (incr_ok i) by lia.
      rewrite store_ok by lia. cbn [mbind option_bind].
      rewrite (incr_ok (Z.of_nat p)) by lia. cbn [mbind option_bind].
      replace (Z.of_nat p + 1) with (Z.of_nat (S p)) by lia.
      rewrite store_ok by (rewrite length_insert; lia). cbn [mbind option_bind].
      rewrite (incr_ok (Z.of_nat (S p))) by lia. cbn [mbind option_bind].
      replace (Z.of_nat (S p) + 1) with (Z.of_nat (p + 2)) by lia.
      rewrite IH; [|done|lia|lia|lia|rewrite !length_insert; lia].
      rewrite insert_two by lia. cbn [length].
      f_equal. f_equal; [lia|].
      assert (Hpre : length (take p buffer ++ [id n1; id n2]) = (p + 2)%nat).
      { rewrite length_app, length_take. cbn. lia. }
      cbn [flatten flat_map]. unfold id_at at 1 2. rewrite Hn1, Hn2.
      change (default 0 (id <$> Some n1)) with (id n1).
      change (default 0 (id <$> Some n2)) with (id n2).
      rewrite (app_assoc (take p buffer) [id n1; id n2] (drop (p + 2) buffer)).
      rewrite take_app_length' by done.
      rewrite drop_app_add' by done.
      rewrite drop_drop, <- !app_assoc. cbn [app].
      fold (flatten ns (conflicts ns es)).
      replace (p + 2 * S (length (conflicts ns es)))%nat
        with (p + 2 + 2 * length (conflicts ns es))%nat by lia.
      reflexivity.
    + cbn [mbind option_bind].
      rewrite incr_ok by lia. cbn [mbind option_bind].
      rewrite IH; [reflexivity|done|lia|lia|lia|lia].
Qed.

(** X17: [get_deletion_edges] returns the number of edges whose endpoints
    have the same colour and writes the identifiers of their endpoints, two
    per edge and in the order of the edges, to the beginning of [buffer];
    the rest of [buffer] stays as it was.  The result is 0 exactly when the
    colouring is proper. *)
Theorem get_deletion_edges_conflicts (graph : graph_t) (buffer : list Z) :
  wired graph →
  edge_count graph ≤ INT_MAX →
  (2 * length (conflicts (nodes graph) (edges graph)) ≤ length buffer)%nat →
  Z.of_nat (length buffer) ≤ INT_MAX →
  ∃ size buffer',
    get_deletion_edges graph buffer = Some (size, buffer')
    ∧ size = Z.of_nat (length (conflicts (nodes graph) (edges graph)))
    ∧ 0 ≤ size ≤ edge_count graph
    ∧ (size = 0 ↔ conflicts (nodes graph) (edges graph) = [])
    ∧ buffer' = flatten (nodes graph) (conflicts (nodes graph) (edges graph))
                ++ drop (Z.to_nat (2 * size)) buffer
    ∧ length buffer' = length buffer.
Proof.
  intros Hw Hmax Hroom Hlen. unfold wired, edge_count in *.
  set (c := conflicts (nodes graph) (edges graph)) in *.
  assert (Hc : (length c ≤ length (edges graph))%nat).
  { unfold c, conflicts. apply length_filter. }
  exists (Z.of_nat (length c)),
         (flatten (nodes graph) c ++ drop (2 * length c) buffer).
  split.
  { unfold get_deletion_edges. change 0 with (Z.of_nat 0) at 2.
    rewrite (deletion_loop_conflicts (nodes graph) (edges graph) 0 0 0 buffer)
      by (done || (fold c; lia)).
    fold c. reflexivity. }
  split; [reflexivity|]. split; [lia|]. split.
  { split; [|intros ->; reflexivity].
    intros H0. destruct c; [done|]. cbn in H0. lia. }
  split; [do 2 f_equal; lia|].
  rewrite length_app, length_drop.
  assert (length (flatten (nodes graph) c) = (2 * length c)%nat) as ->; [|lia].
  unfold flatten. clear. induction c as [|e c IH]; [done|].
  cbn [flat_map length app]. rewrite IH. lia.
Qed.

(** The kite with nodes 0 and 1 in one colour and nodes 2 and 3 in another:
    the edges 0 - 1 and 2 - 3 have to go. *)
Lemma get_deletion_edges_conflicts_witness :
  ∃ size buffer',
    get_deletion_edges (Graph [Node 1 0; Node 1 1; Node 2 2; Node 2 3] (edges kite))
      (replicate 8 7)
    = Some (size, buffer')
    ∧ size = Z.of_nat (length (conflicts [Node 1 0; Node 1 1; Node 2 2; Node 2 3]
                                 (edges kite)))
    ∧ 0 ≤ size ≤ edge_count (Graph [Node 1 0; Node 1 1; Node 2 2; Node 2 3]
                               (edges kite))
    ∧ (size = 0 ↔ conflicts [Node 1 0; Node 1 1; Node 2 2; Node 2 3] (edges kite)
                  = [])
    ∧ buffer' = flatten [Node 1 0; Node 1 1; Node 2 2; Node 2 3]
                  (conflicts [Node 1 0; Node 1 1; Node 2 2; Node 2 3] (edges kite))
                ++ drop (Z.to_nat (2 * size)) (replicate 8 7)
    ∧ length buffer' = length (replicate 8 7).
Proof.
  apply (get_deletion_edges_conflicts
           (Graph [Node 1 0; Node 1 1; Node 2 2; Node 2 3] (edges kite))
           (replicate 8 7)).
  - repeat constructor; cbn; lia.
  - vm_compute. discriminate.
  - vm_compute. lia.
  - vm_compute. discriminate.
Defined.

Lemma store_length (buffer buffer' : list Z) (pos v : Z) :
  store buffer pos v = Some buffer' →
  length buffer' = length buffer ∧ 0 ≤ pos < Z.of_nat (length buffer).
Proof.
  unfold store. case_decide; [|done]. intros [= <-].
  by rewrite length_insert.
Qed.

Lemma incr_inv (i j : Z) : incr i = Some j → j = i + 1.
Proof. unfold incr. case_decide; [done|]. by intros [= <-]. Qed.

Lemma deletion_loop_overflow (ns : list node_t) (es : list edge_t) :
  ∀ (i pos size : Z) (buffer : list Z),
    Forall (λ e, (node1 e < length ns)%nat ∧ (node2 e < length ns)%nat) es →
    pos ≤ Z.of_nat (length buffer) →
    Z.of_nat (length buffer) < pos + 2 * Z.of_nat (length (conflicts ns es)) →
    deletion_loop ns es i pos size buffer = None.
Proof.
  induction es as [|e es IH]; intros i pos size buffer Hes Hpos Hshort.
  - cbn in Hshort. lia.
  - inversion Hes as [|? ? [H1 H2] Hrest]; subst.
    destruct (lookup_lt_is_Some_2 ns (node1 e) H1) as [n1 Hn1].
    destruct (lookup_lt_is_Some_2 ns (node2 e) H2) as [n2 Hn2].
    cbn [deletion_loop]. rewrite Hn1, Hn2. cbn [mbind option_bind].
    rewrite (conflicts_cons ns e es n1 n2 Hn1 Hn2) in Hshort.
    destruct (decide (color n1 = color n2)) as [Hc|Hc].
    + cbn [length] in Hshort.
      destruct (store buffer pos (id n1)) as [b1|] eqn:E1; [|done].
      destruct (store_length _ _ _ _ E1) as [L1 R1].
      cbn [mbind option_bind].
      destruct (incr pos) as [p1|] eqn:E2; [|done].
      apply incr_inv in E2. subst p1. cbn [mbind option_bind].
      destruct (store b1 (pos + 1) (id n2)) as [b2|] eqn:E3; [|done].
      destruct (store_length _ _ _ _ E3) as [L3 R3].
      cbn [mbind option_bind].
      destruct (incr (pos + 1)) as [p2|] eqn:E4; [|done].
      apply incr_inv in E4. subst p2. cbn [mbind option_bind].
      destruct (incr i) as [i'|]; [|done]. cbn [mbind option_bind].
      apply IH; [done|lia|lia].
    + cbn [mbind option_bind].
      destruct (incr i) as [i'|]; [|done]. cbn [mbind option_bind].
      apply IH; [done|lia|lia].
Qed.

(** X18: the caller has to provide room for two words per edge that has to
    go: on an array shorter than that [get_deletion_edges] writes beyond its
    end, which is undefined behaviour. *)
Theorem get_deletion_edges_overflow (graph : graph_t) (buffer : list Z) :
  wired graph →
  (length buffer < 2 * length (conflicts (nodes graph) (edges graph)))%nat →
  get_deletion_edges graph buffer = None.
Proof.
  intros Hw Hshort. unfold get_deletion_edges.
  apply deletion_loop_overflow; [exact Hw|lia|lia].
Qed.

Lemma get_deletion_edges_overflow_witness :
  get_deletion_edges kite [7; 7; 7; 7; 7; 7] = None.
Proof.
  apply (get_deletion_edges_overflow kite [7; 7; 7; 7; 7; 7]).
  - repeat constructor; cbn; lia.
  - vm_compute. lia.
Defined.

Lemma find_node_loop_self (ns : list node_t) (p : nat) (n : node_t) :
  NoDup (map id ns) → ns !! p = Some n →
  Z.of_nat (length ns) ≤ INT_MAX →
  find_node_loop ns 0 (id n) = Some (Some p).
Proof.
  intros Hnd Hp Hmax.
  rewrite find_node_loop_first by lia.
  assert (list_find (λ m, id m = id n) ns = Some (p, n)) as ->; [|done].
  apply list_find_Some. split; [done|]. split; [done|].
  intros j y Hj Hlt Hy.
  assert (j = p); [|lia].
  apply (NoDup_lookup (map id ns) j p (id n)); [done|..].
  - by rewrite list_lookup_fmap, Hj, <- Hy.
  - by rewrite list_lookup_fmap, Hp.
Qed.

Lemma copy_loop_same (ns : list node_t) (es : list edge_t) :
  ∀ i, NoDup (map id ns) →
       Forall (λ e, (node1 e < length ns)%nat ∧ (node2 e < length ns)%nat) es →
       Z.of_nat (length ns) ≤ INT_MAX →
       0 ≤ i → i + Z.of_nat (length es) ≤ INT_MAX →
       copy_loop ns ns es i = Some (Some es).
Proof.
  induction es as [|e es IH]; intros i Hnd Hes Hns Hi Hmax; [done|].
  inversion Hes as [|? ? [H1 H2] Hrest]; subst.
  destruct (lookup_lt_is_Some_2 ns (node1 e) H1) as [n1 Hn1].
  destruct (lookup_lt_is_Some_2 ns (node2 e) H2) as [n2 Hn2].
  cbn [copy_loop length] in *. rewrite Hn1, Hn2. cbn [mbind option_bind].
  rewrite (find_node_loop_self ns (node1 e) n1) by done.
  cbn [mbind option_bind].
  rewrite (find_node_loop_self ns (node2 e) n2) by done.
  cbn [mbind option_bind].
  rewrite incr_ok by lia. cbn [mbind option_bind].
  rewrite IH by (done || lia). cbn. by destruct e.
Qed.

(** X19: [copy] of a graph whose nodes have distinct identifiers is the
    graph itself: looking the endpoints of an edge up by their identifiers
    among the copied nodes finds the nodes the edge pointed to. *)
Theorem copy_same (graph : graph_t) :
  wired graph → distinct graph →
  node_count graph ≤ INT_MAX → edge_count graph ≤ INT_MAX →
  copy graph = Some (Some graph).
Proof.
  intros Hw Hd Hn He. unfold copy, wired, distinct, node_count, edge_count in *.
  rewrite copy_loop_same by (done || lia). cbn. by destruct graph.
Qed.

Lemma copy_same_witness : copy kite = Some (Some kite).
Proof.
  apply (copy_same kite).
  - repeat constructor; cbn; lia.
  - unfold distinct. apply (bool_decide_unpack _). vm_compute. exact I.
  - vm_compute. discriminate.
  - vm_compute. discriminate.
Defined.

End graph.

(** * generator.c *)

Section generator.
Import Ascii.
Import Graph.
Import Generator.

(** ** Reading the arguments *)

Lemma code_numeral (d : Z) :
  0 ≤ d ≤ 9 → code (ascii_of_N (Z.to_N (48 + d))) = 48 + d.
Proof.
  intros Hd. unfold code. rewrite N_ascii_embedding by lia. lia.
Qed.

Lemma numeral_chars (ds : list Z) :
  Forall (λ d, 0 ≤ d ≤ 9) ds →
  Forall (λ c, isdigit c = true ∧ is_delim c = false ∧ isspace c = false
               ∧ code c ≠ 43) (numeral ds).
Proof.
  induction 1 as [|d ds Hd _ IH]; [constructor|].
  cbn. constructor; [|exact IH].
  unfold isdigit, is_delim, isspace. rewrite code_numeral by done.
  rewrite bool_decide_eq_true, !bool_decide_eq_false. lia.
Qed.

Lemma numeral_length (ds : list Z) : length (numeral ds) = length ds.
Proof. unfold numeral. apply List.length_map. Qed.

Lemma span_app (f : ascii → bool) (s t : cstring) :
  Forall (λ c, f c = true) s → span f (s ++ t) = (length s + span f t)%nat.
Proof.
  induction 1 as [|c s Hc _ IH]; [done|]. cbn. by rewrite Hc, IH.
Qed.

Lemma span_all (f : ascii → bool) (s : cstring) :
  Forall (λ c, f c = true) s → span f s = length s.
Proof.
  intros H. rewrite <- (app_nil_r s) at 1. rewrite span_app by done. cbn. lia.
Qed.

Lemma span_stop (f : ascii → bool) (c : ascii) (s : cstring) :
  f c = false → span f (c :: s) = O.
Proof. intros H. cbn. by rewrite H. Qed.

Lemma span_le (f : ascii → bool) (s : cstring) : (span f s ≤ length s)%nat.
Proof. induction s as [|c s IH]; cbn; [lia|]. destruct (f c); cbn; lia. Qed.

Lemma span_take (f : ascii → bool) (s : cstring) :
  Forall (λ c, f c = true) (take (span f s) s).
Proof.
  induction s as [|c s IH]; cbn; [constructor|].
  destruct (f c) eqn:E; cbn; [|constructor]. by constructor.
Qed.

Lemma digits_numeral (ds : list Z) :
  Forall (λ d, 0 ≤ d ≤ 9) ds →
  ∀ acc, digits acc (numeral ds) = fold_left (λ a d, a * 10 + d) ds acc.
Proof.
  induction 1 as [|d ds Hd _ IH]; intros acc; [done|].
  cbn. replace (isdigit _) with true.
  - rewrite code_numeral by done. rewrite IH. do 2 f_equal. lia.
  - symmetry. unfold isdigit. rewrite code_numeral by done.
    rewrite bool_decide_eq_true. lia.
Qed.

Lemma fold_digits_nonneg (ds : list Z) :
  Forall (λ d, 0 ≤ d ≤ 9) ds →
  ∀ acc, 0 ≤ acc → 0 ≤ fold_left (λ a d, a * 10 + d) ds acc.
Proof.
  induction 1 as [|d ds Hd _ IH]; intros acc Hacc; [done|].
  cbn. apply IH. lia.
Qed.

(** [strtol] on a sequence of decimal digits. *)
Lemma strtol_numeral (ds : list Z) :
  ds ≠ [] → Forall (λ d, 0 ≤ d ≤ 9) ds →
  strtol (numeral ds) = (Z.min LONG_MAX (number ds), length ds).
Proof.
  intros Hne Hds. pose proof (numeral_chars ds Hds) as Hch.
  destruct ds as [|d ds]; [done|].
  inversion Hch as [|c s (Hdig & Hdel & Hsp & Hplus) Hrest]; subst.
  unfold strtol.
  change (numeral (d :: ds)) with (ascii_of_N (Z.to_N (48 + d)) :: numeral ds) in *.
  rewrite (span_stop isspace) by done. cbn [drop].
  assert (Hminus : code (ascii_of_N (Z.to_N (48 + d))) ≠ 45).
  { unfold is_delim in Hdel. by rewrite bool_decide_eq_false in Hdel. }
  rewrite (bool_decide_eq_false_2 _ Hminus), (bool_decide_eq_false_2 _ Hplus).
  cbn [drop].
  change (ascii_of_N (Z.to_N (48 + d)) :: numeral ds) with (numeral (d :: ds)).
  rewrite span_all.
  2: { eapply list.Forall_impl; [exact (numeral_chars (d :: ds) Hds)|].
       cbn. tauto. }
  rewrite numeral_length.
  rewrite decide_False by (cbn; lia).
  rewrite digits_numeral by done. fold (number (d :: ds)).
  pose proof (fold_digits_nonneg (d :: ds) Hds 0 ltac:(lia)) as Hn.
  fold (number (d :: ds)) in Hn.
  cbn [Nat.add]. f_equal. unfold LONG_MIN, LONG_MAX. lia.
Qed.

Lemma digits_nonneg (s : cstring) : ∀ acc, 0 ≤ acc → 0 ≤ digits acc s.
Proof.
  induction s as [|c s IH]; intros acc Hacc; [done|].
  cbn. destruct (isdigit c) eqn:E; [|done].
  apply IH. unfold isdigit in E. rewrite bool_decide_eq_true in E. lia.
Qed.

(** No token holds a dash, so [strtol] never has a minus sign to read. *)
Lemma strtol_nonneg (t : cstring) :
  Forall (λ c, is_delim c = false) t → 0 ≤ (strtol t).1.
Proof.
  intros Ht. unfold strtol.
  assert (Hd : Forall (λ c, is_delim c = false) (drop (span isspace t) t))
    by (by apply Forall_drop).
  destruct (drop (span isspace t) t) as [|c t1] eqn:E.
  - cbn. done.
  - inversion Hd as [|? ? Hc _]; subst. unfold is_delim in Hc. rewrite Hc.
    assert (Hval : ∀ u, 0 ≤ Z.max LONG_MIN (Z.min LONG_MAX (digits 0 u))).
    { intros u. pose proof (digits_nonneg u 0 ltac:(lia)).
      unfold LONG_MIN, LONG_MAX. lia. }
    destruct (bool_decide (code c = 43));
      destruct (decide (span isdigit _ = O));
      cbn -[digits Z.max Z.min span drop]; (done || apply Hval).
Qed.

Lemma strtok_token (s : cstring) (from at1 save : nat) (token : cstring) :
  strtok s from = (Some (at1, token), save) →
  Forall (λ c, is_delim c = false) token
  ∧ token ≠ []
  ∧ (from ≤ at1)%nat.
Proof.
  unfold strtok. case_decide as Hlen; [done|]. intros [= <- <- _].
  split; [|split; [|lia]].
  - eapply list.Forall_impl; [apply span_take|]. cbn. intros c Hc.
    by destruct (is_delim c).
  - intros Hnil. apply (f_equal length) in Hnil. rewrite length_take in Hnil.
    pose proof (span_le (λ c, negb (is_delim c))
                  (drop (from + span is_delim (drop from s)) s)).
    cbn in Hnil. lia.
Qed.

Lemma parse_numbers_sign (str : cstring) (a b : Z) (said : list message) :
  parse_numbers str = Some (Some (a, b), said) →
  0 ≤ a ∧ 0 ≤ b ∧ said = [].
Proof.
  unfold parse_numbers, split_str.
  destruct (strtok str 0) as [[[at1 token1]|] save1] eqn:E1; [|done].
  destruct (strtok_token _ _ _ _ _ E1) as (H1 & _ & _).
  pose proof (strtol_nonneg token1 H1) as Ha.
  destruct (strtol token1) as [val1 end1]. case_decide; [done|].
  destruct (strtok str save1) as [[[at2 token2]|] save2] eqn:E2; [|done].
  destruct (strtok_token _ _ _ _ _ E2) as (H2 & _ & _).
  pose proof (strtol_nonneg token2 H2) as Hb.
  destruct (strtol token2) as [val2 end2]. case_decide; [done|].
  intros [= <- <- <-]. done.
Qed.

(** X20: no identifier that [parse_numbers] hands out is negative.  The
    tokens of [strtok] hold no dash; -1, the value that stands for a free
    slot of [node_ids_distinct], is never the identifier of a node. *)
Theorem parse_numbers_not_negative (str : cstring) (a b : Z)
    (said : list message) :
  parse_numbers str = Some (Some (a, b), said) →
  0 ≤ a ∧ 0 ≤ b ∧ said = [].
Proof.
  apply parse_numbers_sign.
Qed.

Lemma parse_numbers_not_negative_witness :
  0 ≤ 12 ∧ 0 ≤ 7 ∧ @nil message = [].
Proof.
  apply (parse_numbers_not_negative arg_12_7 12 7 []). vm_compute. reflexivity.
Defined.


Lemma strtok_first (t1 rest : cstring) :
  t1 ≠ [] → Forall (λ c, is_delim c = false) t1 →
  (rest = [] ∨ ∃ d r, rest = d :: r ∧ is_delim d = true) →
  strtok (t1 ++ rest) 0
  = (Some (O, t1), if decide (rest = []) then length t1 else S (length t1)).
Proof.
  intros Hne Ht1 Hrest. unfold strtok. cbn [drop Nat.add].
  destruct t1 as [|c t1]; [done|].
  inversion Ht1 as [|? ? Hc Ht1']; subst.
  rewrite !drop_0.
  assert (span is_delim ((c :: t1) ++ rest) = O) as ->
    by (cbn; by rewrite Hc).
  rewrite !drop_0.
  rewrite span_app.
  2: { eapply list.Forall_impl; [exact Ht1|]. cbn. by intros ? ->. }
  assert (Hr : span (λ c0, negb (is_delim c0)) rest = O).
  { destruct Hrest as [->|(d & r & -> & Hd)]; [done|]. cbn. by rewrite Hd. }
  rewrite Hr, Nat.add_0_r. rewrite decide_False by (cbn; lia).
  rewrite take_app_length. f_equal.
  rewrite length_app. cbn [Nat.add].
  destruct Hrest as [->|(d & r & -> & Hd)].
  - rewrite decide_False by (cbn; lia). by rewrite decide_True.
  - rewrite decide_True by (cbn; lia). by rewrite decide_False.
Qed.

Lemma strtok_second (t1 t2 : cstring) (d : ascii) :
  t2 ≠ [] → Forall (λ c, is_delim c = false) t2 →
  strtok (t1 ++ d :: t2) (S (length t1))
  = (Some (S (length t1), t2), (S (length t1) + length t2)%nat).
Proof.
  intros Hne Ht2. unfold strtok.
  assert (Hdrop : drop (S (length t1)) (t1 ++ d :: t2) = t2).
  { rewrite (cons_middle d), app_assoc. apply drop_app_length'.
    rewrite length_app. cbn. lia. }
  rewrite Hdrop. destruct t2 as [|c t2]; [done|].
  inversion Ht2 as [|? ? Hc Ht2']; subst.
  rewrite (span_stop is_delim) by done. rewrite Nat.add_0_r, Hdrop.
  rewrite span_all.
  2: { eapply list.Forall_impl; [exact Ht2|]. cbn. by intros ? ->. }
  rewrite decide_False by (cbn; lia). rewrite firstn_all.
  f_equal. rewrite decide_False; [done|].
  rewrite length_app. cbn. lia.
Qed.

(** [parse_numbers] on two tokens with one dash between them, and on one
    token. *)
Lemma parse_numbers_two (t1 t2 : cstring) (d : ascii) :
  t1 ≠ [] → Forall (λ c, is_delim c = false) t1 →
  t2 ≠ [] → Forall (λ c, is_delim c = false) t2 →
  is_delim d = true →
  parse_numbers (t1 ++ d :: t2)
  = if decide ((strtol t1).2 = O) then Some (None, [NotInteger])
    else Some (Some ((strtol t1).1, (strtol t2).1), []).
Proof.
  intros Hn1 H1 Hn2 H2 Hd. unfold parse_numbers, split_str.
  rewrite strtok_first by (done || right; by exists d, t2).
  rewrite decide_False by done.
  destruct (strtol t1) as [val1 end1]. cbn [fst snd Nat.add].
  case_decide; [done|].
  rewrite strtok_second by done.
  destruct (strtol t2) as [val2 end2]. cbn [fst snd].
  rewrite decide_False by lia. reflexivity.
Qed.

Lemma parse_numbers_one (t : cstring) :
  t ≠ [] → Forall (λ c, is_delim c = false) t →
  parse_numbers t
  = if decide ((strtol t).2 = O) then Some (None, [NotInteger]) else None.
Proof.
  intros Hn Ht. unfold parse_numbers, split_str.
  pose proof (strtok_first t [] Hn Ht (or_introl eq_refl)) as Htok.
  rewrite app_nil_r, decide_True in Htok by done. rewrite Htok.
  destruct (strtol t) as [val1 end1]. cbn [fst snd Nat.add].
  case_decide; [done|].
  unfold strtok. rewrite drop_all. cbn.
  rewrite Nat.add_0_r, drop_all. cbn. reflexivity.
Qed.

Lemma numeral_plain (ds : list Z) :
  Forall (λ d, 0 ≤ d ≤ 9) ds → Forall (λ c, is_delim c = false) (numeral ds).
Proof.
  intros Hds. eapply list.Forall_impl; [exact (numeral_chars ds Hds)|].
  cbn. tauto.
Qed.

Lemma numeral_nonempty (ds : list Z) : ds ≠ [] → numeral ds ≠ [].
Proof. by destruct ds. Qed.

(** X21: an argument made of two decimal numbers with a dash between them
    is read as these two numbers, each replaced by [LONG_MAX] when it is
    larger than that. *)
Theorem parse_numbers_numerals (ds1 ds2 : list Z) :
  ds1 ≠ [] → Forall (λ d, 0 ≤ d ≤ 9) ds1 →
  ds2 ≠ [] → Forall (λ d, 0 ≤ d ≤ 9) ds2 →
  parse_numbers (numeral ds1 ++ "-"%char :: numeral ds2)
  = Some (Some (Z.min LONG_MAX (number ds1), Z.min LONG_MAX (number ds2)), []).
Proof.
  intros Hn1 H1 Hn2 H2.
  rewrite parse_numbers_two
    by (done || by apply numeral_plain || by apply numeral_nonempty).
  rewrite !strtol_numeral by done. cbn [fst snd].
  rewrite decide_False by (destruct ds1; cbn; done). reflexivity.
Qed.

(** "12-7" *)
Lemma parse_numbers_numerals_witness :
  parse_numbers (numeral [1; 2] ++ "-"%char :: numeral [7])
  = Some (Some (Z.min LONG_MAX (number [1; 2]), Z.min LONG_MAX (number [7])), []).
Proof.
  apply (parse_numbers_numerals [1; 2] [7]).
  - discriminate.
  - repeat constructor; lia.
  - discriminate.
  - repeat constructor; lia.
Defined.

(** X22: only the first identifier is checked.  [str == buffer] compares
    the end of a conversion with the beginning of the argument, which the
    second token is never at: a second token that is not a number counts as
    the identifier 0. *)
Theorem parse_numbers_second_unchecked (ds1 : list Z) (t2 : cstring) :
  ds1 ≠ [] → Forall (λ d, 0 ≤ d ≤ 9) ds1 →
  t2 ≠ [] → Forall (λ c, is_delim c = false) t2 →
  (strtol t2).2 = O →
  parse_numbers (numeral ds1 ++ "-"%char :: t2)
  = Some (Some (Z.min LONG_MAX (number ds1), 0), []).
Proof.
  intros Hn1 H1 Hn2 H2 Hnot.
  rewrite parse_numbers_two
    by (done || by apply numeral_plain || by apply numeral_nonempty).
  rewrite strtol_numeral by done. cbn [fst snd].
  rewrite decide_False by (destruct ds1; cbn; done).
  assert ((strtol t2).1 = 0) as ->; [|done].
  revert Hnot. unfold strtol.
  destruct (drop (span isspace t2) t2) as [|c u];
    [|destruct (bool_decide (code c = 45)), (bool_decide (code c = 43))];
    destruct (decide (span isdigit _ = O)); cbn -[digits Z.max Z.min span drop];
    (done || lia).
Qed.

(** "5-x" *)
Lemma parse_numbers_second_unchecked_witness :
  parse_numbers (numeral [5] ++ "-"%char :: ["x"%char])
  = Some (Some (Z.min LONG_MAX (number [5]), 0), []).
Proof.
  apply (parse_numbers_second_unchecked [5] ["x"%char]).
  - discriminate.
  - repeat constructor; lia.
  - discriminate.
  - repeat constructor.
  - reflexivity.
Defined.

(** X23: an argument that is one number without a dash.  [split_str(NULL)]
    reports the malformed argument and returns [NULL], and [parse_numbers]
    passes that [NULL] to [strtol]: undefined behaviour, where an error exit
    was meant. *)
Theorem parse_numbers_missing_dash (ds : list Z) :
  ds ≠ [] → Forall (λ d, 0 ≤ d ≤ 9) ds →
  parse_numbers (numeral ds) = None
  ∧ create_graph_from_args [numeral ds] = Crashes.
Proof.
  intros Hn Hds.
  assert (Hp : parse_numbers (numeral ds) = None).
  { rewrite parse_numbers_one by (by apply numeral_plain || by apply numeral_nonempty).
    rewrite strtol_numeral by done. cbn [snd].
    rewrite decide_False by (destruct ds; cbn; done). reflexivity. }
  split; [exact Hp|].
  unfold create_graph_from_args. cbn [length].
  rewrite decide_False by lia. rewrite decide_False by (unfold INT_MAX; lia).
  cbn [parse_loop]. rewrite Hp. reflexivity.
Qed.

(** "5" *)
Lemma parse_numbers_missing_dash_witness :
  parse_numbers (numeral [5]) = None
  ∧ create_graph_from_args [numeral [5]] = Crashes.
Proof.
  apply (parse_numbers_missing_dash [5]).
  - discriminate.
  - repeat constructor; lia.
Defined.


(** ** Building the graph *)

Lemma is_present_loop_elem (array : list Z) (x : Z) :
  ∀ i, 0 ≤ i → i + Z.of_nat (length array) ≤ INT_MAX →
       is_present_loop array i x = Some (bool_decide (x ∈ array)).
Proof.
  induction array as [|v array IH]; intros i Hi Hmax.
  - reflexivity.
  - cbn [is_present_loop length] in *. destruct (decide (v = x)) as [->|Hv].
    + f_equal. symmetry. apply bool_decide_eq_true_2, elem_of_cons. by left.
    + rewrite incr_ok by lia. cbn [mbind option_bind]. rewrite IH by lia.
      f_equal. apply bool_decide_ext. rewrite elem_of_cons.
      split; [by right|]. by intros [->|H].
Qed.

(** The free slots of [node_ids_distinct] hold -1, which no identifier
    is. *)
Lemma is_present_ids (ids : list Z) (m : nat) (x : Z) :
  0 ≤ x → Z.of_nat (length ids + m) ≤ INT_MAX →
  is_present (ids ++ replicate m (-1)) x = Some (bool_decide (x ∈ ids)).
Proof.
  intros Hx Hmax. unfold is_present.
  rewrite is_present_loop_elem by (rewrite ?length_app, ?length_replicate; lia).
  f_equal. apply bool_decide_ext. rewrite elem_of_app, elem_of_replicate.
  split; [|by left]. intros [H|[H _]]; [done|lia].
Qed.

Lemma seen_length (ids : list Z) (x : Z) :
  (length ids ≤ length (seen ids x) ≤ S (length ids))%nat.
Proof. unfold seen. case_decide; rewrite ?length_app; cbn; lia. Qed.

Lemma seen_good (ids : list Z) (x : Z) :
  0 ≤ x → NoDup ids → Forall (λ v, 0 ≤ v) ids →
  NoDup (seen ids x) ∧ Forall (λ v, 0 ≤ v) (seen ids x)
  ∧ x ∈ seen ids x ∧ (∀ y, y ∈ ids → y ∈ seen ids x).
Proof.
  intros Hx Hnd Hpos. unfold seen. case_decide as Hin.
  - done.
  - split_and!.
    + apply list.NoDup_app.
      split_and!; [done| |apply NoDup_singleton].
      intros y Hy Hy'. apply elem_of_cons in Hy' as [->|Hy']; [done|].
      by apply elem_of_nil in Hy'.
    + apply Forall_app. split; [done|]. by constructor.
    + apply elem_of_app. right. apply elem_of_cons. by left.
    + intros y Hy. apply elem_of_app. by left.
Qed.

Lemma note_seen (ids : list Z) (N : nat) (x : Z) :
  0 ≤ x → Z.of_nat N ≤ INT_MAX → (length ids < N)%nat →
  note (ids ++ replicate (N - length ids) (-1)) (length ids) x
  = Some (seen ids x ++ replicate (N - length (seen ids x)) (-1),
          length (seen ids x)).
Proof.
  intros Hx Hmax Hroom. unfold note.
  rewrite is_present_ids by (done || lia). cbn [mbind option_bind].
  unfold seen. destruct (decide (x ∈ ids)) as [Hin|Hin].
  - rewrite bool_decide_eq_true_2 by done. reflexivity.
  - rewrite bool_decide_eq_false_2 by done. unfold poke.
    rewrite decide_True by (rewrite length_app, length_replicate; lia).
    cbn [mbind option_bind]. f_equal. f_equal.
    + rewrite insert_app_r_alt by lia. rewrite Nat.sub_diag.
      destruct (N - length ids)%nat as [|m] eqn:E; [lia|].
      cbn. rewrite <- app_assoc. cbn. do 3 f_equal.
      rewrite length_app. cbn. lia.
    + rewrite length_app. cbn. lia.
Qed.

Lemma first_seen_good (pairs : list (Z * Z)) :
  ∀ ids, NoDup ids → Forall (λ v, 0 ≤ v) ids →
         Forall (λ p, 0 ≤ p.1 ∧ 0 ≤ p.2) pairs →
         NoDup (first_seen ids pairs)
         ∧ Forall (λ v, 0 ≤ v) (first_seen ids pairs)
         ∧ (∀ y, y ∈ ids → y ∈ first_seen ids pairs)
         ∧ Forall (λ x, x ∈ first_seen ids pairs) (flat pairs).
Proof.
  induction pairs as [|[a b] pairs IH]; intros ids Hnd Hpos Hps.
  - cbn. split_and!; done.
  - inversion Hps as [|? ? [Ha Hb] Hrest]; subst. cbn in Ha, Hb.
    destruct (seen_good ids a Ha Hnd Hpos) as (Hnd1 & Hpos1 & Ha1 & Hsub1).
    destruct (seen_good (seen ids a) b Hb Hnd1 Hpos1) as (Hnd2 & Hpos2 & Hb2 & Hsub2).
    destruct (IH (seen (seen ids a) b) Hnd2 Hpos2 Hrest) as (I1 & I2 & I3 & I4).
    change (first_seen ids ((a, b) :: pairs))
      with (first_seen (seen (seen ids a) b) pairs).
    split; [exact I1|]. split; [exact I2|]. split.
    + intros y Hy. by apply I3, Hsub2, Hsub1.
    + cbn [flat flat_map app fst snd]. constructor; [by apply I3, Hsub2|].
      constructor; [by apply I3|]. exact I4.
Qed.

Lemma poke_ok (array : list Z) (i : nat) (v : Z) :
  (i < length array)%nat → poke array i v = Some (<[i := v]> array).
Proof. intros Hi. unfold poke. by rewrite decide_True. Qed.

(** The first loop of [create_graph_from_args]: what it leaves in
    [node_ids], [node_ids_distinct] and [distinct_idx], with [ids] the
    identifiers noted before. *)
Lemma parse_loop_reads (N : nat) (argv : list cstring) :
  ∀ (pos : nat) (node_ids ids : list Z),
    length node_ids = N →
    (pos + 2 * length argv = N)%nat →
    (length ids ≤ pos)%nat →
    Z.of_nat N ≤ INT_MAX →
    NoDup ids → Forall (λ v, 0 ≤ v) ids →
    match parse_loop argv pos node_ids
            (ids ++ replicate (N - length ids) (-1)) (length ids) with
    | Goes (node_ids', node_ids_distinct', distinct_idx') =>
        ∃ pairs,
          Forall2 reads argv pairs
          ∧ Forall (λ p, 0 ≤ p.1 ∧ 0 ≤ p.2) pairs
          ∧ node_ids' = take pos node_ids ++ flat pairs
          ∧ node_ids_distinct'
            = first_seen ids pairs
                ++ replicate (N - length (first_seen ids pairs)) (-1)
          ∧ distinct_idx' = length (first_seen ids pairs)
    | Exits status _ =>
        status = EXIT_FAILURE
        ∧ ∃ arg said, arg ∈ argv ∧ parse_numbers arg = Some (None, said)
    | Aborts => False
    | Crashes => ∃ arg, arg ∈ argv ∧ parse_numbers arg = None
    end.
Proof.
  induction argv as [|arg argv IH];
    intros pos node_ids ids Hlen Hpos Hk Hmax Hnd Hids.
  - cbn [parse_loop]. exists []. cbn in Hpos.
    split; [constructor|]. split; [constructor|].
    split; [|done]. cbn. rewrite app_nil_r, take_ge by lia. reflexivity.
  - cbn [parse_loop length] in *.
    destruct (parse_numbers arg) as [[[[a b]|] said]|] eqn:E.
    + destruct (parse_numbers_sign arg a b said E) as (Ha & Hb & _).
      destruct (seen_good ids a Ha Hnd Hids) as (Hnd1 & Hpos1 & _ & _).
      destruct (seen_good (seen ids a) b Hb Hnd1 Hpos1) as (Hnd2 & Hpos2 & _ & _).
      pose proof (seen_length ids a) as L1.
      pose proof (seen_length (seen ids a) b) as L2.
      rewrite (poke_ok node_ids pos a) by lia. cbn [mbind option_bind].
      rewrite (poke_ok _ (S pos) b) by (rewrite length_insert; lia).
      cbn [mbind option_bind].
      rewrite note_seen by (done || lia). cbn [mbind option_bind].
      rewrite note_seen by (done || lia). cbn [mbind option_bind].
      specialize (IH (pos + 2)%nat (<[S pos:=b]> (<[pos:=a]> node_ids))
                     (seen (seen ids a) b)).
      rewrite !length_insert in IH.
      specialize (IH Hlen ltac:(lia) ltac:(lia) Hmax Hnd2 Hpos2).
      destruct (parse_loop argv (pos + 2) _ _ _) as [[[n' d'] k']|st said'| |].
      * destruct IH as (pairs & Hrd & Hps & Hn & Hd & Hk').
        exists ((a, b) :: pairs).
        split; [constructor; [by exists said | done]|].
        split; [constructor; [done | done]|].
        split; [|done].
        rewrite Hn, insert_two by lia.
        rewrite (app_assoc (take pos node_ids) [a; b]).
        rewrite take_app_length'
          by (rewrite length_app, length_take; cbn; lia).
        rewrite <- app_assoc. reflexivity.
      * destruct IH as (Hst & arg' & said'' & Hin & Hp).
        split; [done|]. exists arg', said''. split; [|done].
        apply elem_of_cons. by right.
      * done.
      * destruct IH as (arg' & Hin & Hp). exists arg'. split; [|done].
        apply elem_of_cons. by right.
    + split; [done|]. exists arg, said. split; [|done].
      apply elem_of_cons. by left.
    + exists arg. split; [|done]. apply elem_of_cons. by left.
Qed.

Lemma nodes_ids (ids : list Z) : map id (map (Node 0) ids) = ids.
Proof. induction ids as [|x ids IH]; [done|]. cbn. by rewrite IH. Qed.

Lemma edge_loop_finds (ids : list Z) (pairs : list (Z * Z)) :
  NoDup ids → Z.of_nat (length ids) ≤ INT_MAX →
  Forall (λ x, x ∈ ids) (flat pairs) →
  ∃ es, edge_loop (Graph (map (Node 0) ids) []) (flat pairs) = Goes es
        ∧ Forall2 (λ e p, ids !! node1 e = Some p.1 ∧ ids !! node2 e = Some p.2)
            es pairs.
Proof.
  intros Hnd Hmax. induction pairs as [|[a b] pairs IH]; intros Hin.
  - exists []. split; [reflexivity | constructor].
  - cbn [flat flat_map app fst snd] in Hin.
    inversion Hin as [|? ? Ha Hin1]; subst.
    inversion Hin1 as [|? ? Hb Hin2]; subst.
    destruct (IH Hin2) as (es & Hes & Hall).
    apply list_elem_of_lookup in Ha as [p Hp].
    apply list_elem_of_lookup in Hb as [q Hq].
    assert (Hfind : ∀ x r, ids !! r = Some x →
              find_node_by_id (Graph (map (Node 0) ids) []) x = Some (Some r)).
    { intros x r Hr. unfold find_node_by_id. cbn [nodes].
      apply (find_node_loop_self (map (Node 0) ids) r (Node 0 x)).
      - by rewrite nodes_ids.
      - change (map (Node 0) ids) with (Node 0 <$> ids).
        by rewrite list_lookup_fmap, Hr.
      - by rewrite length_map. }
    exists (Edge p q :: es). split.
    + cbn [flat flat_map app fst snd edge_loop].
      rewrite (Hfind a p Hp), (Hfind b q Hq).
      fold (flat pairs). by rewrite Hes.
    + constructor; [done | exact Hall].
Qed.

Lemma reads_functional (arg : cstring) (p q : Z * Z) :
  reads arg p → reads arg q → p = q.
Proof. intros [s1 H1] [s2 H2]. rewrite H1 in H2. by inversion H2. Qed.

Lemma first_seen_length (pairs : list (Z * Z)) :
  ∀ ids, (length (first_seen ids pairs) ≤ length ids + 2 * length pairs)%nat.
Proof.
  induction pairs as [|[a b] pairs IH]; intros ids; [cbn; lia|].
  change (first_seen ids ((a, b) :: pairs))
    with (first_seen (seen (seen ids a) b) pairs).
  specialize (IH (seen (seen ids a) b)).
  pose proof (seen_length ids a). pose proof (seen_length (seen ids a) b).
  cbn [length]. lia.
Qed.

Lemma lookups_wired (ids : list Z) (es : list edge_t) (ps : list (Z * Z)) :
  Forall2 (λ e p, ids !! node1 e = Some p.1 ∧ ids !! node2 e = Some p.2) es ps →
  Forall (λ e, (node1 e < length ids)%nat ∧ (node2 e < length ids)%nat) es.
Proof.
  induction 1 as [|e p es ps [H1 H2] _ IH]; constructor; [|exact IH].
  split; [exact (lookup_lt_Some _ _ _ H1) | exact (lookup_lt_Some _ _ _ H2)].
Qed.

(** Every way [create_graph_from_args] can come out. *)
Lemma create_graph_cases (argv : list cstring) :
  match create_graph_from_args argv with
  | Goes graph =>
      ∃ pairs,
        Forall2 reads argv pairs
        ∧ nodes graph = map (Node 0) (first_seen [] pairs)
        ∧ NoDup (first_seen [] pairs)
        ∧ Forall2 (λ e p, first_seen [] pairs !! node1 e = Some p.1
                          ∧ first_seen [] pairs !! node2 e = Some p.2)
            (edges graph) pairs
  | Exits status said =>
      status = EXIT_FAILURE
      ∧ (argv = [] ∨ ∃ arg said', arg ∈ argv
                                  ∧ parse_numbers arg = Some (None, said'))
  | Aborts => False
  | Crashes =>
      INT_MAX < 2 * Z.of_nat (length argv)
      ∨ ∃ arg, arg ∈ argv ∧ parse_numbers arg = None
  end.
Proof.
  unfold create_graph_from_args.
  destruct (decide (1 + Z.of_nat (length argv) ≤ 1)) as [Hargc|Hargc].
  { split; [done|]. left. destruct argv; [done|]. cbn in Hargc. lia. }
  destruct (decide (INT_MAX < (1 + Z.of_nat (length argv) - 1) * 2)) as [Hbig|Hbig].
  { left. lia. }
  set (N := Z.to_nat ((1 + Z.of_nat (length argv) - 1) * 2)).
  pose proof (parse_loop_reads N argv 0 (replicate N 0) []) as Hloop.
  cbn [length app] in Hloop. rewrite Nat.sub_0_r in Hloop.
  specialize (Hloop ltac:(by rewrite length_replicate) ltac:(lia) ltac:(lia)
                    ltac:(lia) ltac:(constructor) ltac:(constructor)).
  destruct (parse_loop argv 0 _ _ _) as [[[n' d'] k']|st said| |].
  - destruct Hloop as (pairs & Hrd & Hps & -> & -> & ->).
    destruct (first_seen_good pairs [] ltac:(constructor) ltac:(constructor) Hps)
      as (Hnd & _ & _ & Hin).
    rewrite take_app_length. rewrite take_0. cbn [app].
    pose proof (first_seen_length pairs []) as Hfl.
    pose proof (list.Forall2_length _ _ _ Hrd) as Hl2. cbn [length] in Hfl.
    destruct (edge_loop_finds (first_seen [] pairs) pairs Hnd ltac:(lia) Hin)
      as (es & -> & Hall).
    exists pairs. done.
  - destruct Hloop as (Hst & arg & said' & Hin & Hp).
    split; [done|]. right. by exists arg, said'.
  - done.
  - right. exact Hloop.
Qed.

(** X24: on arguments that [parse_numbers] accepts, as many of them as an
    [int] can count twice, [create_graph_from_args] returns a graph with one
    edge per argument, in their order, and one node (of colour 0) per
    identifier, in the order in which the identifiers are first mentioned.
    The nodes have distinct identifiers, every edge points to nodes of the
    graph, and these carry the two identifiers of its argument. *)
Theorem create_graph_from_args_builds (argv : list cstring)
    (pairs : list (Z * Z)) :
  argv ≠ [] →
  2 * Z.of_nat (length argv) ≤ INT_MAX →
  Forall2 reads argv pairs →
  ∃ graph,
    create_graph_from_args argv = Goes graph
    ∧ wired graph ∧ distinct graph
    ∧ nodes graph = map (Node 0) (first_seen [] pairs)
    ∧ Forall2 (λ e p, id_at (nodes graph) (node1 e) = Some p.1
                      ∧ id_at (nodes graph) (node2 e) = Some p.2)
        (edges graph) pairs.
Proof.
  intros Hne Hmax Hrd. pose proof (create_graph_cases argv) as Hc.
  assert (Hok : ∀ arg, arg ∈ argv → ∃ p, reads arg p).
  { intros arg Hin. apply list_elem_of_lookup in Hin as [i Hi].
    destruct (Forall2_lookup_l _ _ _ _ _ Hrd Hi) as (p & _ & Hp). by exists p. }
  destruct (create_graph_from_args argv) as [graph|st said| |].
  - destruct Hc as (pairs' & Hrd' & Hn & Hnd & Hes).
    assert (pairs' = pairs) as ->.
    { clear -Hrd Hrd'. revert pairs' Hrd'.
      induction Hrd as [|arg p argv pairs H1 _ IH]; intros pairs' Hrd'.
      - by inversion Hrd'.
      - inversion Hrd' as [|? q ? qs H2 Hrest]; subst.
        f_equal; [by apply (reads_functional arg)|by apply IH]. }
    exists graph. split; [done|].
    assert (Hid : ∀ r x, first_seen [] pairs !! r = Some x →
                         id_at (nodes graph) r = Some x).
    { intros r x Hr. unfold id_at. rewrite Hn.
      change (map (Node 0) (first_seen [] pairs))
        with (Node 0 <$> first_seen [] pairs).
      by rewrite list_lookup_fmap, Hr. }
    split_and!.
    + unfold wired. rewrite Hn, length_map. by eapply lookups_wired.
    + unfold distinct. by rewrite Hn, nodes_ids.
    + exact Hn.
    + apply (list.Forall2_impl _ _ _ _ Hes). cbn. intros e p [H1 H2].
      split; by apply Hid.
  - destruct Hc as (_ & [->|(arg & said' & Hin & Hp)]); [done|].
    destruct (Hok arg Hin) as (p & s & Hs). by rewrite Hp in Hs.
  - done.
  - destruct Hc as [Hbig|(arg & Hin & Hp)]; [lia|].
    destruct (Hok arg Hin) as (p & s & Hs). by rewrite Hp in Hs.
Qed.

(** "0-1", "1-2", "2-0", "2-3" *)
Lemma create_graph_from_args_builds_witness :
  ∃ graph,
    create_graph_from_args kite_args = Goes graph
    ∧ wired graph ∧ distinct graph
    ∧ nodes graph = map (Node 0) (first_seen [] [(0, 1); (1, 2); (2, 0); (2, 3)])
    ∧ Forall2 (λ e p, id_at (nodes graph) (node1 e) = Some p.1
                      ∧ id_at (nodes graph) (node2 e) = Some p.2)
        (edges graph) [(0, 1); (1, 2); (2, 0); (2, 3)].
Proof.
  apply (create_graph_from_args_builds kite_args
           [(0, 1); (1, 2); (2, 0); (2, 3)]).
  - discriminate.
  - vm_compute. discriminate.
  - repeat constructor; exists []; vm_compute; reflexivity.
Defined.

(** X25: whatever the arguments, the assertion of
    [create_graph_from_args] holds: both endpoints of every edge are found
    among the nodes.  The function returns a graph whose edges point to its
    nodes and whose nodes have distinct identifiers, or it leaves with
    [EXIT_FAILURE] (no argument, or one that [parse_numbers] rejects); what
    remains is undefined behaviour, of an argument without a second
    identifier or of more arguments than an [int] counts twice. *)
Theorem create_graph_from_args_sound (argv : list cstring) :
  match create_graph_from_args argv with
  | Goes graph =>
      wired graph ∧ distinct graph
      ∧ edge_count graph = Z.of_nat (length argv)
      ∧ node_count graph ≤ 2 * edge_count graph
  | Exits status said =>
      status = EXIT_FAILURE
      ∧ (argv = [] ∨ ∃ arg said', arg ∈ argv
                                  ∧ parse_numbers arg = Some (None, said'))
  | Aborts => False
  | Crashes =>
      INT_MAX < 2 * Z.of_nat (length argv)
      ∨ ∃ arg, arg ∈ argv ∧ parse_numbers arg = None
  end.
Proof.
  pose proof (create_graph_cases argv) as Hc.
  destruct (create_graph_from_args argv) as [graph|st said| |]; try exact Hc.
  destruct Hc as (pairs & Hrd & Hn & Hnd & Hes).
  pose proof (list.Forall2_length _ _ _ Hrd) as L1.
  pose proof (list.Forall2_length _ _ _ Hes) as L2.
  pose proof (first_seen_length pairs []) as L3. cbn [length] in L3.
  unfold wired, distinct, edge_count, node_count. rewrite Hn, nodes_ids, !length_map.
  split_and!; [|done|lia|lia].
  by eapply lookups_wired.
Qed.

(** ** The loop of the generator *)

Ltac split_offstage :=
  repeat split; try done;
  match goal with x : sem_name |- _ => by destruct x end.

Lemma offstage_refl (w : world) : offstage w w.
Proof. by repeat split. Qed.

Lemma offstage_trans (w1 w2 w3 : world) :
  offstage w1 w2 → offstage w2 w3 → offstage w1 w3.
Proof.
  intros (A1 & A2 & A3 & A4 & A5 & A6 & A7) (B1 & B2 & B3 & B4 & B5 & B6 & B7).
  split_and!; try congruence.
  intros s. destruct (A7 s) as [<- <-]. apply B7.
Qed.

Lemma interfere_offstage (w : world) : offstage w (interfere w).
Proof.
  unfold interfere. destruct (raised w) as [|[] ?]; split_offstage.
Qed.

Lemma took_offstage (s : sem_name) (w : world) : offstage w (took s w).
Proof. destruct s; split_offstage. Qed.

Lemma posted_offstage (s : sem_name) (w : world) : offstage w (posted s w).
Proof. destruct s; split_offstage. Qed.

Lemma put_offstage (v : Z) (w : world) : offstage w (put v w).
Proof.
  eapply offstage_trans; [apply interfere_offstage|].
  unfold put. generalize (write_idx (shm w)). intros i.
  generalize (interfere w). intros w0.
  split_offstage.
Qed.

Lemma add_solution_loop_offstage (edges : list Z) (size : nat) :
  ∀ (todo : nat) (i : Z) (w w' : world),
    add_solution_loop edges size todo i w = Returns true w' → offstage w w'.
Proof.
  induction todo as [|todo IH]; intros i w w' Hrun.
  - cbn in Hrun. inversion Hrun; subst. apply (posted_offstage SEM_MUTEX).
  - apply add_solution_loop_turn in Hrun as (v & _ & _ & _ & _ & _ & Hrun).
    eapply offstage_trans; [apply put_offstage | by eapply IH].
Qed.

(** [add_solution] that returns [true] has touched nothing but the queue. *)
Lemma add_solution_offstage (cbuff : circular_buffer_t) (edges : list Z)
    (size : nat) (w w' : world) :
  add_solution cbuff edges size w = Returns true w' → offstage w w'.
Proof.
  unfold add_solution. unfold mbind, M_bind at 1.
  destruct (sem_wait SEM_MUTEX w) as [r w1| | |] eqn:E; try done.
  apply sem_wait_inv in E as [(-> & -> & _)|(-> & e & rest & _ & ->)].
  - rewrite decide_False by done. intros Hrun.
    eapply offstage_trans; [apply took_offstage|].
    by eapply add_solution_loop_offstage.
  - rewrite decide_True by done. cbn. discriminate.
Qed.

Lemma flatten_length (ns : list node_t) (es : list edge_t) :
  length (flatten ns es) = (2 * length es)%nat.
Proof.
  unfold flatten. induction es as [|e es IH]; [done|].
  cbn [flat_map length app]. rewrite IH. lia.
Qed.

(** What a turn of the loop computes before it turns to the buffer. *)
Lemma generator_turn_draws (rand : nat → Z) (k : nat)
    (cbuff : circular_buffer_t) (graph : graph_t) (buffer : list Z) :
  wired graph →
  node_count graph ≤ INT_MAX →
  length buffer = (2 * length (edges graph))%nat →
  Z.of_nat (length buffer) ≤ INT_MAX →
  let graph' := painted rand k graph in
  let deletions := length (conflicts (nodes graph') (edges graph')) in
  let buffer' := solution graph' ++ drop (2 * deletions) buffer in
  let st := (graph', (k + length (nodes graph))%nat, buffer') in
  (deletions ≤ length (edges graph))%nat
  ∧ generator_turn rand k cbuff graph buffer
    = if decide (8 < deletions)%nat then mret (true, st)
      else ok ← add_solution cbuff buffer' (2 * deletions);
           if negb ok then mret (false, st) else mret (true, st).
Proof.
  intros Hw Hn Hlen Hmax graph' deletions buffer' st.
  assert (Hd : (deletions ≤ length (edges graph))%nat).
  { unfold deletions, conflicts. apply length_filter. }
  split; [exact Hd|].
  unfold generator_turn, color_randomly, node_count in *.
  rewrite color_loop_colors by (done || lia). cbn [mbind option_bind].
  fold (painted rand k graph). fold graph'.
  unfold get_deletion_edges. change 0 with (Z.of_nat 0) at 2.
  rewrite (deletion_loop_conflicts (nodes graph') (edges graph') 0 0 0 buffer).
  - fold deletions. rewrite take_0, Z.add_0_l. cbn [app Nat.add].
    fold (solution graph'). fold buffer'. fold st.
    rewrite to_size_t_small by (unfold INT_MAX in *; lia).
    unfold MIN_BOUNDARY.
    destruct (decide (8 < deletions)%nat) as [Hbig|Hsmall].
    + rewrite decide_True by lia. reflexivity.
    + rewrite decide_False by lia.
      rewrite to_size_t_small by (unfold INT_MAX in *; lia).
      replace (Z.to_nat (Z.of_nat deletions * 2)) with (2 * deletions)%nat by lia.
      reflexivity.
  - unfold graph', painted. cbn [nodes edges]. rewrite length_imap. exact Hw.
  - lia.
  - unfold graph', painted. cbn [nodes edges]. lia.
  - fold deletions. lia.
  - fold deletions. lia.
Qed.

(** One turn of the loop of the generator on a buffer with room for a
    frame. *)
Lemma generator_turn_frame (rand : nat → Z) (k : nat)
    (cbuff : circular_buffer_t) (graph : graph_t) (buffer : list Z) (w : world) :
  wired graph →
  node_count graph ≤ INT_MAX →
  length buffer = (2 * length (edges graph))%nat →
  Z.of_nat (length buffer) ≤ INT_MAX →
  ring_ok w → calm w → unhalted w →
  0 < value (sem_mutex w) →
  2 * 8 + 1 ≤ value (sem_free w) →
  ∃ buffer' w',
    generator_turn rand k cbuff graph buffer w
    = Returns (true, (painted rand k graph, (k + length (nodes graph))%nat,
                      buffer')) w'
    ∧ length buffer' = length buffer
    ∧ offstage w w'
    ∧ ring_ok w' ∧ calm w' ∧ unhalted w'
    ∧ pending w'
      = pending w
          ++ (if decide (length (solution (painted rand k graph)) ≤ 2 * 8)%nat
              then wire [solution (painted rand k graph)] else []).
Proof.
  intros Hw Hn Hlen Hmax Hok Hcalm Hun Hmutex Hfree.
  destruct (generator_turn_draws rand k cbuff graph buffer Hw Hn Hlen Hmax)
    as [Hd Hturn].
  set (graph' := painted rand k graph) in *.
  set (deletions := length (conflicts (nodes graph') (edges graph'))) in *.
  set (buffer' := solution graph' ++ drop (2 * deletions) buffer) in *.
  assert (Hsol : length (solution graph') = (2 * deletions)%nat)
    by apply flatten_length.
  assert (Hb' : length buffer' = length buffer).
  { unfold buffer'. rewrite length_app, length_drop, Hsol. lia. }
  exists buffer'. rewrite Hturn, Hsol.
  destruct (decide (8 < deletions)%nat) as [Hbig|Hsmall].
  - exists w. rewrite decide_False by lia. rewrite app_nil_r.
    split; [reflexivity|]. split; [exact Hb'|].
    split; [apply offstage_refl|]. done.
  - rewrite decide_True by lia.
    destruct (add_solution_ok cbuff buffer' (2 * deletions) w Hok Hcalm Hun Hmutex
                ltac:(lia) ltac:(lia))
      as (w' & Hrun & Hok' & Hc' & Hu' & Hp' & _).
    exists w'. unfold mbind, M_bind. rewrite Hrun. cbn [negb].
    split; [reflexivity|]. split; [exact Hb'|].
    split; [by eapply add_solution_offstage|].
    split; [exact Hok'|]. split; [exact Hc'|]. split; [exact Hu'|].
    rewrite Hp'. unfold wire. cbn [map concat]. rewrite app_nil_r, Hsol.
    do 2 f_equal. unfold buffer'. by apply take_app_length'.
Qed.

(** X26: one turn of the loop of the generator.  The nodes get the colours
    drawn, and when at most 8 edges join nodes of one colour the generator
    appends one frame to the queue: the number of words that follow, twice
    the number of these edges, and the identifiers of their endpoints.  A
    colouring with more such edges is dropped without a word.  Nothing but
    the queue is touched, and the turn asks for another one. *)
Theorem generator_turn_submits (rand : nat → Z) (k : nat)
    (cbuff : circular_buffer_t) (graph : graph_t) (buffer : list Z) (w : world) :
  wired graph →
  node_count graph ≤ INT_MAX →
  length buffer = (2 * length (edges graph))%nat →
  Z.of_nat (length buffer) ≤ INT_MAX →
  ring_ok w → calm w → unhalted w →
  0 < value (sem_mutex w) →
  2 * 8 + 1 ≤ value (sem_free w) →
  ∃ buffer' w',
    generator_turn rand k cbuff graph buffer w
    = Returns (true, (painted rand k graph, (k + length (nodes graph))%nat,
                      buffer')) w'
    ∧ length buffer' = length buffer
    ∧ offstage w w'
    ∧ ring_ok w' ∧ calm w' ∧ unhalted w'
    ∧ pending w'
      = pending w
          ++ (if decide (length (solution (painted rand k graph)) ≤ 2 * 8)%nat
              then wire [solution (painted rand k graph)] else []).
Proof.
  apply generator_turn_frame.
Qed.

(** The kite with all nodes in one colour: every edge has to go, and the
    frame has the header 8. *)
Lemma generator_turn_submits_witness :
  ∃ buffer' w',
    generator_turn (λ _ : nat, 0%Z) 0%nat (CBuff SHM_FD) kite (replicate 8 0) ready
    = Returns (true, (painted (λ _ : nat, 0%Z) 0%nat kite, (0 + length (nodes kite))%nat,
                      buffer')) w'
    ∧ length buffer' = length (replicate 8 0)
    ∧ offstage ready w'
    ∧ ring_ok w' ∧ calm w' ∧ unhalted w'
    ∧ pending w'
      = pending ready
          ++ (if decide (length (solution (painted (λ _ : nat, 0%Z) 0%nat kite)) ≤ 2 * 8)%nat
              then wire [solution (painted (λ _ : nat, 0%Z) 0%nat kite)] else []).
Proof.
  apply (generator_turn_submits (λ _ : nat, 0%Z) 0%nat (CBuff SHM_FD) kite (replicate 8 0)
           ready).
  - repeat constructor; cbn; lia.
  - vm_compute. discriminate.
  - reflexivity.
  - vm_compute. discriminate.
  - split; vm_compute; try reflexivity; try discriminate;
      split; (discriminate || reflexivity).
  - constructor.
  - split; [reflexivity | constructor].
  - reflexivity.
  - vm_compute. discriminate.
Defined.

(** X27: a generator that is started when [halt] is already set.  It
    builds its graph, attaches to the buffer, finds the flag at the first
    test of its loop, detaches and exits with [EXIT_SUCCESS]: it has drawn no
    colouring, written no word, changed nothing of what is shared, and it
    holds nothing any more. *)
Theorem generator_leaves_on_halt (fuel : nat) (rand : nat → Z)
    (argv : list cstring) (graph : graph_t) (w : world) :
  create_graph_from_args argv = Goes graph →
  shm_linked w = true →
  (∀ s, linked (sem s w) = true) →
  faults w = [] →
  halt (shm w) = true →
  ∃ w', main (S fuel) rand argv w = Returns (Exited EXIT_SUCCESS []) w'
        ∧ shared_same w w'
        ∧ stored (trace w') = stored (trace w)
        ∧ failures (trace w') = failures (trace w)
        ∧ held w' = []
        ∧ fd_open w' = None ∧ mapped w' = false.
Proof.
  intros Hg H1 H2 H3 Hh.
  pose proof (H2 SEM_FREE) as Hf. pose proof (H2 SEM_USED) as Hu.
  pose proof (H2 SEM_MUTEX) as Hm. clear H2.
  unfold main. rewrite Hg.
  generalize (replicate (Z.to_nat (to_size_t (edge_count graph * 2))) 0).
  intros buffer.
  open_world w. destruct sh as [h d wi ri].
  cbn in H1, Hf, Hu, Hm, H3, Hh. subst.
  destruct ra as [|[] ra];
    (eexists; split; [cbv; reflexivity|]);
    (split; [split_and!; try reflexivity; by intros []|]);
    (split; [cbn [trace]; fold_app; rewrite !stored_app; cbn;
             by rewrite ?app_nil_r|]);
    (split; [cbn [trace]; fold_app; rewrite !failures_app; cbn;
             by rewrite ?app_nil_r|]);
    split_and!; reflexivity.
Qed.

(** The generator of the kite, started on the buffer of [second_start] with
    [halt] set. *)
Lemma generator_leaves_on_halt_witness :
  ∃ w', main 1 (λ _ : nat, 0) kite_args (set_shm (set_halt true) second_start)
        = Returns (Exited EXIT_SUCCESS []) w'
        ∧ shared_same (set_shm (set_halt true) second_start) w'
        ∧ stored (trace w') = stored (trace (set_shm (set_halt true) second_start))
        ∧ failures (trace w')
          = failures (trace (set_shm (set_halt true) second_start))
        ∧ held w' = []
        ∧ fd_open w' = None ∧ mapped w' = false.
Proof.
  apply (generator_leaves_on_halt 0 (λ _ : nat, 0) kite_args kite
           (set_shm (set_halt true) second_start)).
  - vm_compute. reflexivity.
  - vm_compute. reflexivity.
  - intros []; vm_compute; reflexivity.
  - vm_compute. reflexivity.
  - vm_compute. reflexivity.
Defined.

Lemma interfere_halted (w : world) :
  halt (shm w) = true → halt (shm (interfere w)) = true.
Proof.
  intros Hh. unfold interfere. by destruct (raised w) as [|[] ?].
Qed.

(** X28: the generator and the supervisor together.  On an empty buffer,
    when the colouring a generator draws is proper, its turn puts the frame
    with the header 0 into the queue; the supervisor reads it, reports that
    the graph is 3-colorable, sets [halt], removes the buffer and exits with
    [EXIT_SUCCESS]; and the generator finds the flag at the next test of its
    loop and leaves it. *)
Theorem proper_colouring_ends_run (rand : nat → Z) (k fuel fuel' : nat)
    (cbuff : circular_buffer_t) (graph : graph_t) (buffer : list Z) (w : world) :
  wired graph →
  node_count graph ≤ INT_MAX →
  length buffer = (2 * length (edges graph))%nat →
  Z.of_nat (length buffer) ≤ INT_MAX →
  ring_ok w → calm w → unhalted w →
  0 < value (sem_mutex w) →
  pending w = [] → quit w = false → owner cbuff w →
  conflicts (nodes (painted rand k graph)) (edges graph) = [] →
  ∃ (buffer' : list Z) (w1 w2 w3 : world),
    generator_turn rand k cbuff graph buffer w
    = Returns (true, (painted rand k graph, (k + length (nodes graph))%nat,
                      buffer')) w1
    ∧ pending w1 = [0]
    ∧ supervisor_run (S (S fuel)) cbuff (-1) w1 = Returns EXIT_SUCCESS w2
    ∧ out w2 = out w ++ [OutColorable]
    ∧ halt (shm w2) = true
    ∧ shm_linked w2 = false ∧ names w2 = []
    ∧ generator_loop (S fuel') rand (k + length (nodes graph)) cbuff
        (painted rand k graph) buffer' w2
      = Returns tt w3
    ∧ out w3 = out w2.
Proof.
  intros Hw Hn Hlen Hmax Hok Hcalm Hun Hmutex Hp Hquit Hown Hproper.
  assert (Hfree : 2 * 8 + 1 ≤ value (sem_free w)).
  { pose proof (pending_length w Hok) as Hl. rewrite Hp in Hl. cbn in Hl.
    pose proof (ring_sum _ Hok). pose proof (ring_used _ Hok).
    unfold MAX_DATA in *. lia. }
  destruct (generator_turn_frame rand k cbuff graph buffer w Hw Hn Hlen Hmax
              Hok Hcalm Hun Hmutex Hfree)
    as (buffer' & w1 & Hturn & _ & Hoff & Hok1 & Hc1 & _ & Hp1).
  assert (Hsol : solution (painted rand k graph) = []).
  { unfold solution. cbn [edges painted]. rewrite Hproper. reflexivity. }
  rewrite Hsol, Hp in Hp1. cbn in Hp1.
  destruct Hoff as (Ho & Hq & Hfa & Hfd & _ & Hsl & _).
  destruct Hown as (Ofa & Ofd & Osl).
  destruct (supervisor_run_reports cbuff (-1) [] [] [] fuel w1 Hok1 Hc1)
    as (w2 & Hrun & Hout & _ & Hld & Hh & Hsl2 & Hnm & _).
  { by rewrite Hq. }
  { split; [by rewrite Hfa|]. split; [by rewrite Hfd | by rewrite Hsl]. }
  { exact Hp1. }
  { constructor. }
  { cbn. lia. }
  { by left. }
  exists buffer', w1, w2, (log (ReadHalt true) (interfere w2)).
  split; [exact Hturn|]. split; [exact Hp1|]. split; [exact Hrun|].
  split; [by rewrite Hout, Ho|].
  split; [exact Hh|]. split; [exact Hsl2|]. split; [exact Hnm|].
  split.
  - cbn [generator_loop]. unfold mbind, M_bind at 1. unfold read_halt.
    rewrite (interfere_halted w2 Hh). reflexivity.
  - destruct (interfere_same w2) as (_ & _ & _ & _ & _ & _ & _ & Hio & _).
    cbn [out log]. exact Hio.
Qed.

(** The kite coloured 0, 1, 2, 0 on the buffer just created. *)
Lemma proper_colouring_ends_run_witness :
  ∃ (buffer' : list Z) (w1 w2 w3 : world),
    generator_turn Z.of_nat 0 (CBuff SHM_FD) kite (replicate 8 0) ready
    = Returns (true, (painted Z.of_nat 0 kite, (0 + length (nodes kite))%nat,
                      buffer')) w1
    ∧ pending w1 = [0]
    ∧ supervisor_run 2 (CBuff SHM_FD) (-1) w1 = Returns EXIT_SUCCESS w2
    ∧ out w2 = out ready ++ [OutColorable]
    ∧ halt (shm w2) = true
    ∧ shm_linked w2 = false ∧ names w2 = []
    ∧ generator_loop 1 Z.of_nat (0 + length (nodes kite)) (CBuff SHM_FD)
        (painted Z.of_nat 0 kite) buffer' w2
      = Returns tt w3
    ∧ out w3 = out w2.
Proof.
  apply (proper_colouring_ends_run Z.of_nat 0 0 0 (CBuff SHM_FD) kite
           (replicate 8 0) ready).
  - repeat constructor; cbn; lia.
  - vm_compute. discriminate.
  - reflexivity.
  - vm_compute. discriminate.
  - split; vm_compute; try reflexivity; try discriminate;
      split; (discriminate || reflexivity).
  - constructor.
  - split; [reflexivity | constructor].
  - reflexivity.
  - vm_compute. reflexivity.
  - reflexivity.
  - split; [reflexivity|]. split; reflexivity.
  - vm_compute. reflexivity.
Defined.

(** X29: [is_present] tells whether the number is an element of the array,
    whatever the array holds: in [create_graph_from_args] the slots of
    [node_ids_distinct] not yet used hold -1 and are searched like the
    others. *)
Theorem is_present_elem (array : list Z) (search_for : Z) :
  Z.of_nat (length array) ≤ INT_MAX →
  is_present array search_for = Some (bool_decide (search_for ∈ array)).
Proof.
  intros Hmax. unfold is_present. by apply is_present_loop_elem.
Qed.

(** -1 is found in the array after [memset], before any identifier is
    noted. *)
Lemma is_present_elem_witness :
  is_present (replicate 4 (-1)) (-1)
  = Some (bool_decide (-1 ∈ replicate 4 (-1))).
Proof.
  apply (is_present_elem (replicate 4 (-1)) (-1)). vm_compute. discriminate.
Defined.

Lemma flatten_not_minus_one (ns : list node_t) (es : list edge_t) :
  Forall (λ n, id n ≠ -1) ns → Forall (λ v, v ≠ -1) (flatten ns es).
Proof.
  intros Hns. unfold flatten.
  assert (Hat : ∀ p, default 0 (id_at ns p) ≠ -1).
  { intros p. unfold id_at. destruct (ns !! p) as [n|] eqn:E; cbn; [|done].
    by apply (Forall_lookup_1 _ _ _ _ Hns E). }
  induction es as [|e es IH]; [constructor|].
  cbn [flat_map app]. constructor; [apply Hat|]. constructor; [apply Hat | exact IH].
Qed.

(** X30: what the supervisor prints is what the generator found.  On an
    empty buffer, a colouring that leaves between one and eight edges to
    delete goes through the queue as one frame, and the supervisor, which
    has seen no frame before, announces that number of edges and prints the
    identifiers of their endpoints in pairs, in the order of the edges of
    the graph. *)
Theorem solution_is_reported (rand : nat → Z) (k : nat)
    (cbuff : circular_buffer_t) (graph : graph_t) (buffer : list Z) (w : world) :
  wired graph →
  node_count graph ≤ INT_MAX →
  length buffer = (2 * length (edges graph))%nat →
  Z.of_nat (length buffer) ≤ INT_MAX →
  Forall (λ n, id n ≠ -1) (nodes graph) →
  ring_ok w → calm w → unhalted w →
  0 < value (sem_mutex w) →
  pending w = [] →
  (1 ≤ length (conflicts (nodes (painted rand k graph)) (edges graph)) ≤ 8)%nat →
  ∃ (buffer' : list Z) (w1 w2 : world),
    generator_turn rand k cbuff graph buffer w
    = Returns (true, (painted rand k graph, (k + length (nodes graph))%nat,
                      buffer')) w1
    ∧ pending w1 = wire [solution (painted rand k graph)]
    ∧ supervisor_turn cbuff (-1) w1
      = Returns (Continue (Z.of_nat (length (conflicts
                                       (nodes (painted rand k graph))
                                       (edges graph))))) w2
    ∧ out w2
      = out w ++ [OutSolution (Z.of_nat (length (conflicts
                                            (nodes (painted rand k graph))
                                            (edges graph))))]
              ++ edge_text 0 (solution (painted rand k graph)) ++ [OutNewline]
    ∧ pending w2 = []
    ∧ quit w2 = quit w.
Proof.
  intros Hw Hn Hlen Hmax Hids Hok Hcalm Hun Hmutex Hp Hd.
  assert (Hfree : 2 * 8 + 1 ≤ value (sem_free w)).
  { pose proof (pending_length w Hok) as Hl. rewrite Hp in Hl. cbn in Hl.
    pose proof (ring_sum _ Hok). pose proof (ring_used _ Hok).
    unfold MAX_DATA in *. lia. }
  destruct (generator_turn_frame rand k cbuff graph buffer w Hw Hn Hlen Hmax
              Hok Hcalm Hun Hmutex Hfree)
    as (buffer' & w1 & Hturn & _ & Hoff & Hok1 & Hc1 & _ & Hp1).
  set (s := solution (painted rand k graph)) in *.
  set (d := length (conflicts (nodes (painted rand k graph)) (edges graph))) in *.
  assert (Hs : length s = (2 * d)%nat) by apply flatten_length.
  rewrite decide_True, Hp in Hp1 by lia. cbn [app] in Hp1.
  assert (Hproper : proper_frame s).
  { split; [lia|]. apply flatten_not_minus_one.
    cbn [nodes painted]. apply Forall_lookup. intros j n Hj.
    rewrite list_lookup_imap in Hj.
    destruct (nodes graph !! j) as [n0|] eqn:E; [|done].
    cbn in Hj. inversion Hj; subst. cbn.
    by apply (Forall_lookup_1 _ _ _ _ Hids E). }
  assert (Hq : Z.quot (Z.of_nat (length s)) 2 = Z.of_nat d).
  { rewrite Hs. replace (Z.of_nat (2 * d)) with (Z.of_nat d * 2) by lia.
    apply Z.quot_mul. lia. }
  destruct (supervisor_turn_step cbuff (-1) s [] w1 Hok1 Hc1)
    as (w2 & Hst & _ & _ & Hq2 & Hp2 & Ho2 & _).
  { rewrite Hp1. unfold wire. cbn. by rewrite !app_nil_r. }
  { exact Hproper. }
  rewrite Hq in Hst, Ho2.
  rewrite decide_True in Hst by (by left).
  rewrite decide_True in Ho2 by (by left).
  destruct Hoff as (Ho & Hqt & _).
  exists buffer', w1, w2.
  split; [exact Hturn|]. split; [exact Hp1|]. split; [exact Hst|].
  split; [by rewrite Ho2, Ho|]. split; [exact Hp2|]. by rewrite Hq2, Hqt.
Qed.

(** The kite in one colour: four edges to delete. *)
Lemma solution_is_reported_witness :
  ∃ (buffer' : list Z) (w1 w2 : world),
    generator_turn (λ _ : nat, 0) 0 (CBuff SHM_FD) kite (replicate 8 0) ready
    = Returns (true, (painted (λ _ : nat, 0) 0 kite,
                      (0 + length (nodes kite))%nat, buffer')) w1
    ∧ pending w1 = wire [solution (painted (λ _ : nat, 0) 0 kite)]
    ∧ supervisor_turn (CBuff SHM_FD) (-1) w1
      = Returns (Continue (Z.of_nat (length (conflicts
                                       (nodes (painted (λ _ : nat, 0) 0 kite))
                                       (edges kite))))) w2
    ∧ out w2
      = out ready
          ++ [OutSolution (Z.of_nat (length (conflicts
                                       (nodes (painted (λ _ : nat, 0) 0 kite))
                                       (edges kite))))]
          ++ edge_text 0 (solution (painted (λ _ : nat, 0) 0 kite))
          ++ [OutNewline]
    ∧ pending w2 = []
    ∧ quit w2 = quit ready.
Proof.
  apply (solution_is_reported (λ _ : nat, 0) 0 (CBuff SHM_FD) kite
           (replicate 8 0) ready).
  - repeat constructor; cbn; lia.
  - vm_compute. discriminate.
  - reflexivity.
  - vm_compute. discriminate.
  - repeat constructor; discriminate.
  - split; vm_compute; try reflexivity; try discriminate;
      split; (discriminate || reflexivity).
  - constructor.
  - split; [reflexivity | constructor].
  - reflexivity.
  - vm_compute. reflexivity.
  - vm_compute. lia.
Defined.

End generator.
